(** * lint-external-links: a shallow embedding of
      [apps/docs/scripts/lint-external-links.ts]

    The script scans markdown documents for external links and probes
    each distinct URL over HTTP.  This development embeds its functions
    as Rocq definitions and proves the properties the specification
    states about them.

    Conventions of the embedding:
    - a JavaScript string is the list of its UTF-16 code units ([N]);
    - a function that may throw returns a [result];
    - what the script obtains from its runtime (the WHATWG [URL] parser,
      the network, [String.prototype.localeCompare]) is a parameter of
      the definitions that use it;
    - the regular expressions are embedded as the matchers they denote
      under ECMAScript's backtracking semantics. *)

From Stdlib Require Import String Ascii.
From Stdlib Require Import List NArith ZArith Bool Lia Arith.
From Stdlib Require Import DecimalString Permutation Sorted.
Import ListNotations.

Set Implicit Arguments.

(** * Part I: the program *)

(** ** JavaScript strings *)

Module Js.

Definition char := N.
Definition jsstring := list char.

(** The code unit of an ASCII character, the code units of an ASCII
    literal. *)
Definition ch (a : ascii) : char := N_of_ascii a.
Arguments ch a%_char.

Definition lit (s : string) : jsstring :=
  map N_of_ascii (list_ascii_of_string s).
Arguments lit s%_string.

Definition LF : char := 10%N.

Fixpoint eqb (a b : jsstring) : bool :=
  match a, b with
  | [], [] => true
  | x :: a', y :: b' => N.eqb x y && eqb a' b'
  | _, _ => false
  end.

Definition isEmpty (s : jsstring) : bool :=
  match s with [] => true | _ => false end.

(** [Number.prototype.toString] on a non-negative integer. *)
Definition ofNumber (n : N) : jsstring :=
  map N_of_ascii
      (list_ascii_of_string (NilEmpty.string_of_uint (N.to_uint n))).

(** ECMAScript's WhiteSpace and LineTerminator code points: the class
    [\s] of a regular expression, and what [trim] removes. *)
Definition isWhiteSpace (c : char) : bool :=
  existsb (N.eqb c)
    [9; 10; 11; 12; 13; 32; 160; 5760; 8232; 8233; 8239; 8287; 12288; 65279]%N
  || ((8192 <=? c) && (c <=? 8202))%N.

(** The code points the pattern [.] does not match. *)
Definition isLineTerminator (c : char) : bool :=
  existsb (N.eqb c) [10; 13; 8232; 8233]%N.

(** The word characters of [\b] (no [u] flag): [A-Za-z0-9_]. *)
Definition isWordChar (c : char) : bool :=
  ((65 <=? c) && (c <=? 90) || (97 <=? c) && (c <=? 122)
   || (48 <=? c) && (c <=? 57) || (c =? 95))%N.

Fixpoint dropWhile (p : char -> bool) (s : jsstring) : jsstring :=
  match s with
  | [] => []
  | c :: tl => if p c then dropWhile p tl else s
  end.

Definition trim (s : jsstring) : jsstring :=
  rev (dropWhile isWhiteSpace (rev (dropWhile isWhiteSpace s))).

(** The longest prefix whose code units satisfy [p], and what follows. *)
Fixpoint span (p : char -> bool) (s : jsstring) : jsstring * jsstring :=
  match s with
  | [] => ([], [])
  | c :: tl =>
      if p c then let (a, b) := span p tl in (c :: a, b) else ([], s)
  end.

Fixpoint startsWith (s prefix : jsstring) {struct prefix} : bool :=
  match prefix with
  | [] => true
  | p :: prefix' =>
      match s with
      | c :: s' => N.eqb c p && startsWith s' prefix'
      | [] => false
      end
  end.

(** [indexOf] of a single code unit; [None] stands for -1. *)
Fixpoint indexOf (s : jsstring) (c : char) : option nat :=
  match s with
  | [] => None
  | x :: tl => if N.eqb x c then Some 0 else option_map S (indexOf tl c)
  end.

(** [slice(a, b)] for indices [0 <= a], [0 <= b]. *)
Definition slice (a b : nat) (s : jsstring) : jsstring :=
  firstn (b - a) (skipn a s).

(** [split] on a single code unit. *)
Fixpoint splitOn (sep : char) (s : jsstring) : list jsstring :=
  match s with
  | [] => [[]]
  | c :: tl =>
      if N.eqb c sep then [] :: splitOn sep tl
      else match splitOn sep tl with
           | piece :: pieces => (c :: piece) :: pieces
           | [] => [[c]]
           end
  end.

(** [toLowerCase], on the ASCII letters.  Outside ASCII the only code
    unit whose lower case is an ASCII letter is U+212A (to [k]); the
    script lower-cases a string only to look it up in
    [IMAGE_EXTENSIONS], none of which contains [k]. *)
Definition lowerChar (c : char) : char :=
  if ((65 <=? c) && (c <=? 90))%N then (c + 32)%N else c.

Definition toLowerCase (s : jsstring) : jsstring := map lowerChar s.

(** The number of matches of [/\n/g]. *)
Definition countNewlines (s : jsstring) : nat :=
  length (filter (N.eqb LF) s).

(** The code-unit (lexicographic) comparison of two strings, as [<]
    and [>] on strings compute it; negative, zero or positive. *)
Fixpoint compareCodeUnits (a b : jsstring) : Z :=
  match a, b with
  | [], [] => 0
  | [], _ :: _ => -1
  | _ :: _, [] => 1
  | x :: a', y :: b' =>
      match N.compare x y with
      | Lt => -1
      | Gt => 1
      | Eq => compareCodeUnits a' b'
      end
  end.

End Js.

Import Js.

(** ** Constants of the script *)

Definition TIMEOUT_MS : N := 10000.
Definition MAX_CONCURRENCY : nat := 15.
Definition ACCEPTED_STATUSES : list N := [403; 429]%N.

Definition IMAGE_EXTENSIONS : list jsstring :=
  [ lit ".png"; lit ".jpg"; lit ".jpeg"; lit ".gif"; lit ".webp";
    lit ".svg"; lit ".avif"; lit ".bmp"; lit ".ico" ].

(** [Set.prototype.has] on the two constant sets. *)
Definition has_status (set : list N) (s : N) : bool :=
  existsb (N.eqb s) set.

Definition has_string (set : list jsstring) (s : jsstring) : bool :=
  existsb (Js.eqb s) set.

(** ** Global regular expressions *)

Module Regex.

(** A matcher tells, for the code unit before the current position and
    the input from the current position on, whether the pattern matches
    there; if so it gives the length of the match and its captures. *)
Definition matcher (G : Type) := option char -> jsstring -> option (nat * G).

(** The successive results of [regex.exec(content)] for a global
    regular expression whose matches are never empty: the index and
    the captures of each match, the search resuming where the previous
    match ended.  [skip] counts the code units of the current match
    still to be passed over. *)
Fixpoint execFrom {G} (m : matcher G) (prev : option char)
    (skip index : nat) (s : jsstring) : list (nat * G) :=
  match s with
  | [] => []
  | c :: tl =>
      match skip with
      | S k => execFrom m (Some c) k (S index) tl
      | O =>
          match m prev s with
          | Some (S len, g) =>
              (index, g) :: execFrom m (Some c) len (S index) tl
          | _ => execFrom m (Some c) 0 (S index) tl
          end
      end
  end.

Definition execAll {G} (m : matcher G) (content : jsstring)
  : list (nat * G) :=
  execFrom m None 0 0 content.

(** [content.replace(regex, f)] for such a regular expression, [f]
    receiving the matched text. *)
Fixpoint replaceFrom (m : jsstring -> option nat)
    (f : jsstring -> jsstring) (skip : nat) (s : jsstring) : jsstring :=
  match s with
  | [] => []
  | c :: tl =>
      match skip with
      | S k => replaceFrom m f k tl
      | O =>
          match m s with
          | Some (S len) => f (firstn (S len) s) ++ replaceFrom m f len tl
          | _ => c :: replaceFrom m f 0 tl
          end
      end
  end.

Definition replaceAll (m : jsstring -> option nat)
    (f : jsstring -> jsstring) (content : jsstring) : jsstring :=
  replaceFrom m f 0 content.

End Regex.

(** ** The extractor *)

Definition fence : jsstring := lit "```".

(** The offset of the first [```] in [s]. *)
Fixpoint findFence (s : jsstring) : option nat :=
  match s with
  | [] => None
  | _ :: tl =>
      if startsWith s fence then Some 0 else option_map S (findFence tl)
  end.

(** [CODE_BLOCK_REGEX = /```[\s\S]*?```/g] at the start of [s]: an
    opening fence, then lazily up to the first closing fence. *)
Definition CODE_BLOCK_REGEX (s : jsstring) : option nat :=
  if startsWith s fence
  then option_map (fun k => 3 + k + 3) (findFence (skipn 3 s))
  else None.

(** The replacement [(match) => LF.repeat(n)], [n] being the number of
    line breaks of the match. *)
Definition lineBreaks (matched : jsstring) : jsstring :=
  repeat LF (countNewlines matched).

Definition stripCodeBlocks (content : jsstring) : jsstring :=
  Regex.replaceAll CODE_BLOCK_REGEX lineBreaks content.

Definition lineNumberAt (content : jsstring) (index : nat) : nat :=
  length (splitOn LF (slice 0 index content)).

Definition extractMarkdownUrl (raw : jsstring) : jsstring :=
  let trimmed := trim raw in
  if isEmpty trimmed then []
  else
    match (if startsWith trimmed (lit "<") then indexOf trimmed (ch ">")
           else None) with
    | Some close => trim (slice 1 close trimmed)
    | None => fst (span (fun c => negb (isWhiteSpace c)) trimmed)
    end.

(** [url.split(/[?#]/, 1)[0]]. *)
Definition stripQueryAndHash (url : jsstring) : jsstring :=
  fst (span (fun c => negb ((c =? ch "?") || (c =? ch "#"))%N) url).

(** *** [path.extname] (POSIX flavour of [node:path])

    The state of the backwards scan of the library function. *)
Record extScan := mkExtScan {
  startDot : option nat;
  startPart : nat;
  endPos : option nat;
  matchedSlash : bool;
  preDotState : Z
}.

Definition extScan0 : extScan := mkExtScan None 0 None true 0.

(** The loop [for (i = path.length - 1; i >= 0; --i)]; [rpath] holds
    the code units at indices [n-1], [n-2], ..., [0]. *)
Fixpoint extnameScan (n : nat) (rpath : jsstring) (st : extScan) : extScan :=
  match rpath, n with
  | code :: more, S i =>
      if (code =? ch "/")%N then
        if negb (matchedSlash st)
        then mkExtScan (startDot st) (S i) (endPos st)
                       (matchedSlash st) (preDotState st)
        else extnameScan i more st
      else
        let st1 :=
          match endPos st with
          | None => mkExtScan (startDot st) (startPart st) (Some (S i))
                              false (preDotState st)
          | Some _ => st
          end in
        let st2 :=
          if (code =? ch ".")%N then
            match startDot st1 with
            | None => mkExtScan (Some i) (startPart st1) (endPos st1)
                                (matchedSlash st1) (preDotState st1)
            | Some _ => mkExtScan (startDot st1) (startPart st1) (endPos st1)
                                  (matchedSlash st1) 1
            end
          else
            match startDot st1 with
            | Some _ => mkExtScan (startDot st1) (startPart st1) (endPos st1)
                                  (matchedSlash st1) (-1)
            | None => st1
            end in
        extnameScan i more st2
  | _, _ => st
  end.

Definition extname (path : jsstring) : jsstring :=
  let st := extnameScan (length path) (rev path) extScan0 in
  match startDot st, endPos st with
  | Some sd, Some e =>
      if (preDotState st =? 0)%Z
         || ((preDotState st =? 1)%Z && (sd =? e - 1) && (sd =? startPart st + 1))
      then []
      else slice sd e path
  | _, _ => []
  end.

(** *** The WHATWG [URL] class

    The fields of a parsed URL the script reads; [href] is what
    [toString()] returns.  A parser returns [None] where
    [new URL(s)] throws. *)
Record URL := mkURL {
  protocol : jsstring;
  hostname : jsstring;
  pathname : jsstring;
  href : jsstring
}.

Definition urlParser := jsstring -> option URL.

Record link := mkLink {
  link_url : jsstring;
  link_line : nat
}.

Section Extractor.

Variable parse : urlParser.

Definition isImageUrl (url : jsstring) : bool :=
  let noQuery := stripQueryAndHash url in
  match parse noQuery with
  | Some parsed =>
      has_string IMAGE_EXTENSIONS (toLowerCase (extname (pathname parsed)))
  | None => has_string IMAGE_EXTENSIONS (toLowerCase (extname noQuery))
  end.

Definition toExternalHttpUrl (raw : jsstring) : option jsstring :=
  let trimmed := trim raw in
  if isEmpty trimmed then None
  else
    match parse trimmed with
    | Some parsed =>
        if negb (Js.eqb (protocol parsed) (lit "http:"))
           && negb (Js.eqb (protocol parsed) (lit "https:"))
        then None
        else if Js.eqb (hostname parsed) (lit "localhost") then None
        else Some (href parsed)
    | None => None
    end.

(** [MARKDOWN_LINK_REGEX = /(?<!!)\[[^\]]*]\(([^)\n]+)\)/g]; the
    capture is group 1.  Both greedy classes stop at the first code
    unit they exclude, which is the only place where the rest of the
    pattern can match. *)
Definition MARKDOWN_LINK_REGEX : Regex.matcher jsstring :=
  fun prev s =>
    if match prev with Some c => (c =? ch "!")%N | None => false end
    then None
    else
      match s with
      | c :: s1 =>
          if negb (c =? ch "[")%N then None
          else
            let (text, s2) := span (fun c => negb (c =? ch "]")%N) s1 in
            match s2 with
            | c1 :: c2 :: s3 =>
                if negb ((c1 =? ch "]")%N && (c2 =? ch "(")%N) then None
                else
                  let (target, s4) :=
                    span (fun c => negb (c =? ch ")")%N && negb (c =? LF)%N)
                         s3 in
                  match target, s4 with
                  | _ :: _, c3 :: _ =>
                      if (c3 =? ch ")")%N
                      then Some (1 + length text + 2 + length target + 1,
                                 target)
                      else None
                  | _, _ => None
                  end
            | _ => None
            end
      | [] => None
      end.

(** [MARKDOWN_IMAGE_REGEX = /!\[[^\]]*]\(([^)\n]+)\)/g].  The script
    only resets its [lastIndex]; it is embedded to state what an image
    reference is. *)
Definition MARKDOWN_IMAGE_REGEX : Regex.matcher jsstring :=
  fun _ s =>
    match s with
    | c :: s0 =>
        if negb (c =? ch "!")%N then None
        else
          match MARKDOWN_LINK_REGEX None s0 with
          | Some (len, target) => Some (S len, target)
          | None => None
          end
    | [] => None
    end.

(** [AUTOLINK_REGEX = /<((?:https?:\/\/)[^>\s]+)>/g]; the capture is
    group 1. *)
Definition AUTOLINK_REGEX : Regex.matcher jsstring :=
  fun _ s =>
    match s with
    | c :: s1 =>
        if negb (c =? ch "<")%N then None
        else
          let scheme :=
            if startsWith s1 (lit "https://") then Some 8
            else if startsWith s1 (lit "http://") then Some 7
            else None in
          match scheme with
          | Some k =>
              let (body, s2) :=
                span (fun c => negb (c =? ch ">")%N && negb (isWhiteSpace c))
                     (skipn k s1) in
              match body, s2 with
              | _ :: _, c2 :: _ =>
                  if (c2 =? ch ">")%N
                  then Some (1 + k + length body + 1, firstn k s1 ++ body)
                  else None
              | _, _ => None
              end
          | None => None
          end
    | [] => None
    end.

(** The tail [\bhref=(Q)(.*?)\1] (flag [i]) of [HTML_ANCHOR_REGEX],
    where [Q] is the class of the double quote (34) and the single
    quote (39), at the start of [s]; [before] is the code unit that
    precedes it.  The result is the length matched and group 2: the
    lazy [.*?] ends at the first code unit equal to the opening quote,
    if no line terminator comes before it. *)
Definition hrefHere (before : char) (s : jsstring) : option (nat * jsstring) :=
  let boundary :=
    xorb (isWordChar before)
         (match s with c :: _ => isWordChar c | [] => false end) in
  if negb boundary then None
  else
    match s with
    | h :: r :: e :: f :: eq :: q :: s1 =>
        if Js.eqb (toLowerCase [h; r; e; f]) (lit "href")
           && (eq =? ch "=")%N
           && ((q =? 34)%N || (q =? 39)%N)
        then
          let (value, s2) :=
            span (fun c => negb (c =? q)%N && negb (isLineTerminator c)) s1 in
          match s2 with
          | c :: _ => if (c =? q)%N then Some (6 + length value + 1, value)
                      else None
          | [] => None
          end
        else None
    | _ => None
    end.

(** [[^>]*] followed by that tail: the greedy class gives back one code
    unit at a time, so the tail is matched at the last place, within the
    run of code units other than [>], where it can match. *)
Fixpoint lastHref (before : char) (s : jsstring) : option (nat * jsstring) :=
  let further :=
    match s with
    | c :: tl => if (c =? ch ">")%N then None else lastHref c tl
    | [] => None
    end in
  match further with
  | Some (len, value) => Some (S len, value)
  | None => hrefHere before s
  end.

(** [HTML_ANCHOR_REGEX = /<a\b[^>]*\bhref=(Q)(.*?)\1/gi], [Q] as
    above; the capture is group 2. *)
Definition HTML_ANCHOR_REGEX : Regex.matcher jsstring :=
  fun _ s =>
    match s with
    | c :: a :: s1 =>
        if (c =? ch "<")%N && (lowerChar a =? ch "a")%N
           && negb (match s1 with c :: _ => isWordChar c | [] => false end)
        then
          match lastHref a s1 with
          | Some (len, value) => Some (2 + len, value)
          | None => None
          end
        else None
    | _ => None
    end.

(** The body shared by the three loops of [collectFileLinks] once the
    target is known: lines 136-142, 146-152 and 156-162. *)
Definition pushLink (content : jsstring) (index : nat) (target : jsstring)
  : list link :=
  match toExternalHttpUrl target with
  | Some external =>
      if isEmpty external || isImageUrl external then []
      else [mkLink external (lineNumberAt content index)]
  | None => []
  end.

(** The three loops of [collectFileLinks] over the stripped content. *)
Definition markdownLoop (content : jsstring) : list link :=
  flat_map (fun m : nat * jsstring =>
              let extracted := extractMarkdownUrl (snd m) in
              if isEmpty extracted then []
              else pushLink content (fst m) extracted)
           (Regex.execAll MARKDOWN_LINK_REGEX content).

Definition autolinkLoop (content : jsstring) : list link :=
  flat_map (fun m : nat * jsstring => pushLink content (fst m) (snd m))
           (Regex.execAll AUTOLINK_REGEX content).

Definition anchorLoop (content : jsstring) : list link :=
  flat_map (fun m : nat * jsstring => pushLink content (fst m) (snd m))
           (Regex.execAll HTML_ANCHOR_REGEX content).

(** [collectFileLinks], given what [fs.readFileSync(filePath)] returned. *)
Definition collectFileLinks (rawContent : jsstring) : list link :=
  let content := stripCodeBlocks rawContent in
  markdownLoop content ++ autolinkLoop content ++ anchorLoop content.

End Extractor.

(** ** The checker *)

Module Checker.

(** A thrown value, as far as the handler of [checkUrl] inspects it. *)
Record thrown := mkThrown {
  isError : bool;        (* [error instanceof Error] *)
  name    : jsstring;    (* [error.name]             *)
  message : jsstring     (* [error.message]          *)
}.

Inductive result (A : Type) : Type :=
| Ok (a : A)
| Throw (e : thrown).
Arguments Ok {A} a.
Arguments Throw {A} e.

Definition bind {A B} (m : result A) (k : A -> result B) : result B :=
  match m with
  | Ok a => k a
  | Throw e => Throw e
  end.

Notation "x <- m ;; k" := (bind m (fun x => k))
  (at level 61, m at next level, right associativity).

Inductive method := HEAD | GET.

(** What happens to one request: the server answers with a status
    before the timer of [TIMEOUT_MS] fires, the transport fails with an
    exception before it fires, or the timer fires first and aborts the
    request. *)
Inductive netOutcome :=
| Responds (status : N)
| Fails (e : thrown)
| Expires.

Definition network := jsstring -> method -> netOutcome.

Record Response := mkResponse { status : N }.

(** The rejection of [fetch] when [controller.abort()] aborts its
    signal: a [DOMException] named [AbortError], an instance of
    [Error]. *)
Definition abortError : thrown :=
  mkThrown true (lit "AbortError") (lit "This operation was aborted").

Definition fetchWithTimeout (net : network) (url : jsstring) (m : method)
  : result Response :=
  match net url m with
  | Responds s => Ok (mkResponse s)
  | Fails e => Throw e
  | Expires => Throw abortError
  end.

Record CheckResult := mkCheck {
  ok : bool;
  reason : option jsstring
}.

Definition pass : CheckResult := mkCheck true None.
Definition fail (r : jsstring) : CheckResult := mkCheck false (Some r).

(** The condition guarding the fallback GET (line 195). *)
Definition needsGet (s : N) : bool := (400 <=? s)%N || (s =? 429)%N.

(** The classification of the final response (lines 199-211). *)
Definition classify (response : Response) : CheckResult :=
  if (status response =? 404)%N then fail (lit "HTTP 404")
  else if has_status ACCEPTED_STATUSES (status response) then pass
  else if (status response <? 200)%N || (400 <=? status response)%N
       then fail (lit "HTTP " ++ ofNumber (status response))
  else pass.

(** The [catch] clause (lines 212-219). *)
Definition handler (error : thrown) : CheckResult :=
  if isError error && Js.eqb (name error) (lit "AbortError")
  then fail (lit "timeout")
  else fail (if isError error then message error else lit "unknown error").

(** [checkUrl], the guard of the fallback being a parameter. *)
Definition checkUrlWith (guard : N -> bool) (net : network) (url : jsstring)
  : CheckResult :=
  match
    response <- fetchWithTimeout net url HEAD ;;
    response <- (if guard (status response)
                 then fetchWithTimeout net url GET
                 else Ok response) ;;
    Ok (classify response)
  with
  | Ok r => r
  | Throw error => handler error
  end.

Definition checkUrl : network -> jsstring -> CheckResult :=
  checkUrlWith needsGet.

(** The guard as the specification's design note reads it, and the
    checker that escalates on it. *)
Definition needsGet_simple (s : N) : bool := (400 <=? s)%N.

Definition checkUrl_simple : network -> jsstring -> CheckResult :=
  checkUrlWith needsGet_simple.

(** The response that is classified: the HEAD response, or the GET
    response when the fallback was issued. *)
Inductive finalResponse (net : network) (url : jsstring) : N -> Prop :=
| final_head s :
    net url HEAD = Responds s -> needsGet s = false ->
    finalResponse net url s
| final_get h s :
    net url HEAD = Responds h -> needsGet h = true ->
    net url GET = Responds s ->
    finalResponse net url s.

(** A request of the check is aborted by the timer: the HEAD request,
    or the fallback GET. *)
Inductive timedOut (net : network) (url : jsstring) : Prop :=
| timeout_head : net url HEAD = Expires -> timedOut net url
| timeout_get h :
    net url HEAD = Responds h -> needsGet h = true ->
    net url GET = Expires -> timedOut net url.

End Checker.

(** ** The concurrency harness *)

Module Pool.

Section RunWithConcurrency.

(** The items, and the state the workers share; [finish item] is what
    the call [worker(item)] has done to that state when its promise
    settles. *)
Variables (T St : Type).
Variable items : list T.
Variable limit : nat.
Variable finish : T -> St -> St.

(** One of the async closures of [Array.from]: it awaits
    [worker(item)], or [worker(item)] has settled and the closure is
    due to go round its loop again, or it has returned. *)
Inductive slot :=
| Awaiting (item : T)
| Ready
| Returned.

Record pool := mkPool {
  index : nat;             (* the shared cursor [index]                  *)
  slots : list slot;       (* the closures created so far ([workers])    *)
  started : list T;        (* the calls [worker(item)] made, in order    *)
  settled : list T;        (* the calls that have settled, in that order *)
  shared : St
}.

(** The head of the [while] loop (lines 230-233), up to the [await]:
    the state a closure is left in, and the pool after it. *)
Definition loopHead (p : pool) : slot * pool :=
  match nth_error items (index p) with
  | Some item =>
      (Awaiting item,
       mkPool (S (index p)) (slots p) (started p ++ [item]) (settled p)
              (shared p))
  | None => (Returned, p)
  end.

Fixpoint setSlot (k : nat) (s : slot) (l : list slot) : list slot :=
  match l, k with
  | [], _ => []
  | _ :: tl, O => s :: tl
  | x :: tl, S k' => x :: setSlot k' s tl
  end.

Definition withSlots (p : pool) (l : list slot) : pool :=
  mkPool (index p) l (started p) (settled p) (shared p).

(** [Array.from] calls one more closure, which runs up to its first
    [await]. *)
Definition spawn (p : pool) : pool :=
  let (s, p') := loopHead p in withSlots p' (slots p' ++ [s]).

Definition init (s0 : St) : pool :=
  Nat.iter (Nat.min limit (length items)) spawn (mkPool 0 [] [] [] s0).

(** What the event loop can do next. *)
Inductive step : pool -> pool -> Prop :=
| step_settle p k item :
    nth_error (slots p) k = Some (Awaiting item) ->
    step p (mkPool (index p) (setSlot k Ready (slots p)) (started p)
                   (settled p ++ [item]) (finish item (shared p)))
| step_resume p k :
    nth_error (slots p) k = Some Ready ->
    step p (let (s, p') := loopHead p in
            withSlots p' (setSlot k s (slots p'))).

(** [Promise.all(workers)] has resolved. *)
Definition resolved (p : pool) : Prop :=
  Forall (fun s => s = Returned) (slots p).

(** A run of [n] steps. *)
Inductive run : nat -> pool -> pool -> Prop :=
| run_nil p : run 0 p p
| run_step n p q r : step p q -> run n q r -> run (S n) p r.

(** Notions used to state the properties of the pool: the items whose
    call is pending, the number of closures due to resume, what holds
    of every state of a run, and the number of steps left. *)
Definition awaited (l : list slot) : list T :=
  flat_map (fun s => match s with Awaiting item => [item] | _ => [] end) l.

Definition readyCount (l : list slot) : nat :=
  length (filter (fun s => match s with Ready => true | _ => false end) l).

Record invariant (s0 : St) (p : pool) : Prop := mkInvariant {
  inv_index : index p <= length items;
  inv_started : started p = firstn (index p) items;
  inv_pending : Permutation (started p) (settled p ++ awaited (slots p));
  inv_returned : In Returned (slots p) -> index p = length items;
  inv_slots : length (slots p) = Nat.min limit (length items);
  inv_shared : shared p = fold_left (fun s item => finish item s) (settled p) s0
}.

Definition stepsLeft (p : pool) : nat :=
  2 * (length items - length (settled p)) + readyCount (slots p).

End RunWithConcurrency.

Arguments Ready {T}.
Arguments Returned {T}.

End Pool.

(** ** [main] *)

Record LinkOccurrence := mkOccurrence {
  file : jsstring;
  line : nat
}.

Record FailedResult := mkFailed {
  url : jsstring;
  reason : jsstring;
  occurrences : list LinkOccurrence
}.

(** [Map<string, V>]: the entries in insertion order. *)
Module JsMap.

Definition t (V : Type) := list (jsstring * V).

Fixpoint get {V} (m : t V) (k : jsstring) : option V :=
  match m with
  | [] => None
  | (k', v) :: tl => if Js.eqb k' k then Some v else get tl k
  end.

(** [set] keeps the place of a key that is present. *)
Fixpoint set {V} (m : t V) (k : jsstring) (v : V) : t V :=
  match m with
  | [] => [(k, v)]
  | (k', v') :: tl =>
      if Js.eqb k' k then (k', v) :: tl else (k', v') :: set tl k v
  end.

Definition keys {V} (m : t V) : list jsstring := map fst m.

End JsMap.

(** [Array.prototype.sort(compare)]: the sort is stable, and for a
    consistent comparator the stable sorted arrangement is unique;
    insertion from the right computes it. *)
Fixpoint insertBy {A} (compare : A -> A -> Z) (x : A) (l : list A) : list A :=
  match l with
  | [] => [x]
  | y :: tl =>
      if (compare x y <=? 0)%Z then x :: l else y :: insertBy compare x tl
  end.

Definition sortBy {A} (compare : A -> A -> Z) (l : list A) : list A :=
  fold_right (insertBy compare) [] l.

(** The markdown files in the order [findMarkdownFiles] lists them,
    each as its path relative to the working directory and its
    content. *)
Definition corpus := list (jsstring * jsstring).

Section Main.

Variable parse : urlParser.
Variable net : Checker.network.
Variable localeCompare : jsstring -> jsstring -> Z.

(** The body of the inner loop (lines 256-258). *)
Definition addOccurrence (relativeFile : jsstring)
    (occurrencesByUrl : JsMap.t (list LinkOccurrence)) (l : link)
  : JsMap.t (list LinkOccurrence) :=
  let occurrences :=
    match JsMap.get occurrencesByUrl (link_url l) with
    | Some o => o
    | None => []
    end in
  JsMap.set occurrencesByUrl (link_url l)
            (occurrences ++ [mkOccurrence relativeFile (link_line l)]).

(** The body of the outer loop (lines 251-259). *)
Definition scanFile (occurrencesByUrl : JsMap.t (list LinkOccurrence))
    (f : jsstring * jsstring) : JsMap.t (list LinkOccurrence) :=
  fold_left (addOccurrence (fst f)) (collectFileLinks parse (snd f))
            occurrencesByUrl.

Definition scanFiles (files : corpus) : JsMap.t (list LinkOccurrence) :=
  fold_left scanFile files [].

Definition extractedLinks (files : corpus) : nat :=
  fold_left (fun n f => n + length (collectFileLinks parse (snd f))) files 0.

(** What the worker passed to [runWithConcurrency] does to [failed]
    once [checkUrl] has settled (lines 266-273). *)
Definition worker (occurrencesByUrl : JsMap.t (list LinkOccurrence))
    (u : jsstring) (failed : list FailedResult) : list FailedResult :=
  let result := Checker.checkUrl net u in
  if Checker.ok result then failed
  else failed ++
       [mkFailed u
          (match Checker.reason result with
           | Some r => r
           | None => lit "invalid status code"
           end)
          (match JsMap.get occurrencesByUrl u with
           | Some o => o
           | None => []
           end)].

Definition uniqueUrls (files : corpus) : list jsstring :=
  JsMap.keys (scanFiles files).

(** The pool [main] starts, and the states it can be in. *)
Definition mainPool (files : corpus) : Pool.pool jsstring (list FailedResult) :=
  Pool.init (uniqueUrls files) MAX_CONCURRENCY [].

(** Line 276. *)
Definition sortFailed (failed : list FailedResult) : list FailedResult :=
  sortBy (fun a b => localeCompare (url a) (url b)) failed.

(** The failures [main] reports, and its exit code, when the pool has
    resolved in state [p]. *)
Definition report (p : Pool.pool jsstring (list FailedResult))
  : list FailedResult :=
  sortFailed (Pool.shared p).

Definition exitCode (p : Pool.pool jsstring (list FailedResult)) : nat :=
  match report p with
  | [] => 0
  | _ :: _ => 1
  end.

End Main.

(** ** Recorded parses

    The results of [new URL(s)] for the URLs used in the examples
    below; on every other input this parser reports a failure, so it
    is used on these inputs only. *)
Module SampleUrls.

Definition https (host path query : string) : URL :=
  mkURL (lit "https:") (lit host) (lit path)
        (lit "https://" ++ lit host ++ lit path ++ lit query).

Definition table : list (jsstring * URL) :=
  [ (lit "https://x.com", https "x.com" "/" "");
    (lit "https://x.com/", https "x.com" "/" "");
    (lit "https://x.com/page", https "x.com" "/page" "");
    (lit "https://x.com/B", https "x.com" "/B" "");
    (lit "https://x.com/a", https "x.com" "/a" "");
    (lit "https://x.com/a.png", https "x.com" "/a.png" "");
    (lit "https://x.com/a.png?x=1", https "x.com" "/a.png" "?x=1");
    (lit "https://x.com/.png", https "x.com" "/.png" "");
    (lit "https://y.com/", https "y.com" "/" "");
    (lit "http://localhost/x",
     mkURL (lit "http:") (lit "localhost") (lit "/x")
           (lit "http://localhost/x"));
    (lit "mailto:a@x.com",
     mkURL (lit "mailto:") [] (lit "a@x.com") (lit "mailto:a@x.com")) ].

Definition parse : urlParser := JsMap.get table.

End SampleUrls.

(** ** Notions used to state the properties *)

(** The occurrences of external links in the order [main] meets them:
    file by file and, within a file, in the order of
    [collectFileLinks]. *)
Definition encounters (parse : urlParser) (files : corpus)
  : list (jsstring * LinkOccurrence) :=
  flat_map (fun f : jsstring * jsstring =>
              map (fun l => (link_url l, mkOccurrence (fst f) (link_line l)))
                  (collectFileLinks parse (snd f)))
           files.

(** The occurrences of one URL among them, in that order. *)
Definition occurrencesOf (u : jsstring) (e : list (jsstring * LinkOccurrence))
  : list LinkOccurrence :=
  map snd (filter (fun x => Js.eqb (fst x) u) e).

Definition nonEmpty {A} (l : list A) : option (list A) :=
  match l with [] => None | _ :: _ => Some l end.

(** The lines of a list of links never decrease. *)
Definition byLine (l : list link) : Prop :=
  StronglySorted (fun a b => link_line a <= link_line b) l.

(** One round of the inner loop of [main], on an occurrence. *)
Definition addEncounter (m : JsMap.t (list LinkOccurrence))
    (e : jsstring * LinkOccurrence) : JsMap.t (list LinkOccurrence) :=
  JsMap.set m (fst e)
    (match JsMap.get m (fst e) with Some o => o | None => [] end ++ [snd e]).

(** The state of the map after the occurrences [e]. *)
Definition recorded (e : list (jsstring * LinkOccurrence))
    (m : JsMap.t (list LinkOccurrence)) : Prop :=
  NoDup (JsMap.keys m) /\
  forall u, JsMap.get m u = nonEmpty (occurrencesOf u e).

(** Occurrences in one file follow their position in it, as far as
    lines tell. *)
Definition positionOrder (occs : list LinkOccurrence) : Prop :=
  forall i j o1 o2,
    i < j -> nth_error occs i = Some o1 -> nth_error occs j = Some o2 ->
    file o1 = file o2 -> line o1 <= line o2.

(** [s] holds no fence. *)
Definition noFence (s : jsstring) : Prop := findFence s = None.

(** A document read as the code-block pattern reads it: a sequence of
    code blocks, each given by the text before its opening fence and
    the text between its fences.  The closing fence of a block is the
    first fence after the opening one, and no fence starts in the text
    before a block. *)
Definition blocks := list (jsstring * jsstring).


Definition render (bs : blocks) : jsstring :=
  flat_map (fun b => fst b ++ fence ++ snd b ++ fence) bs.



(** One of the three link patterns matches at the start of [s]. *)
Definition linkSyntaxAt (s : jsstring) : Prop :=
  exists before len target,
    MARKDOWN_LINK_REGEX before s = Some (S len, target)
    \/ AUTOLINK_REGEX before s = Some (S len, target)
    \/ HTML_ANCHOR_REGEX before s = Some (S len, target).

(** The code units of a file name: no path separator. *)
Definition noSlash (s : jsstring) : Prop :=
  Forall (fun c => c <> ch "/") s.

(** The code units of an extension: no separator and no dot. *)
Definition plain (s : jsstring) : Prop :=
  Forall (fun c => c <> ch "/" /\ c <> ch ".") s.

(** The recognized image extensions, as the specification lists
    them. *)
Definition imageExtensions : list jsstring :=
  [ lit "png"; lit "jpg"; lit "jpeg"; lit "gif"; lit "webp";
    lit "svg"; lit "avif"; lit "bmp"; lit "ico" ].

(** The check of [u] fails, and the report [main] then pushes. *)
Definition failing (net : Checker.network) (u : jsstring) : bool :=
  negb (Checker.ok (Checker.checkUrl net u)).

Definition failureOf (net : Checker.network)
    (occurrencesByUrl : JsMap.t (list LinkOccurrence)) (u : jsstring)
  : FailedResult :=
  mkFailed u
    (match Checker.reason (Checker.checkUrl net u) with
     | Some r => r
     | None => lit "invalid status code"
     end)
    (match JsMap.get occurrencesByUrl u with
     | Some o => o
     | None => []
     end).

(** A comparator orders the strings consistently. *)
Definition consistent (compare : jsstring -> jsstring -> Z) : Prop :=
  (forall a b, (compare a b <= 0 \/ compare b a <= 0)%Z) /\
  (forall a b c, (compare a b <= 0 -> compare b c <= 0 -> compare a c <= 0)%Z).

(** A list of reports is in ascending order of URL. *)
Definition ascending (compare : jsstring -> jsstring -> Z)
    (l : list FailedResult) : Prop :=
  StronglySorted (fun a b => (compare (url a) (url b) <= 0)%Z) l.

(** What the script relies on from the serializer of the [URL] class:
    the serialization of a parsed URL is a non-empty string without
    white space around it, and parsing it gives the same URL. *)
Definition serializes (parse : urlParser) : Prop :=
  forall s p,
    parse s = Some p ->
    href p <> [] /\ trim (href p) = href p /\ parse (href p) = Some p.

(** ** The directory walk

    What [fs.readdirSync] and [fs.statSync] show of a directory tree:
    an entry is a directory, with its name and its entries in the order
    [readdirSync] lists them, or something else, with its name.  The
    tree is finite: no link leads back into a directory that contains
    it. *)
#[warnings="-register-all"]
Inductive entry :=
| File (name : jsstring)
| Directory (name : jsstring) (entries : list entry).

(** [String.prototype.endsWith]. *)
Definition endsWith (s suffix : jsstring) : bool :=
  startsWith (rev s) (rev suffix).

(** The test of line 63. *)
Definition isMarkdownName (file : jsstring) : bool :=
  endsWith file (lit ".md") || endsWith file (lit ".mdx").

Section Walk.

(** [path.join], on the path of a directory and the name of one of its
    entries. *)
Variable join : jsstring -> jsstring -> jsstring.

(** One round of the loop of [findMarkdownFiles] (lines 55-65), for the
    entry [e] of the directory [dir]; the recursive call of line 59 is
    the loop over the entries of the subdirectory. *)
Fixpoint visit (dir : jsstring) (e : entry) (fileList : list jsstring)
  : list jsstring :=
  match e with
  | Directory file entries =>
      fold_left (fun fileList e' => visit (join dir file) e' fileList)
                entries fileList
  | File file =>
      if isMarkdownName file then fileList ++ [join dir file] else fileList
  end.

(** [findMarkdownFiles(dir, fileList)], [files] being what
    [readdirSync(dir)] returns. *)
Definition findMarkdownFiles (dir : jsstring) (files : list entry)
    (fileList : list jsstring) : list jsstring :=
  fold_left (fun fileList e => visit dir e fileList) files fileList.

(** The path [p] is that of a file with a markdown name somewhere
    under the directory [dir], whose entries are [files]. *)
Inductive markdownUnder : jsstring -> list entry -> jsstring -> Prop :=
| under_file dir files file :
    In (File file) files -> isMarkdownName file = true ->
    markdownUnder dir files (join dir file)
| under_directory dir files file entries p :
    In (Directory file entries) files ->
    markdownUnder (join dir file) entries p ->
    markdownUnder dir files p.

End Walk.

(** [s] is empty or starts with a code unit that satisfies [p]. *)
Definition stopsAt (p : char -> bool) (s : jsstring) : Prop :=
  match s with
  | [] => True
  | c :: _ => p c = true
  end.

(** White space only, and no white space at all. *)
Definition blankString (s : jsstring) : Prop :=
  Forall (fun c => isWhiteSpace c = true) s.

Definition solid (s : jsstring) : Prop :=
  Forall (fun c => isWhiteSpace c = false) s.

(** The code units that end the part of a URL [isImageUrl] looks at. *)
Definition isQueryOrHash (c : char) : bool :=
  ((c =? ch "?") || (c =? ch "#"))%N.

(** A request of the check fails with the exception [e] before the
    timer fires: the HEAD request, or the fallback GET. *)
Inductive rejectedWith (net : Checker.network) (u : jsstring)
  : Checker.thrown -> Prop :=
| rejected_head e :
    net u Checker.HEAD = Checker.Fails e -> rejectedWith net u e
| rejected_get h e :
    net u Checker.HEAD = Checker.Responds h -> Checker.needsGet h = true ->
    net u Checker.GET = Checker.Fails e -> rejectedWith net u e.

(** The strings of a list in the order of their first appearance. *)
Definition noteUrl (seen : list jsstring) (u : jsstring) : list jsstring :=
  if existsb (Js.eqb u) seen then seen else seen ++ [u].

Definition firstSeen (l : list jsstring) : list jsstring :=
  fold_left noteUrl l [].

(** The number of occurrences a map holds. *)
Definition held (m : JsMap.t (list LinkOccurrence)) : nat :=
  list_sum (map (fun kv => length (snd kv)) m).

(** One of the three patterns matches at the start of [s], [before]
    being the code unit that precedes it, and the target it captures
    gives the external URL [u]: the link to [u] is written there. *)
Definition writtenAt (parse : urlParser) (before : option char)
    (s : jsstring) (u : jsstring) : Prop :=
  exists len target,
    (MARKDOWN_LINK_REGEX before s = Some (S len, target) /\
     toExternalHttpUrl parse (extractMarkdownUrl target) = Some u)
    \/ (AUTOLINK_REGEX before s = Some (S len, target) /\
        toExternalHttpUrl parse target = Some u)
    \/ (HTML_ANCHOR_REGEX before s = Some (S len, target) /\
        toExternalHttpUrl parse target = Some u).

(** A text without opening square bracket and without opening angle
    bracket. *)
Definition noOpening (s : jsstring) : Prop :=
  Forall (fun c => c <> ch "[" /\ c <> ch "<") s.

(** The markdown image reference with the alternative text [alt] and
    the destination [dest]. *)
Definition imageReference (alt dest : jsstring) : jsstring :=
  lit "![" ++ alt ++ lit "](" ++ dest ++ lit ")".

(** Two strings that a comparator does not tell apart. *)
Definition tied (compare : jsstring -> jsstring -> Z) (a b : jsstring)
  : bool :=
  (compare a b <=? 0)%Z && (compare b a <=? 0)%Z.

(** ** Recorded comparisons

    A comparator that agrees with the results of [localeCompare]
    recorded for the URLs of the examples below, which differ in
    letters only: letters are compared without regard to case first,
    and of two strings that differ in case only the one with the lower
    case letter at the first difference comes first. *)
Module SampleCollation.

Definition localeCompare (a b : jsstring) : Z :=
  match compareCodeUnits (toLowerCase a) (toLowerCase b) with
  | 0%Z => compareCodeUnits b a
  | z => z
  end.

End SampleCollation.

(** ** Sample inputs *)

Module Samples.

Import Checker.

(** A server that refuses HEAD with 405 and answers the GET with 500. *)
Definition net_405_500 : network :=
  fun _ m => match m with HEAD => Responds 405 | GET => Responds 500 end.

(** A server that refuses HEAD with 403 and never answers the GET. *)
Definition net_403_hang : network :=
  fun _ m => match m with HEAD => Responds 403 | GET => Expires end.

(** An autolink on line 1 and a markdown link to the same URL on
    line 2. *)
Definition autolink_then_link : jsstring :=
  lit "<https://x.com/>" ++ [LF] ++ lit "[a](https://x.com/)".

(** Two files that refer to the same page. *)
Definition two_files : corpus :=
  [ (lit "a.md", lit "[a](https://x.com/page)");
    (lit "b.md", lit "see" ++ [LF] ++ lit "<https://x.com/page>") ].

(** A document with a link inside a code block and a link after it. *)
Definition fenced : blocks :=
  [ (lit "intro" ++ [LF],
     lit "js" ++ [LF] ++ lit "[x](https://x.com/)" ++ [LF]) ].

Definition after_fence : jsstring :=
  [LF] ++ lit "[y](https://x.com/page)".

(** Three targets that are not external links. *)
Definition not_external : jsstring :=
  lit "[a](/docs/page) [b](mailto:a@x.com) <a href='http://localhost/x'>".

(** An image reference whose destination is written between angle
    brackets, and an image used as the text of a link. *)
Definition image_in_brackets : jsstring :=
  lit "![alt](<https://x.com/page>)".

Definition linked_image : jsstring :=
  lit "[![alt](https://x.com/page)](https://y.com/)".

(** A link to a file whose name is an extension. *)
Definition dot_file : jsstring := lit "[a](https://x.com/.png)".

(** One image URL under the three syntaxes. *)
Definition image_three_ways : jsstring :=
  lit "[a](https://x.com/a.png?x=1) <https://x.com/a.png?x=1> "
  ++ lit "<a href='https://x.com/a.png?x=1'>".

(** A corpus with links to two pages, and a network on which every
    request is answered with 404. *)
Definition two_pages : corpus :=
  [ (lit "a.md", lit "[a](https://x.com/a) and [B](https://x.com/B)") ].

Definition net_404 : network := fun _ _ => Responds 404.

(** The same page written with and without the final slash. *)
Definition two_spellings : corpus :=
  [ (lit "a.md", lit "[a](https://x.com)");
    (lit "b.md", lit "<https://x.com/>") ].

(** A markdown target with white space around it and a title. *)
Definition target_with_title : jsstring :=
  lit "  https://x.com/page 'The page' ".

(** A markdown target between angle brackets. *)
Definition target_in_brackets : jsstring :=
  lit " <https://x.com/my page> 'The page'".

(** A document whose code block is never closed. *)
Definition unclosed_before : jsstring := lit "intro" ++ [LF].
Definition unclosed_after : jsstring :=
  lit "js" ++ [LF] ++ lit "[x](https://x.com/)".

(** A network on which the connection is refused. *)
Definition net_refused : network :=
  fun _ _ => Fails (mkThrown true (lit "TypeError") (lit "fetch failed")).

(** A server that refuses HEAD with 404 and answers the GET with 200. *)
Definition net_404_200 : network :=
  fun _ m => match m with HEAD => Responds 404 | GET => Responds 200 end.


(** An image reference and the text around it. *)
Definition image_alt : jsstring := lit "a diagram".
Definition image_dest : jsstring := lit "https://x.com/page 'Diagram'".
Definition image_before : jsstring := lit "See " .
Definition image_after : jsstring := lit " (https://x.com/a)".

End Samples.

(** * Part II: properties *)

#[local] Arguments N.eqb : simpl never.
#[local] Arguments N.leb : simpl never.
#[local] Arguments N.ltb : simpl never.

(** ** Strings *)

Module JsFacts.

Lemma eqb_eq (a b : jsstring) : Js.eqb a b = true <-> a = b.
Proof.
  revert b; induction a as [|x a IH]; intros [|y b]; simpl;
    try (split; discriminate); try tauto.
  rewrite andb_true_iff, N.eqb_eq, IH.
  split; [intros [-> ->]; reflexivity | intros [= -> ->]; auto].
Qed.

Lemma eqb_refl (a : jsstring) : Js.eqb a a = true.
Proof. apply eqb_eq; reflexivity. Qed.

Lemma eqb_neq (a b : jsstring) : Js.eqb a b = false <-> a <> b.
Proof.
  rewrite <- eqb_eq. destruct (Js.eqb a b); split; congruence.
Qed.

Lemma eqb_sym (a b : jsstring) : Js.eqb a b = Js.eqb b a.
Proof.
  destruct (Js.eqb a b) eqn:E.
  - apply eqb_eq in E; subst; symmetry; apply eqb_refl.
  - symmetry; apply eqb_neq; apply eqb_neq in E; congruence.
Qed.

End JsFacts.

(** ** The checker *)

Module CheckerFacts.

Import Checker.

(** The check of a URL whose requests are answered classifies the final
    response. *)
Lemma checkUrl_final net u s :
  finalResponse net u s -> checkUrl net u = classify (mkResponse s).
Proof.
  unfold checkUrl, checkUrlWith, fetchWithTimeout.
  intros [s' Hhead Hguard | h s' Hhead Hguard Hget].
  - rewrite Hhead; simpl; rewrite Hguard; reflexivity.
  - rewrite Hhead; simpl; rewrite Hguard, Hget; reflexivity.
Qed.

(** C1.  Whatever the network answers, [checkUrl] classifies the final
    response (the HEAD response, or the GET response when the fallback
    was issued) by its status: 404 fails with reason "HTTP 404"; 403
    and 429 pass; any other status below 200 or from 400 on fails with
    reason "HTTP " followed by the status in decimal; every status from
    200 to 399 passes. *)
Theorem checkUrl_classifies_final_response net u s :
  finalResponse net u s ->
  (s = 404%N -> checkUrl net u = fail (lit "HTTP 404")) /\
  (s = 403%N \/ s = 429%N -> checkUrl net u = pass) /\
  (s <> 404%N -> s <> 403%N -> s <> 429%N -> (s < 200 \/ 400 <= s)%N ->
   checkUrl net u = fail (lit "HTTP " ++ ofNumber s)) /\
  ((200 <= s < 400)%N -> checkUrl net u = pass).
Proof.
  intros Hfinal. rewrite (checkUrl_final Hfinal).
  unfold classify, has_status, ACCEPTED_STATUSES; simpl.
  repeat split.
  - intros ->; reflexivity.
  - intros [-> | ->]; reflexivity.
  - intros H404 H403 H429 Hrange.
    apply N.eqb_neq in H404, H403, H429. rewrite H404, H403, H429; simpl.
    destruct Hrange as [Hlow | Hhigh].
    + apply N.ltb_lt in Hlow; rewrite Hlow; reflexivity.
    + apply N.leb_le in Hhigh; rewrite Hhigh, orb_true_r; reflexivity.
  - intros [Hlow Hhigh].
    assert (E404 : (s =? 404)%N = false) by (apply N.eqb_neq; lia).
    assert (E403 : (s =? 403)%N = false) by (apply N.eqb_neq; lia).
    assert (E429 : (s =? 429)%N = false) by (apply N.eqb_neq; lia).
    assert (Elt : (s <? 200)%N = false) by (apply N.ltb_ge; lia).
    assert (Ege : (400 <=? s)%N = false) by (apply N.leb_gt; lia).
    rewrite E404, E403, E429, Elt, Ege; reflexivity.
Qed.

Lemma checkUrl_classifies_final_response_witness :
  finalResponse Samples.net_405_500 (lit "https://x.com/") 500 /\
  checkUrl Samples.net_405_500 (lit "https://x.com/") = fail (lit "HTTP 500").
Proof.
  assert (H : finalResponse Samples.net_405_500 (lit "https://x.com/") 500)
    by (apply final_get with (h := 405%N); reflexivity).
  split; [exact H |].
  apply (checkUrl_classifies_final_response H); [discriminate .. | right; lia].
Defined.

(** C7.  When the timer aborts a request of the check (the HEAD
    request, or the fallback GET), [checkUrl] fails with the reason
    "timeout" and no other message. *)
Theorem checkUrl_timeout net u :
  timedOut net u -> checkUrl net u = fail (lit "timeout").
Proof.
  unfold checkUrl, checkUrlWith, fetchWithTimeout.
  intros [Hhead | h Hhead Hguard Hget].
  - rewrite Hhead; reflexivity.
  - rewrite Hhead; simpl; rewrite Hguard, Hget; reflexivity.
Qed.

Lemma checkUrl_timeout_witness :
  timedOut Samples.net_403_hang (lit "https://x.com/") /\
  checkUrl Samples.net_403_hang (lit "https://x.com/") = fail (lit "timeout").
Proof.
  assert (H : timedOut Samples.net_403_hang (lit "https://x.com/"))
    by (apply timeout_get with (h := 403%N); reflexivity).
  split; [exact H | apply (checkUrl_timeout H)].
Defined.

(** C9.  The guard of the fallback, status at least 400 or equal to
    429, holds of exactly the statuses that are at least 400, and the
    checker that escalates on the simpler guard returns what
    [checkUrl] returns, whatever the network does. *)
Theorem needsGet_is_at_least_400 :
  (forall s, needsGet s = needsGet_simple s) /\
  (forall net u, checkUrl net u = checkUrl_simple net u).
Proof.
  assert (H : forall s, needsGet s = needsGet_simple s).
  { intros s; unfold needsGet, needsGet_simple.
    destruct (N.eqb_spec s 429) as [-> | _]; [reflexivity |].
    apply orb_false_r. }
  split; [exact H |].
  intros net u; unfold checkUrl, checkUrl_simple, checkUrlWith.
  destruct (fetchWithTimeout net u HEAD) as [r | e]; simpl; [| reflexivity].
  rewrite H; reflexivity.
Qed.

End CheckerFacts.

(** ** The map of occurrences *)

Module JsMapFacts.

Section Facts.

Variable V : Type.
Implicit Types (m : JsMap.t V) (k : jsstring) (v : V).

Lemma get_set_same m k v : JsMap.get (JsMap.set m k v) k = Some v.
Proof.
  induction m as [|[k' v'] m IH]; simpl.
  - rewrite JsFacts.eqb_refl; reflexivity.
  - destruct (Js.eqb k' k) eqn:E; simpl; rewrite E; auto.
Qed.

Lemma get_set_other m k k' v :
  k <> k' -> JsMap.get (JsMap.set m k v) k' = JsMap.get m k'.
Proof.
  intros Hne; induction m as [|[k0 v0] m IH]; simpl.
  - apply JsFacts.eqb_neq in Hne; rewrite Hne; reflexivity.
  - destruct (Js.eqb k0 k) eqn:E; simpl.
    + apply JsFacts.eqb_eq in E; subst k0.
      apply JsFacts.eqb_neq in Hne; rewrite Hne; reflexivity.
    + rewrite IH; reflexivity.
Qed.

Lemma get_None_keys m k : JsMap.get m k = None <-> ~ In k (JsMap.keys m).
Proof.
  induction m as [|[k' v'] m IH]; simpl; [tauto |].
  destruct (Js.eqb k' k) eqn:E.
  - apply JsFacts.eqb_eq in E; subst; split; [discriminate | tauto].
  - apply JsFacts.eqb_neq in E; rewrite IH; tauto.
Qed.

Lemma keys_set m k v :
  JsMap.keys (JsMap.set m k v) =
  match JsMap.get m k with
  | Some _ => JsMap.keys m
  | None => JsMap.keys m ++ [k]
  end.
Proof.
  induction m as [|[k' v'] m IH]; simpl; [reflexivity |].
  destruct (Js.eqb k' k) eqn:E; [reflexivity |].
  change (k' :: JsMap.keys (JsMap.set m k v) =
          match JsMap.get m k with
          | Some _ => k' :: JsMap.keys m
          | None => (k' :: JsMap.keys m) ++ [k]
          end).
  rewrite IH; destruct (JsMap.get m k); reflexivity.
Qed.

End Facts.

End JsMapFacts.

(** ** The scan of the corpus *)

Module ScanFacts.

Lemma fold_left_flat_map {A B C} (f : A -> B -> A) (g : C -> list B) l a :
  fold_left f (flat_map g l) a = fold_left (fun a x => fold_left f (g x) a) l a.
Proof.
  revert a; induction l as [|x l IH]; intros a; simpl; [reflexivity |].
  rewrite fold_left_app; apply IH.
Qed.

Lemma fold_left_map {A B C} (f : A -> B -> A) (h : C -> B) l a :
  fold_left f (map h l) a = fold_left (fun a x => f a (h x)) l a.
Proof.
  revert a; induction l as [|x l IH]; intros a; simpl; auto.
Qed.

Lemma scanFiles_encounters parse files :
  scanFiles parse files = fold_left addEncounter (encounters parse files) [].
Proof.
  unfold scanFiles, encounters. rewrite fold_left_flat_map.
  generalize (@nil (jsstring * list LinkOccurrence)).
  induction files as [|f files IH]; intros m; simpl; [reflexivity |].
  rewrite <- IH; f_equal.
  unfold scanFile; rewrite fold_left_map; reflexivity.
Qed.

Lemma occurrencesOf_snoc u e x :
  occurrencesOf u (e ++ [x]) =
  occurrencesOf u e ++ (if Js.eqb (fst x) u then [snd x] else []).
Proof.
  unfold occurrencesOf. rewrite filter_app, map_app; simpl.
  destruct (Js.eqb (fst x) u); reflexivity.
Qed.

Lemma recorded_addEncounter e m x :
  recorded e m -> recorded (e ++ [x]) (addEncounter m x).
Proof.
  intros [Hnd Hget]; unfold addEncounter; split.
  - rewrite JsMapFacts.keys_set.
    destruct (JsMap.get m (fst x)) eqn:E; [exact Hnd |].
    apply JsMapFacts.get_None_keys in E.
    apply NoDup_app; repeat split; auto.
    + constructor; [simpl; tauto | constructor].
    + intros k Hin [<- | []]; [tauto].
  - intros u. rewrite occurrencesOf_snoc.
    destruct (Js.eqb (fst x) u) eqn:E.
    + apply JsFacts.eqb_eq in E; subst u.
      rewrite JsMapFacts.get_set_same, Hget.
      destruct (occurrencesOf (fst x) e); reflexivity.
    + apply JsFacts.eqb_neq in E.
      rewrite JsMapFacts.get_set_other by exact E.
      rewrite app_nil_r; apply Hget.
Qed.

Lemma recorded_fold e : forall e0 m,
  recorded e0 m -> recorded (e0 ++ e) (fold_left addEncounter e m).
Proof.
  induction e as [|x e IH]; intros e0 m H; simpl.
  - rewrite app_nil_r; exact H.
  - replace (e0 ++ x :: e) with ((e0 ++ [x]) ++ e)
      by (rewrite <- app_assoc; reflexivity).
    apply IH, recorded_addEncounter, H.
Qed.

Lemma recorded_scanFiles parse files :
  recorded (encounters parse files) (scanFiles parse files).
Proof.
  rewrite scanFiles_encounters.
  apply (recorded_fold (encounters parse files) (e0 := []) (m := [])).
  split; [constructor | reflexivity].
Qed.

End ScanFacts.

(** ** Lines and matches *)

Module LineFacts.

Lemma length_splitOn sep s :
  length (splitOn sep s) = S (length (filter (N.eqb sep) s)).
Proof.
  induction s as [|c s IH]; simpl; [reflexivity |].
  rewrite (N.eqb_sym sep c).
  destruct (N.eqb c sep); simpl; [rewrite IH; reflexivity |].
  destruct (splitOn sep s); simpl in *; [discriminate | exact IH].
Qed.

Lemma lineNumberAt_count content i :
  lineNumberAt content i = S (countNewlines (firstn i content)).
Proof.
  unfold lineNumberAt, slice, countNewlines.
  rewrite length_splitOn, Nat.sub_0_r; reflexivity.
Qed.

Lemma countNewlines_app a b :
  countNewlines (a ++ b) = countNewlines a + countNewlines b.
Proof. unfold countNewlines; rewrite filter_app, length_app; reflexivity. Qed.

Lemma countNewlines_repeat n : countNewlines (repeat LF n) = n.
Proof.
  unfold countNewlines; induction n as [|n IH]; simpl; [reflexivity |].
  change (N.eqb LF LF) with true; simpl; rewrite IH; reflexivity.
Qed.

Lemma countNewlines_firstn_le s : forall i j,
  i <= j -> countNewlines (firstn i s) <= countNewlines (firstn j s).
Proof.
  unfold countNewlines.
  induction s as [|c s IH]; intros [|i] [|j] H; simpl; try lia.
  specialize (IH i j ltac:(lia)).
  destruct (N.eqb LF c); simpl; lia.
Qed.

Lemma lineNumberAt_mono content i j :
  i <= j -> lineNumberAt content i <= lineNumberAt content j.
Proof.
  intros H; rewrite !lineNumberAt_count.
  apply le_n_S, countNewlines_firstn_le, H.
Qed.

Section Exec.

Variable G : Type.
Variable m : Regex.matcher G.

(** Every result of the [exec] loop is a place of the input where the
    pattern matches, the matcher having been given the code unit
    before that place. *)
Lemma execFrom_In s : forall prev skip idx i g,
  In (i, g) (Regex.execFrom m prev skip idx s) ->
  exists k len,
    i = idx + k /\ k < length s /\
    m (match k with O => prev | S k' => nth_error s k' end) (skipn k s)
    = Some (S len, g).
Proof.
  induction s as [|c s IH]; intros prev skip idx i g Hin; simpl in Hin;
    [contradiction |].
  assert (Hrec : forall skip',
             In (i, g) (Regex.execFrom m (Some c) skip' (S idx) s) ->
             exists k len,
               i = idx + k /\ k < length (c :: s) /\
               m (match k with O => prev | S k' => nth_error (c :: s) k' end)
                 (skipn k (c :: s)) = Some (S len, g)).
  { intros skip' H.
    destruct (IH _ _ _ _ _ H) as (k & len & -> & Hk & Hm).
    exists (S k), len; simpl; repeat split; [lia | lia |].
    destruct k; exact Hm. }
  destruct skip as [|skip]; [| eauto].
  destruct (m prev (c :: s)) as [[[|len] g']|] eqn:E; eauto.
  destruct Hin as [[= <- <-] | Hin]; eauto.
  exists 0, len; simpl; repeat split; [lia | lia | exact E].
Qed.

Lemma execFrom_sorted s : forall prev skip idx,
  Forall (fun x => idx <= fst x) (Regex.execFrom m prev skip idx s) /\
  StronglySorted (fun a b => fst a <= fst b)
                 (Regex.execFrom m prev skip idx s).
Proof.
  induction s as [|c s IH]; intros prev skip idx; simpl;
    [split; constructor |].
  assert (Hrec : forall prev' skip',
             Forall (fun x => idx <= fst x)
                    (Regex.execFrom m prev' skip' (S idx) s)).
  { intros prev' skip'; destruct (IH prev' skip' (S idx)) as [H _].
    eapply Forall_impl; [| exact H]; simpl; intros; lia. }
  destruct skip as [|skip]; [| split; [apply Hrec | apply IH]].
  destruct (m prev (c :: s)) as [[[|len] g']|];
    try (split; [apply Hrec | apply IH]).
  split.
  - constructor; [simpl; lia | apply Hrec].
  - constructor; [apply IH | apply Hrec].
Qed.

End Exec.

Lemma StronglySorted_app {A} (R : A -> A -> Prop) l1 l2 :
  StronglySorted R l1 -> StronglySorted R l2 ->
  (forall a b, In a l1 -> In b l2 -> R a b) ->
  StronglySorted R (l1 ++ l2).
Proof.
  induction 1 as [|a l1 H IH Hall]; intros H2 Hcross; simpl; [exact H2 |].
  constructor.
  - apply IH; [exact H2 | intros; apply Hcross; simpl; auto].
  - apply Forall_app; split; [exact Hall |].
    apply Forall_forall; intros b Hb; apply Hcross; simpl; auto.
Qed.

Lemma pushLink_line parse content i target l :
  In l (pushLink parse content i target) ->
  link_line l = lineNumberAt content i.
Proof.
  unfold pushLink.
  destruct (toExternalHttpUrl parse target) as [external|]; [| contradiction].
  destruct (isEmpty external || isImageUrl parse external); [contradiction |].
  intros [<- | []]; reflexivity.
Qed.

(** A loop that pushes, for each match in turn, links on the line of
    the match, pushes them by line. *)
Lemma loop_byLine content (body : nat * jsstring -> list link) ms :
  (forall x l, In l (body x) -> link_line l = lineNumberAt content (fst x)) ->
  StronglySorted (fun a b : nat * jsstring => fst a <= fst b) ms ->
  byLine (flat_map body ms).
Proof.
  intros Hbody; induction 1 as [|x ms Hs IH Hall]; simpl; [constructor |].
  apply StronglySorted_app; [| exact IH |].
  - assert (H : forall l, In l (body x) ->
                link_line l = lineNumberAt content (fst x)) by auto.
    induction (body x) as [|l ls IHl]; constructor.
    + apply IHl; intros; apply H; simpl; auto.
    + apply Forall_forall; intros l' Hl'.
      rewrite (H l), (H l') by (simpl; auto); lia.
  - intros a b Ha Hb. apply in_flat_map in Hb as (y & Hy & Hb).
    rewrite (Hbody _ _ Ha), (Hbody _ _ Hb).
    apply lineNumberAt_mono.
    rewrite Forall_forall in Hall; apply Hall, Hy.
Qed.

Lemma markdownLoop_byLine parse content : byLine (markdownLoop parse content).
Proof.
  apply loop_byLine with (content := content).
  - intros x l; simpl.
    destruct (isEmpty (extractMarkdownUrl (snd x))); [contradiction |].
    apply pushLink_line.
  - apply execFrom_sorted.
Qed.

Lemma autolinkLoop_byLine parse content : byLine (autolinkLoop parse content).
Proof.
  apply loop_byLine with (content := content).
  - intros x l; apply pushLink_line.
  - apply execFrom_sorted.
Qed.

Lemma anchorLoop_byLine parse content : byLine (anchorLoop parse content).
Proof.
  apply loop_byLine with (content := content).
  - intros x l; apply pushLink_line.
  - apply execFrom_sorted.
Qed.

End LineFacts.

(** ** One record per URL *)

Module RecordFacts.

(** C3, as the program has it.  After the scan the map holds one
    record per URL met; the record of a URL lists all its occurrences,
    in the order in which [main] met them, so a URL met twice has a
    record of exactly these two occurrences in that order.  That order
    is the order of the files and, within a file, the order of
    [collectFileLinks]: the markdown links, then the autolinks, then
    the HTML anchors, each group by position. *)
Theorem one_record_per_url parse files :
  NoDup (uniqueUrls parse files) /\
  (forall u, JsMap.get (scanFiles parse files) u =
             nonEmpty (occurrencesOf u (encounters parse files))) /\
  (forall u o1 o2,
      occurrencesOf u (encounters parse files) = [o1; o2] ->
      JsMap.get (scanFiles parse files) u = Some [o1; o2]) /\
  (forall raw,
      collectFileLinks parse raw =
        markdownLoop parse (stripCodeBlocks raw)
        ++ autolinkLoop parse (stripCodeBlocks raw)
        ++ anchorLoop parse (stripCodeBlocks raw) /\
      byLine (markdownLoop parse (stripCodeBlocks raw)) /\
      byLine (autolinkLoop parse (stripCodeBlocks raw)) /\
      byLine (anchorLoop parse (stripCodeBlocks raw))).
Proof.
  destruct (ScanFacts.recorded_scanFiles parse files) as [Hnd Hget].
  split; [exact Hnd |]. split; [exact Hget |]. split.
  - intros u o1 o2 H; rewrite Hget, H; reflexivity.
  - intros raw; split; [reflexivity |].
    split; [apply LineFacts.markdownLoop_byLine |].
    split; [apply LineFacts.autolinkLoop_byLine
           | apply LineFacts.anchorLoop_byLine].
Qed.

Lemma one_record_per_url_witness :
  JsMap.get (scanFiles SampleUrls.parse Samples.two_files)
            (lit "https://x.com/page")
  = Some [mkOccurrence (lit "a.md") 1; mkOccurrence (lit "b.md") 2].
Proof.
  apply (proj1 (proj2 (proj2
           (one_record_per_url SampleUrls.parse Samples.two_files)))).
  vm_compute; reflexivity.
Defined.

(** The occurrences of a URL need not follow the positions in the
    file: the markdown link on line 2 is recorded before the autolink
    on line 1. *)
Lemma occurrences_not_in_position_order :
  JsMap.get (scanFiles SampleUrls.parse
               [(lit "a.md", Samples.autolink_then_link)])
            (lit "https://x.com/")
  = Some [mkOccurrence (lit "a.md") 2; mkOccurrence (lit "a.md") 1]
  /\ ~ positionOrder [mkOccurrence (lit "a.md") 2; mkOccurrence (lit "a.md") 1].
Proof.
  split; [vm_compute; reflexivity |].
  intros H.
  specialize (H 0 1 _ _ (Nat.lt_0_1) eq_refl eq_refl eq_refl).
  simpl in H; lia.
Qed.

End RecordFacts.

(** ** Code blocks *)

Module StripFacts.

Section Replace.

Variable m : jsstring -> option nat.

Lemma replaceFrom_skip s : forall k,
  Regex.replaceFrom m lineBreaks k s = Regex.replaceFrom m lineBreaks 0 (skipn k s).
Proof.
  induction s as [|c s IH]; intros [|k]; try reflexivity.
  simpl Regex.replaceFrom at 1; simpl skipn; apply IH.
Qed.


(** A code unit of the result other than a line break is a code unit
    of the input at a place with as many line breaks before it, and
    what follows it in the result is the result for what follows it in
    the input. *)
Lemma replaceFrom_origin s : forall k i c0,
  nth_error (Regex.replaceFrom m lineBreaks k s) i = Some c0 -> c0 <> LF ->
  exists j,
    nth_error s j = Some c0 /\
    countNewlines (firstn i (Regex.replaceFrom m lineBreaks k s))
      + countNewlines (firstn k s) = countNewlines (firstn j s) /\
    Regex.replaceFrom m lineBreaks 0 (skipn j s)
      = skipn i (Regex.replaceFrom m lineBreaks k s).
Proof.
  induction s as [|c s IH]; intros k i c0 Hnth Hc0.
  { destruct k, i; discriminate. }
  assert (Hcons : forall l, countNewlines (c :: l)
                            = countNewlines [c] + countNewlines l).
  { intros l; change (c :: l) with ([c] ++ l);
      apply LineFacts.countNewlines_app. }
  destruct k as [|k].
  - simpl Regex.replaceFrom in *.
    destruct (m (c :: s)) as [[|len]|] eqn:E.
    1, 3: destruct i as [|i]; simpl in Hnth;
      [ injection Hnth as <-; exists 0; simpl; rewrite E; auto
      | destruct (IH 0 i c0 Hnth Hc0) as (j & Hj & Hcount & Hrest);
        exists (S j); simpl firstn in *; simpl skipn;
        rewrite (Hcons (firstn i _)), (Hcons (firstn j _));
        split; [exact Hj | split; [simpl in Hcount |- *; lia | exact Hrest]] ].
    set (n := countNewlines (c :: firstn len s)) in *.
    change (lineBreaks (c :: firstn len s)) with (repeat LF n) in *.
    assert (Hn : n = countNewlines [c] + countNewlines (firstn len s))
      by apply Hcons.
    destruct (Nat.lt_ge_cases i n) as [Hlt | Hge].
    + rewrite nth_error_app1 in Hnth by (rewrite repeat_length; exact Hlt).
      apply nth_error_In, repeat_spec in Hnth; congruence.
    + rewrite nth_error_app2 in Hnth by (rewrite repeat_length; exact Hge).
      rewrite repeat_length in Hnth.
      destruct (IH len (i - n) c0 Hnth Hc0) as (j & Hj & Hcount & Hrest).
      exists (S j); split; [exact Hj |]. split.
      * rewrite firstn_app, repeat_length, LineFacts.countNewlines_app.
        rewrite firstn_all2 by (rewrite repeat_length; exact Hge).
        rewrite LineFacts.countNewlines_repeat.
        simpl firstn; rewrite (Hcons (firstn j s)).
        change (countNewlines []) with 0; lia.
      * simpl skipn at 1; rewrite Hrest.
        rewrite skipn_app, repeat_length.
        rewrite (@skipn_all2 _ i (repeat LF n))
          by (rewrite repeat_length; exact Hge).
        reflexivity.
  - simpl Regex.replaceFrom in *.
    destruct (IH k i c0 Hnth Hc0) as (j & Hj & Hcount & Hrest).
    exists (S j); simpl firstn; simpl skipn.
    rewrite (Hcons (firstn k _)), (Hcons (firstn j _)).
    split; [exact Hj | split; [simpl in Hcount |- *; lia | exact Hrest]].
Qed.

End Replace.

Lemma stripCodeBlocks_cons c s :
  stripCodeBlocks (c :: s) =
  match CODE_BLOCK_REGEX (c :: s) with
  | Some (S len) =>
      lineBreaks (firstn (S len) (c :: s)) ++ stripCodeBlocks (skipn len s)
  | _ => c :: stripCodeBlocks s
  end.
Proof.
  unfold stripCodeBlocks, Regex.replaceAll; simpl Regex.replaceFrom.
  destruct (CODE_BLOCK_REGEX (c :: s)) as [[|len]|]; try reflexivity.
  rewrite replaceFrom_skip; reflexivity.
Qed.

Lemma startsWith_fence s :
  startsWith s fence = startsWith (firstn 3 s) fence.
Proof.
  change fence with [96; 96; 96]%N.
  destruct s as [|a [|b [|c [|d s]]]]; reflexivity.
Qed.

Lemma firstn3_app (a r : jsstring) :
  a <> [] -> firstn 3 (a ++ firstn 2 r) = firstn 3 (a ++ r).
Proof.
  intros Ha; destruct a as [|x [|y [|z a]]]; [congruence | | |];
    destruct r as [|u [|v r]]; reflexivity.
Qed.

Lemma noFence_cons c s :
  noFence (c :: s) <-> startsWith (c :: s) fence = false /\ noFence s.
Proof.
  unfold noFence; cbn [findFence].
  destruct (startsWith (c :: s) fence), (findFence s); cbn [option_map];
    split; intros H; try discriminate; try (destruct H; discriminate); auto.
Qed.

(** A text in which no fence starts is left as it is. *)
Lemma stripCodeBlocks_text t rest :
  noFence (t ++ firstn 2 rest) ->
  stripCodeBlocks (t ++ rest) = t ++ stripCodeBlocks rest.
Proof.
  induction t as [|c t IH]; intros H; [reflexivity |].
  change ((c :: t) ++ firstn 2 rest) with (c :: t ++ firstn 2 rest) in H.
  apply noFence_cons in H as [Hstart Hno].
  change ((c :: t) ++ rest) with (c :: t ++ rest).
  rewrite stripCodeBlocks_cons.
  unfold CODE_BLOCK_REGEX.
  rewrite startsWith_fence.
  change (c :: t ++ rest) with ((c :: t) ++ rest) at 1.
  rewrite <- firstn3_app by discriminate.
  rewrite <- startsWith_fence.
  change ((c :: t) ++ firstn 2 rest) with (c :: t ++ firstn 2 rest).
  rewrite Hstart, IH by exact Hno; reflexivity.
Qed.











End StripFacts.

(** ** The extractor *)

Module ExtractFacts.

Lemma MARKDOWN_LINK_head before s r :
  MARKDOWN_LINK_REGEX before s = Some r -> exists tl, s = ch "[" :: tl.
Proof.
  unfold MARKDOWN_LINK_REGEX.
  destruct (match before with Some c => (c =? ch "!")%N | None => false end);
    [discriminate |].
  destruct s as [|c tl]; [discriminate |].
  destruct (N.eqb_spec c (ch "[")) as [-> | _]; [eauto | discriminate].
Qed.

Lemma AUTOLINK_head before s r :
  AUTOLINK_REGEX before s = Some r -> exists tl, s = ch "<" :: tl.
Proof.
  unfold AUTOLINK_REGEX.
  destruct s as [|c tl]; [discriminate |].
  destruct (N.eqb_spec c (ch "<")) as [-> | _]; [eauto | discriminate].
Qed.

Lemma HTML_ANCHOR_head before s r :
  HTML_ANCHOR_REGEX before s = Some r -> exists tl, s = ch "<" :: tl.
Proof.
  unfold HTML_ANCHOR_REGEX.
  destruct s as [|c [|a tl]]; try discriminate.
  destruct (N.eqb_spec c (ch "<")) as [-> | _]; [eauto | discriminate].
Qed.

Lemma skipn_cons_nth_error {A} (s : list A) : forall k c tl,
  skipn k s = c :: tl -> nth_error s k = Some c.
Proof.
  induction s as [|x s IH]; intros [|k] c tl H; simpl in *; try discriminate.
  - congruence.
  - eapply IH, H.
Qed.

(** A link pushed by one of the loops is found at a place of the
    original text. *)
Lemma loop_origin d (M : Regex.matcher jsstring) body l c0 :
  (forall before s r, M before s = Some r -> exists tl, s = c0 :: tl) ->
  c0 <> LF ->
  (forall x l, In l (body x) ->
               link_line l = lineNumberAt (stripCodeBlocks d) (fst x)) ->
  In l (flat_map body (Regex.execAll M (stripCodeBlocks d))) ->
  exists j before len g,
    link_line l = lineNumberAt d j /\ nth_error d j = Some c0 /\
    M before (stripCodeBlocks (skipn j d)) = Some (S len, g).
Proof.
  intros Hhead Hc0 Hbody Hin.
  apply in_flat_map in Hin as ([i g] & Hx & Hl).
  apply LineFacts.execFrom_In in Hx as (k & len & Hi & _ & Hm).
  simpl in Hi; subst k.
  set (before := match i with O => None | S k' => nth_error _ k' end) in Hm.
  destruct (Hhead _ _ _ Hm) as [tl Htl].
  apply skipn_cons_nth_error in Htl.
  destruct (StripFacts.replaceFrom_origin CODE_BLOCK_REGEX d 0 i Htl Hc0)
    as (j & Hj & Hcount & Hrest).
  exists j, before, len, g; repeat split.
  - rewrite (Hbody _ _ Hl); simpl fst.
    rewrite !LineFacts.lineNumberAt_count; f_equal.
    unfold stripCodeBlocks, Regex.replaceAll.
    rewrite <- Hcount; change (countNewlines (firstn 0 d)) with 0; lia.
  - exact Hj.
  - unfold stripCodeBlocks, Regex.replaceAll in *; rewrite Hrest; exact Hm.
Qed.

Lemma link_origin parse d l :
  In l (collectFileLinks parse d) ->
  exists j,
    link_line l = lineNumberAt d j /\
    (nth_error d j = Some (ch "[") \/ nth_error d j = Some (ch "<")) /\
    linkSyntaxAt (stripCodeBlocks (skipn j d)).
Proof.
  unfold collectFileLinks; rewrite !in_app_iff; intros [H | [H | H]].
  - apply loop_origin with (c0 := ch "[") in H
      as (j & before & len & g & Hline & Hnth & Hm).
    + exists j; repeat split; [exact Hline | auto |].
      exists before, len, g; auto.
    + apply MARKDOWN_LINK_head.
    + discriminate.
    + intros x l'; simpl.
      destruct (isEmpty (extractMarkdownUrl (snd x))); [contradiction |].
      apply LineFacts.pushLink_line.
  - apply loop_origin with (c0 := ch "<") in H
      as (j & before & len & g & Hline & Hnth & Hm).
    + exists j; repeat split; [exact Hline | auto |].
      exists before, len, g; auto.
    + apply AUTOLINK_head.
    + discriminate.
    + intros x l'; apply LineFacts.pushLink_line.
  - apply loop_origin with (c0 := ch "<") in H
      as (j & before & len & g & Hline & Hnth & Hm).
    + exists j; repeat split; [exact Hline | auto |].
      exists before, len, g; auto.
    + apply HTML_ANCHOR_head.
    + discriminate.
    + intros x l'; apply LineFacts.pushLink_line.
Qed.

End ExtractFacts.

(** ** [path.extname] *)

Module ExtFacts.

Lemma scan_plain xs : forall k rest sp e ms pd,
  plain xs ->
  extnameScan (length xs + k) (xs ++ rest) (mkExtScan None sp (Some e) ms pd)
  = extnameScan k rest (mkExtScan None sp (Some e) ms pd).
Proof.
  induction xs as [|c xs IH]; intros k rest sp e ms pd H; [reflexivity |].
  inversion H as [|? ? [Hslash Hdot] Hxs]; subst.
  apply N.eqb_neq in Hslash, Hdot.
  cbn [length Nat.add app extnameScan]. rewrite Hslash; cbn [endPos startDot].
  rewrite Hdot; apply IH, Hxs.
Qed.

Lemma scan_base xs : forall k rest sd sp e ms pd,
  noSlash xs ->
  extnameScan (length xs + k) (xs ++ rest)
              (mkExtScan (Some sd) sp (Some e) ms pd)
  = extnameScan k rest
      (mkExtScan (Some sd) sp (Some e) ms
         (fold_left (fun _ c => if (c =? ch ".")%N then 1%Z else (-1)%Z) xs pd)).
Proof.
  induction xs as [|c xs IH]; intros k rest sd sp e ms pd H; [reflexivity |].
  inversion H as [|? ? Hslash Hxs]; subst.
  apply N.eqb_neq in Hslash.
  cbn [length Nat.add app extnameScan fold_left].
  rewrite Hslash; cbn [endPos startDot].
  destruct (c =? ch ".")%N; cbn [startDot startPart endPos matchedSlash];
    apply IH, Hxs.
Qed.

Lemma preDot_seen xs : forall pd,
  (xs <> [] \/ pd = 1%Z \/ pd = (-1)%Z) ->
  let pd' :=
    fold_left (fun _ c => if (c =? ch ".")%N then 1%Z else (-1)%Z) xs pd in
  pd' = 1%Z \/ pd' = (-1)%Z.
Proof.
  induction xs as [|c xs IH]; intros pd H; cbn [fold_left].
  - destruct H as [H | H]; [congruence | exact H].
  - apply IH; right; destruct (c =? ch ".")%N; auto.
Qed.

Lemma slice_suffix (a b : jsstring) :
  slice (length a) (length a + length b) (a ++ b) = b.
Proof.
  unfold slice.
  rewrite skipn_app, skipn_all2, Nat.sub_diag by lia.
  replace (length a + length b - length a) with (length b) by lia.
  apply firstn_all.
Qed.

(** The extension of a path that ends in a file name with a base, a
    dot and an extension. *)
Lemma extname_base_ext dir base ext :
  base <> [] -> noSlash base -> ext <> [] -> plain ext ->
  extname (dir ++ ch "/" :: base ++ ch "." :: ext) = ch "." :: ext.
Proof.
  intros Hbase Hns Hext Hplain.
  unfold extname.
  set (path := dir ++ ch "/" :: base ++ ch "." :: ext).
  assert (Hrev : rev path
                 = rev ext ++ ch "." :: rev base ++ ch "/" :: rev dir).
  { unfold path; rewrite rev_app_distr; cbn [rev].
    rewrite rev_app_distr; cbn [rev].
    rewrite <- !app_assoc; reflexivity. }
  assert (Hlen : length path
                 = length (rev ext) + S (length (rev base) + S (length dir))).
  { unfold path; rewrite !length_app; cbn [length].
    rewrite !length_app, !length_rev; cbn [length]; lia. }
  rewrite Hrev, Hlen.
  assert (Hrext : rev ext <> []).
  { intros E; apply Hext; rewrite <- (rev_involutive ext), E; reflexivity. }
  assert (Hplain' : plain (rev ext)).
  { apply Forall_forall; intros c Hc; apply in_rev in Hc.
    unfold plain in Hplain; rewrite Forall_forall in Hplain; auto. }
  assert (Hns' : noSlash (rev base)).
  { apply Forall_forall; intros c Hc; apply in_rev in Hc.
    unfold noSlash in Hns; rewrite Forall_forall in Hns; auto. }
  destruct (rev ext) as [|y ys] eqn:Ey; [congruence |].
  inversion Hplain' as [|? ? [Hslash Hdot] Hys]; subst.
  apply N.eqb_neq in Hslash, Hdot.
  cbn [length Nat.add app extnameScan extScan0].
  rewrite Hslash; cbn [endPos startDot extScan0 startPart preDotState].
  rewrite Hdot.
  rewrite scan_plain by exact Hys.
  cbn [extnameScan]. change (ch "." =? ch "/")%N with false.
  cbn [endPos startDot]. change (ch "." =? ch ".")%N with true.
  cbn [startPart endPos matchedSlash preDotState].
  rewrite scan_base by exact Hns'.
  cbn [extnameScan]. change (ch "/" =? ch "/")%N with true.
  cbn [matchedSlash negb startDot endPos preDotState startPart].
  assert (Hslice : slice (length (rev base) + S (length dir))
                         (S (length ys + S (length (rev base) + S (length dir))))
                         path = ch "." :: ext).
  { assert (Hl : length ext = S (length ys))
      by (rewrite <- length_rev, Ey; reflexivity).
    unfold path.
    change (dir ++ ch "/" :: base ++ ch "." :: ext)
      with (dir ++ (ch "/" :: base) ++ ch "." :: ext).
    rewrite app_assoc.
    assert (E1 : length (rev base) + S (length dir)
                 = length (dir ++ ch "/" :: base))
      by (rewrite length_app, length_rev; cbn [length]; lia).
    assert (E2 : S (length ys + S (length (rev base) + S (length dir)))
                 = length (dir ++ ch "/" :: base) + length (ch "." :: ext))
      by (rewrite length_app, length_rev; cbn [length]; lia).
    rewrite E2, E1; apply slice_suffix. }
  assert (Hno : (length (rev base) + S (length dir)
                 =? S (length ys + S (length (rev base) + S (length dir))) - 1)
                = false) by (apply Nat.eqb_neq; lia).
  destruct (@preDot_seen (rev base) 0%Z) as [-> | ->].
  { left; intros E; apply Hbase;
      rewrite <- (rev_involutive base), E; reflexivity. }
  - cbn [Z.eqb orb andb]; rewrite Hno; exact Hslice.
  - exact Hslice.
Qed.

End ExtFacts.

(** ** The filters of the extractor *)

Module FilterFacts.

Section WithParser.

Variable parse : urlParser.

Lemma toExternalHttpUrl_Some raw u :
  toExternalHttpUrl parse raw = Some u ->
  exists p,
    parse (trim raw) = Some p /\
    (protocol p = lit "http:" \/ protocol p = lit "https:") /\
    hostname p <> lit "localhost" /\
    u = href p.
Proof.
  unfold toExternalHttpUrl.
  destruct (isEmpty (trim raw)); [discriminate |].
  destruct (parse (trim raw)) as [p|]; [| discriminate].
  destruct (Js.eqb (protocol p) (lit "http:")) eqn:Ehttp;
    destruct (Js.eqb (protocol p) (lit "https:")) eqn:Ehttps;
    cbn [negb andb]; try discriminate;
    destruct (Js.eqb (hostname p) (lit "localhost")) eqn:Ehost;
    try discriminate; intros [= <-]; exists p;
    apply JsFacts.eqb_neq in Ehost;
    (split; [reflexivity | split; [| split; [exact Ehost | reflexivity]]]).
  - left; apply JsFacts.eqb_eq, Ehttp.
  - left; apply JsFacts.eqb_eq, Ehttp.
  - right; apply JsFacts.eqb_eq, Ehttps.
Qed.

Lemma pushLink_In content i target l :
  In l (pushLink parse content i target) ->
  toExternalHttpUrl parse target = Some (link_url l) /\
  isImageUrl parse (link_url l) = false.
Proof.
  unfold pushLink.
  destruct (toExternalHttpUrl parse target) as [external|]; [| contradiction].
  destruct (isEmpty external); [contradiction |]; cbn [orb].
  destruct (isImageUrl parse external) eqn:E; [contradiction |].
  intros [<- | []]; auto.
Qed.

(** Every link extracted was pushed by [pushLink] for some target. *)
Lemma collectFileLinks_In d l :
  In l (collectFileLinks parse d) ->
  exists i target, In l (pushLink parse (stripCodeBlocks d) i target).
Proof.
  unfold collectFileLinks, markdownLoop, autolinkLoop, anchorLoop.
  rewrite !in_app_iff, !in_flat_map.
  intros [([i g] & _ & H) | [([i g] & _ & H) | ([i g] & _ & H)]];
    cbn [fst snd] in H; eauto.
  destruct (isEmpty (extractMarkdownUrl g)); [contradiction | eauto].
Qed.

Lemma uniqueUrls_In files u :
  In u (uniqueUrls parse files) ->
  exists f l, In f files /\ In l (collectFileLinks parse (snd f)) /\
              link_url l = u.
Proof.
  intros Hin.
  destruct (ScanFacts.recorded_scanFiles parse files) as [_ Hget].
  specialize (Hget u).
  destruct (JsMap.get (scanFiles parse files) u) as [o|] eqn:E.
  - unfold occurrencesOf in Hget.
    destruct (filter (fun x => Js.eqb (fst x) u) (encounters parse files))
      as [|x xs] eqn:Ef; [discriminate |].
    assert (Hx : In x (filter (fun x => Js.eqb (fst x) u)
                              (encounters parse files)))
      by (rewrite Ef; left; reflexivity).
    apply filter_In in Hx as [Hx Hu]. apply JsFacts.eqb_eq in Hu.
    unfold encounters in Hx.
    apply in_flat_map in Hx as (f & Hf & Hx).
    apply in_map_iff in Hx as (l & <- & Hl).
    exists f, l; auto.
  - apply JsMapFacts.get_None_keys in E; contradiction.
Qed.

End WithParser.

Lemma lowerChar_slash c : lowerChar c = ch "/" -> c = ch "/".
Proof.
  unfold lowerChar.
  destruct ((65 <=? c)%N && (c <=? 90)%N) eqn:E; [| auto].
  apply andb_true_iff in E as [H1 H2].
  apply N.leb_le in H1, H2. change (ch "/") with 47%N. lia.
Qed.

Lemma lowerChar_dot c : lowerChar c = ch "." -> c = ch ".".
Proof.
  unfold lowerChar.
  destruct ((65 <=? c)%N && (c <=? 90)%N) eqn:E; [| auto].
  apply andb_true_iff in E as [H1 H2].
  apply N.leb_le in H1, H2. change (ch ".") with 46%N. lia.
Qed.

Lemma plain_lower ext : plain (toLowerCase ext) -> plain ext.
Proof.
  unfold plain, toLowerCase; rewrite Forall_map.
  apply Forall_impl; intros c [Hs Hd]; split; intros ->;
    [apply Hs | apply Hd]; reflexivity.
Qed.

(** What a recognized extension is made of, and how it is looked
    up. *)
Lemma imageExtension_recognized ext :
  In (toLowerCase ext) imageExtensions ->
  ext <> [] /\ plain ext /\
  has_string IMAGE_EXTENSIONS (toLowerCase (ch "." :: ext)) = true.
Proof.
  intros Hin.
  assert (H : toLowerCase ext <> [] /\ plain (toLowerCase ext) /\
              has_string IMAGE_EXTENSIONS (ch "." :: toLowerCase ext) = true).
  { unfold imageExtensions in Hin; simpl In in Hin.
    repeat (destruct Hin as [<- | Hin];
            [ split; [discriminate |];
              split; [repeat constructor; discriminate | reflexivity] |]).
    contradiction. }
  destruct H as (Hne & Hplain & Hhas).
  split; [intros ->; apply Hne; reflexivity |].
  split; [apply plain_lower, Hplain | exact Hhas].
Qed.

End FilterFacts.

(** ** The concurrency harness *)

Module PoolFacts.

Import Pool.

Section Facts.

Variables (T St : Type).
Variable items : list T.
Variable limit : nat.
Variable finish : T -> St -> St.
Variable s0 : St.

#[local] Abbreviation pool := (pool T St).
#[local] Abbreviation step := (step items finish).
#[local] Abbreviation run := (run items finish).
#[local] Abbreviation invariant := (invariant items limit finish s0).
#[local] Abbreviation stepsLeft := (stepsLeft items).

Lemma firstn_snoc {A} (l : list A) : forall k x,
  nth_error l k = Some x -> firstn (S k) l = firstn k l ++ [x].
Proof.
  induction l as [|y l IH]; intros [|k] x H; simpl in *; try discriminate.
  - congruence.
  - f_equal; apply IH, H.
Qed.

(** The pool once [Array.from] has created [k] closures. *)
Lemma spawned k :
  k <= length items ->
  Nat.iter k (spawn items) (mkPool 0 [] [] [] s0)
  = mkPool k (map (@Awaiting T) (firstn k items)) (firstn k items) [] s0.
Proof.
  induction k as [|k IH]; intros Hk; [reflexivity |].
  rewrite Nat.iter_succ, IH by lia.
  unfold spawn, loopHead; cbn [index].
  destruct (nth_error items k) as [item|] eqn:E.
  - unfold withSlots; cbn [index slots started settled shared].
    rewrite (firstn_snoc _ _ E), map_app; reflexivity.
  - apply nth_error_None in E; lia.
Qed.

Lemma awaited_map l : awaited (map (@Awaiting T) l) = l.
Proof. induction l as [|x l IH]; simpl; congruence. Qed.

Lemma readyCount_map l : readyCount (map (@Awaiting T) l) = 0.
Proof. induction l as [|x l IH]; simpl; auto. Qed.

Lemma init_invariant : invariant (init items limit s0).
Proof.
  unfold init; rewrite spawned by apply Nat.le_min_r.
  constructor; cbn [index slots started settled shared].
  - apply Nat.le_min_r.
  - reflexivity.
  - rewrite awaited_map; reflexivity.
  - intros H; apply in_map_iff in H as (x & Hx & _); discriminate.
  - rewrite length_map, length_firstn; lia.
  - reflexivity.
Qed.

Lemma length_setSlot k s (l : list (slot T)) :
  length (setSlot k s l) = length l.
Proof.
  revert k; induction l as [|x l IH]; intros [|k]; simpl; auto.
Qed.

Lemma In_setSlot k s x (l : list (slot T)) :
  In x (setSlot k s l) -> x = s \/ In x l.
Proof.
  revert k; induction l as [|y l IH]; intros [|k]; simpl; try tauto.
  - intros [H | H]; auto.
  - intros [H | H]; [auto | apply IH in H; tauto].
Qed.

(** Replacing the state of a closure, as far as the pending calls are
    concerned. *)
Lemma awaited_settle k item (l : list (slot T)) s :
  nth_error l k = Some (Awaiting item) ->
  (match s with Awaiting _ => False | _ => True end) ->
  Permutation (awaited l) (item :: awaited (setSlot k s l)).
Proof.
  revert k; induction l as [|x l IH]; intros [|k] H Hs; simpl in *;
    try discriminate.
  - injection H as ->; destruct s; [contradiction | reflexivity ..].
  - destruct x; simpl; auto.
    rewrite (IH k H Hs); apply perm_swap.
Qed.

Lemma awaited_resume k (l : list (slot T)) s :
  nth_error l k = Some Ready ->
  Permutation (awaited (setSlot k s l))
              (match s with Awaiting item => [item] | _ => [] end
               ++ awaited l).
Proof.
  revert k; induction l as [|x l IH]; intros [|k] H; simpl in *;
    try discriminate.
  - injection H as ->; reflexivity.
  - rewrite (IH k H); apply Permutation_app_swap_app.
Qed.

Lemma nth_error_awaited k item (l : list (slot T)) :
  nth_error l k = Some (Awaiting item) -> In item (awaited l).
Proof.
  intros H; apply nth_error_In in H.
  unfold awaited; apply in_flat_map; exists (Awaiting item); simpl; auto.
Qed.

Lemma readyCount_settle k item (l : list (slot T)) :
  nth_error l k = Some (Awaiting item) ->
  readyCount (setSlot k Ready l) = S (readyCount l).
Proof.
  unfold readyCount.
  revert k; induction l as [|x l IH]; intros [|k] H; simpl in *;
    try discriminate.
  - injection H as ->; reflexivity.
  - destruct x; simpl; rewrite (IH k H); reflexivity.
Qed.

Lemma readyCount_resume k (l : list (slot T)) s :
  nth_error l k = Some Ready ->
  (match s with Ready => False | _ => True end) ->
  S (readyCount (setSlot k s l)) = readyCount l.
Proof.
  unfold readyCount.
  revert k; induction l as [|x l IH]; intros [|k] H Hs; simpl in *;
    try discriminate.
  - injection H as ->; destruct s; [reflexivity | contradiction | reflexivity].
  - destruct x; simpl; rewrite <- (IH k H Hs); reflexivity.
Qed.

(** Every step keeps the invariant and uses up one of the steps left. *)
Lemma step_invariant p q :
  invariant p -> step p q -> invariant q /\ S (stepsLeft q) = stepsLeft p.
Proof.
  intros [Hidx Hst Hpend Hret Hlen Hsh] Hstep.
  destruct Hstep as [p k item Hk | p k Hk].
  - split.
    + constructor; cbn [index slots started settled shared].
      * exact Hidx.
      * exact Hst.
      * rewrite Hpend, (@awaited_settle k item (slots p) Ready Hk I), <- app_assoc.
        reflexivity.
      * intros H; apply In_setSlot in H as [H | H];
          [discriminate | auto].
      * rewrite length_setSlot; exact Hlen.
      * rewrite fold_left_app, <- Hsh; reflexivity.
    + unfold Pool.stepsLeft; cbn [slots settled].
      rewrite (@readyCount_settle k item (slots p) Hk), length_app; cbn [length].
      assert (Hlt : length (settled p) < length items).
      { apply Permutation_length in Hpend.
        rewrite length_app, Hst, length_firstn in Hpend.
        pose proof (@nth_error_awaited k item (slots p) Hk) as Hin.
        destruct (awaited (slots p)); [contradiction |].
        cbn [length] in Hpend; lia. }
      lia.
  - unfold loopHead.
    destruct (nth_error items (index p)) as [item|] eqn:E;
      unfold withSlots; cbn [index slots started settled shared].
    + assert (Hlt : index p < length items)
        by (apply nth_error_Some; congruence).
      split.
      * constructor; cbn [index slots started settled shared].
        -- lia.
        -- rewrite (firstn_snoc _ _ E), Hst; reflexivity.
        -- rewrite (@awaited_resume k (slots p) (Awaiting item) Hk); cbn [app].
           etransitivity; [| apply Permutation_middle].
           rewrite <- Hpend; symmetry; apply Permutation_cons_append.
        -- intros H; apply In_setSlot in H as [H | H];
             [discriminate | apply Hret in H; lia].
        -- rewrite length_setSlot; exact Hlen.
        -- exact Hsh.
      * unfold Pool.stepsLeft; cbn [slots settled].
        rewrite <- (@readyCount_resume k (slots p) (Awaiting item) Hk I); lia.
    + apply nth_error_None in E.
      split.
      * constructor; cbn [index slots started settled shared].
        -- exact Hidx.
        -- exact Hst.
        -- rewrite (@awaited_resume k (slots p) Returned Hk); exact Hpend.
        -- intros _; lia.
        -- rewrite length_setSlot; exact Hlen.
        -- exact Hsh.
      * unfold Pool.stepsLeft; cbn [slots settled].
        rewrite <- (@readyCount_resume k (slots p) Returned Hk I); lia.
Qed.

Lemma run_invariant n p q :
  run n p q -> invariant p ->
  invariant q /\ n + stepsLeft q = stepsLeft p.
Proof.
  induction 1 as [p | n p q r Hstep _ IH]; intros Hinv; [auto |].
  destruct (step_invariant Hinv Hstep) as [Hq Hdec].
  destruct (IH Hq) as [Hr Hsum]; split; [exact Hr | lia].
Qed.

(** A pool that has not resolved can take a step. *)
Lemma progress p : ~ resolved p -> exists q, step p q.
Proof.
  unfold resolved; intros Hnot.
  assert (H : exists k s, nth_error (slots p) k = Some s /\ s <> Returned).
  { induction (slots p) as [|x l IH].
    - exfalso; apply Hnot; constructor.
    - destruct x as [item| |].
      + exists 0, (Awaiting item); split; [reflexivity | discriminate].
      + exists 0, Ready; split; [reflexivity | discriminate].
      + destruct IH as (k & s & Hk & Hs).
        * intros Hall; apply Hnot; constructor; auto.
        * exists (S k), s; auto. }
  destruct H as (k & [item| |] & Hk & Hs); [| | congruence].
  - eexists; apply (step_settle items finish p k Hk).
  - eexists; apply (step_resume items finish p k Hk).
Qed.

Lemma resolved_awaited (l : list (slot T)) :
  Forall (fun s => s = Returned) l -> awaited l = [] /\ readyCount l = 0.
Proof.
  induction 1 as [|x l -> _ [IH1 IH2]]; [auto |].
  unfold readyCount in *; simpl; auto.
Qed.

(** When the pool has resolved, every item has been passed to the
    worker once, in order, and every call has settled. *)
Lemma resolved_all p :
  1 <= limit -> invariant p -> resolved p ->
  started p = items /\ Permutation (settled p) items /\ stepsLeft p = 0.
Proof.
  intros Hlimit [Hidx Hst Hpend Hret Hlen Hsh] Hres.
  destruct (resolved_awaited Hres) as [Haw Hready].
  rewrite Haw, app_nil_r in Hpend.
  assert (Hall : index p = length items).
  { destruct (slots p) as [|x l] eqn:E.
    - cbn [length] in Hlen; lia.
    - apply Hret; unfold resolved in Hres; rewrite E in Hres.
      inversion Hres; subst; left; reflexivity. }
  rewrite Hall, firstn_all in Hst.
  split; [exact Hst |].
  split; [rewrite <- Hst; symmetry; exact Hpend |].
  unfold Pool.stepsLeft; rewrite Hready.
  apply Permutation_length in Hpend; rewrite Hst in Hpend; lia.
Qed.

End Facts.

End PoolFacts.

(** ** Sorting *)

Module SortFacts.

Section Sort.

Variable A : Type.
Variable compare : A -> A -> Z.
Hypothesis total : forall a b, (compare a b <= 0 \/ compare b a <= 0)%Z.
Hypothesis trans :
  forall a b c, (compare a b <= 0 -> compare b c <= 0 -> compare a c <= 0)%Z.

#[local] Abbreviation le := (fun a b => (compare a b <= 0)%Z).

Lemma insertBy_perm x l : Permutation (insertBy compare x l) (x :: l).
Proof.
  induction l as [|y l IH]; simpl; [reflexivity |].
  destruct (compare x y <=? 0)%Z; [reflexivity |].
  rewrite IH; apply perm_swap.
Qed.

Lemma insertBy_sorted x l :
  StronglySorted le l -> StronglySorted le (insertBy compare x l).
Proof.
  induction 1 as [|y l Hs IH Hall]; simpl; [repeat constructor |].
  destruct (compare x y <=? 0)%Z eqn:E.
  - apply Z.leb_le in E.
    constructor; [constructor; assumption |].
    constructor; [exact E |].
    eapply Forall_impl; [| exact Hall]; intros z Hz; eapply trans; eauto.
  - apply Z.leb_gt in E.
    constructor; [exact IH |].
    apply Forall_forall; intros z Hz.
    apply (Permutation_in _ (insertBy_perm x l)) in Hz as [<- | Hz].
    + destruct (total y x); [assumption | lia].
    + rewrite Forall_forall in Hall; apply Hall, Hz.
Qed.

Lemma sortBy_perm l : Permutation (sortBy compare l) l.
Proof.
  induction l as [|x l IH]; simpl; [reflexivity |].
  rewrite insertBy_perm, IH; reflexivity.
Qed.

Lemma sortBy_sorted l : StronglySorted le (sortBy compare l).
Proof.
  induction l as [|x l IH]; simpl; [constructor |].
  apply insertBy_sorted, IH.
Qed.

End Sort.

Lemma compareCodeUnits_antisym a : forall b,
  compareCodeUnits b a = (- compareCodeUnits a b)%Z.
Proof.
  induction a as [|x a IH]; intros [|y b]; simpl; try reflexivity.
  rewrite (N.compare_antisym x y).
  destruct (N.compare x y); simpl; auto.
Qed.

Lemma compareCodeUnits_range a : forall b,
  (-1 <= compareCodeUnits a b <= 1)%Z.
Proof.
  induction a as [|x a IH]; intros [|y b]; simpl; try lia.
  destruct (N.compare x y); auto; lia.
Qed.

(** The code-unit order is a consistent comparator. *)
Lemma compareCodeUnits_consistent : consistent compareCodeUnits.
Proof.
  split.
  - intros a b; rewrite (compareCodeUnits_antisym a b); lia.
  - intros a; induction a as [|x a IH]; intros [|y b] [|z c]; simpl;
      try lia.
    destruct (x ?= y)%N eqn:Exy; destruct (y ?= z)%N eqn:Eyz;
      intros H1 H2; try (exfalso; lia).
    + apply N.compare_eq_iff in Exy, Eyz; subst.
      rewrite N.compare_refl; eapply IH; eauto.
    + apply N.compare_eq_iff in Exy; subst; rewrite Eyz; exact H2.
    + apply N.compare_eq_iff in Eyz; subst; rewrite Exy; exact H1.
    + apply N.compare_lt_iff in Exy, Eyz.
      assert (E : (x ?= z)%N = Lt)
        by (apply N.compare_lt_iff; eapply N.lt_trans; eauto).
      rewrite E; exact H1.
Qed.

End SortFacts.

(** ** [main] *)

Module MainFacts.

Import Pool.

Lemma worker_fold net occ l : forall acc,
  fold_left (fun s item => worker net occ item s) l acc
  = acc ++ map (failureOf net occ) (filter (failing net) l).
Proof.
  induction l as [|u l IH]; intros acc; simpl; [symmetry; apply app_nil_r |].
  rewrite IH. unfold worker, failing, failureOf.
  destruct (Checker.ok (Checker.checkUrl net u)); simpl; [reflexivity |].
  rewrite <- app_assoc; reflexivity.
Qed.

Lemma Permutation_filter {A} (f : A -> bool) l l' :
  Permutation l l' -> Permutation (filter f l) (filter f l').
Proof.
  induction 1 as [| x l l' _ IH | x y l | l l' l'' _ IH1 _ IH2]; simpl.
  - constructor.
  - destruct (f x); auto.
  - destruct (f x), (f y); auto; apply perm_swap.
  - etransitivity; eauto.
Qed.

(** C6.  Whatever the order in which the checks settle, and whether
    they pass or fail: the worker is called on the items in order, once
    each; a failed check leaves a report in the failed list and nothing
    else; a pool that has not resolved can always go on, and it
    resolves after finitely many steps, when the worker has been called
    on every item exactly once and every call has settled. *)
Theorem runWithConcurrency_once_per_item net occ (items : list jsstring) limit :
  1 <= limit ->
  forall n p,
    run items (worker net occ) n (init items limit []) p ->
    started p = firstn (index p) items /\
    shared p = map (failureOf net occ) (filter (failing net) (settled p)) /\
    n + stepsLeft items p = 2 * length items /\
    (resolved p ->
     started p = items /\ Permutation (settled p) items /\
     n = 2 * length items) /\
    (~ resolved p -> exists q, step items (worker net occ) p q).
Proof.
  intros Hlimit n p Hrun.
  pose proof (PoolFacts.init_invariant items limit (worker net occ) [])
    as Hinit.
  destruct (PoolFacts.run_invariant Hrun Hinit) as [Hinv Hsteps].
  assert (H0 : stepsLeft items (init items limit (@nil FailedResult))
               = 2 * length items).
  { unfold init; rewrite PoolFacts.spawned by apply Nat.le_min_r.
    unfold stepsLeft; cbn [settled slots length].
    rewrite PoolFacts.readyCount_map; lia. }
  rewrite H0 in Hsteps.
  split; [apply Hinv |].
  split; [rewrite (inv_shared Hinv), worker_fold; reflexivity |].
  split; [exact Hsteps |].
  split; [| apply PoolFacts.progress].
  intros Hres.
  destruct (PoolFacts.resolved_all Hlimit Hinv Hres) as (H1 & H2 & H3).
  repeat split; [exact H1 | exact H2 | lia].
Qed.

Lemma runWithConcurrency_once_per_item_witness :
  let items := [lit "https://x.com/a"; lit "https://x.com/B"] in
  exists p,
    1 <= MAX_CONCURRENCY /\
    run items (worker Samples.net_404 []) 4
        (init items MAX_CONCURRENCY []) p /\
    resolved p /\
    started p = items /\ Permutation (settled p) items.
Proof.
  intros items.
  assert (Hl : 1 <= MAX_CONCURRENCY) by (unfold MAX_CONCURRENCY; lia).
  eexists; split; [exact Hl |].
  assert (Hr : run items (worker Samples.net_404 []) 4
                   (init items MAX_CONCURRENCY [])
                   (mkPool 2 [Returned; Returned] items
                      [lit "https://x.com/B"; lit "https://x.com/a"]
                      (map (failureOf Samples.net_404 [])
                           [lit "https://x.com/B"; lit "https://x.com/a"]))).
  { eapply run_step;
      [apply step_settle with (k := 1) (item := lit "https://x.com/B");
       reflexivity |].
    eapply run_step;
      [apply step_settle with (k := 0) (item := lit "https://x.com/a");
       reflexivity |].
    eapply run_step; [apply step_resume with (k := 1); reflexivity |].
    eapply run_step; [apply step_resume with (k := 0); reflexivity |].
    apply run_nil. }
  assert (Hres : resolved (mkPool 2 [Returned; Returned] items
                      [lit "https://x.com/B"; lit "https://x.com/a"]
                      (map (failureOf Samples.net_404 [])
                           [lit "https://x.com/B"; lit "https://x.com/a"])))
    by (repeat constructor).
  split; [exact Hr |]. split; [exact Hres |].
  destruct (proj1 (proj2 (proj2 (proj2
              (runWithConcurrency_once_per_item Hl Hr)))) Hres)
    as (H1 & H2 & _).
  split; [exact H1 | exact H2].
Defined.

End MainFacts.

(** ** External links *)

Module ExternalFacts.

Import Pool.

(** C5.  A target that does not parse, whose scheme is neither http
    nor https, or whose host name is localhost, is turned into no URL,
    and a target that is turned into no URL pushes no link.  So every
    URL that is checked is the serialization of a target that parsed
    with scheme http or https and a host name other than localhost, and
    every failure reported is about such a URL. *)
Theorem non_external_targets_dropped parse :
  (forall raw, parse (trim raw) = None -> toExternalHttpUrl parse raw = None) /\
  (forall raw p,
      parse (trim raw) = Some p ->
      protocol p <> lit "http:" -> protocol p <> lit "https:" ->
      toExternalHttpUrl parse raw = None) /\
  (forall raw p,
      parse (trim raw) = Some p -> hostname p = lit "localhost" ->
      toExternalHttpUrl parse raw = None) /\
  (forall content i target,
      toExternalHttpUrl parse target = None ->
      pushLink parse content i target = []) /\
  (forall files u,
      In u (uniqueUrls parse files) ->
      exists target p,
        parse (trim target) = Some p /\
        (protocol p = lit "http:" \/ protocol p = lit "https:") /\
        hostname p <> lit "localhost" /\ u = href p) /\
  (forall net files n p r,
      run (uniqueUrls parse files) (worker net (scanFiles parse files)) n
          (mainPool parse files) p ->
      In r (shared p) -> In (url r) (uniqueUrls parse files)).
Proof.
  repeat split.
  - intros raw H; unfold toExternalHttpUrl; rewrite H.
    destruct (isEmpty (trim raw)); reflexivity.
  - intros raw p H Hhttp Hhttps; unfold toExternalHttpUrl; rewrite H.
    apply JsFacts.eqb_neq in Hhttp, Hhttps; rewrite Hhttp, Hhttps.
    destruct (isEmpty (trim raw)); reflexivity.
  - intros raw p H Hhost; unfold toExternalHttpUrl; rewrite H, Hhost.
    rewrite JsFacts.eqb_refl.
    destruct (isEmpty (trim raw)); [reflexivity |].
    destruct (negb _ && negb _); reflexivity.
  - intros content i target H; unfold pushLink; rewrite H; reflexivity.
  - intros files u Hin.
    apply FilterFacts.uniqueUrls_In in Hin as (f & l & _ & Hl & <-).
    apply FilterFacts.collectFileLinks_In in Hl as (i & target & Hl).
    apply FilterFacts.pushLink_In in Hl as [Hl _].
    apply FilterFacts.toExternalHttpUrl_Some in Hl as (p & H); eauto.
  - intros net files n p r Hrun Hin.
    pose proof (PoolFacts.init_invariant (uniqueUrls parse files)
                  MAX_CONCURRENCY (worker net (scanFiles parse files)) [])
      as Hinit.
    destruct (PoolFacts.run_invariant Hrun Hinit) as [Hinv _].
    rewrite (inv_shared Hinv), MainFacts.worker_fold in Hin.
    apply in_map_iff in Hin as (u & <- & Hu).
    apply filter_In in Hu as [Hu _].
    assert (Hs : In u (started p)).
    { apply (Permutation_in u (Permutation_sym (inv_pending Hinv))).
      apply in_or_app; auto. }
    rewrite (inv_started Hinv) in Hs.
    rewrite <- (firstn_skipn (index p) (uniqueUrls parse files)).
    apply in_or_app; auto.
Qed.

Lemma non_external_targets_dropped_witness :
  toExternalHttpUrl SampleUrls.parse (lit "/docs/page") = None /\
  toExternalHttpUrl SampleUrls.parse (lit "mailto:a@x.com") = None /\
  toExternalHttpUrl SampleUrls.parse (lit "http://localhost/x") = None /\
  collectFileLinks SampleUrls.parse Samples.not_external = [].
Proof.
  pose proof (non_external_targets_dropped SampleUrls.parse)
    as (Hfail & Hscheme & Hhost & _).
  split; [apply Hfail; vm_compute; reflexivity |].
  split; [apply Hscheme
            with (p := mkURL (lit "mailto:") [] (lit "a@x.com")
                             (lit "mailto:a@x.com"));
          [vm_compute; reflexivity | discriminate | discriminate] |].
  split; [apply Hhost
            with (p := mkURL (lit "http:") (lit "localhost") (lit "/x")
                             (lit "http://localhost/x"));
          vm_compute; reflexivity |].
  vm_compute; reflexivity.
Defined.

End ExternalFacts.

(** ** Normalized URLs *)

Module NormalFacts.

(** The recorded parses serialize as the [URL] class does. *)
Lemma SampleUrls_serializes : serializes SampleUrls.parse.
Proof.
  intros s p H.
  unfold SampleUrls.parse, SampleUrls.table in H; cbn [JsMap.get] in H.
  repeat (destruct (Js.eqb _ s);
          [ injection H as <-;
            split; [discriminate | split; vm_compute; reflexivity] |]).
  discriminate.
Qed.

Lemma get_addEncounter_twice m u o1 o2 :
  JsMap.get (addEncounter (addEncounter m (u, o1)) (u, o2)) u
  = Some (match JsMap.get m u with Some o => o | None => [] end ++ [o1; o2])
  /\ JsMap.keys (addEncounter (addEncounter m (u, o1)) (u, o2))
     = JsMap.keys (addEncounter m (u, o1)).
Proof.
  unfold addEncounter; cbn [fst snd].
  rewrite JsMapFacts.keys_set, !JsMapFacts.get_set_same, <- app_assoc.
  split; reflexivity.
Qed.

(** C10.  The key of a record is the serialization of the parsed
    target, not the text of the target: two targets whose parses
    serialize to the same string give links with the same URL, and
    their occurrences go to one record, the second after the first.
    For a parser that serializes as the [URL] class does, a normalized
    URL is normalized to itself. *)
Theorem same_url_same_record parse :
  (forall raw u,
      toExternalHttpUrl parse raw = Some u ->
      exists p, parse (trim raw) = Some p /\ u = href p) /\
  (forall c1 i1 r1 l1 c2 i2 r2 l2 p1 p2,
      In l1 (pushLink parse c1 i1 r1) -> In l2 (pushLink parse c2 i2 r2) ->
      parse (trim r1) = Some p1 -> parse (trim r2) = Some p2 ->
      href p1 = href p2 ->
      link_url l1 = link_url l2 /\
      forall m f1 f2,
        JsMap.get (addOccurrence f2 (addOccurrence f1 m l1) l2) (link_url l1)
        = Some (match JsMap.get m (link_url l1) with
                | Some o => o
                | None => []
                end
                ++ [mkOccurrence f1 (link_line l1);
                    mkOccurrence f2 (link_line l2)])
        /\ JsMap.keys (addOccurrence f2 (addOccurrence f1 m l1) l2)
           = JsMap.keys (addOccurrence f1 m l1)) /\
  (serializes parse ->
   forall raw u,
     toExternalHttpUrl parse raw = Some u ->
     toExternalHttpUrl parse u = Some u).
Proof.
  split; [| split].
  - intros raw u H.
    apply FilterFacts.toExternalHttpUrl_Some in H as (p & Hp & _ & _ & ->).
    eauto.
  - intros c1 i1 r1 l1 c2 i2 r2 l2 p1 p2 H1 H2 Hp1 Hp2 Hhref.
    apply FilterFacts.pushLink_In in H1 as [H1 _], H2 as [H2 _].
    apply FilterFacts.toExternalHttpUrl_Some in H1 as (q1 & Hq1 & _ & _ & E1).
    apply FilterFacts.toExternalHttpUrl_Some in H2 as (q2 & Hq2 & _ & _ & E2).
    assert (E : link_url l1 = link_url l2) by congruence.
    split; [exact E |].
    intros m f1 f2.
    change (addOccurrence f2 (addOccurrence f1 m l1) l2)
      with (addEncounter
              (addEncounter m (link_url l1, mkOccurrence f1 (link_line l1)))
              (link_url l2, mkOccurrence f2 (link_line l2))).
    change (addOccurrence f1 m l1)
      with (addEncounter m (link_url l1, mkOccurrence f1 (link_line l1))).
    rewrite <- E; apply get_addEncounter_twice.
  - intros Hser raw u H.
    apply FilterFacts.toExternalHttpUrl_Some in H
      as (p & Hp & Hscheme & Hhost & ->).
    destruct (Hser _ _ Hp) as (Hne & Htrim & Hparse).
    unfold toExternalHttpUrl; rewrite Htrim, Hparse.
    destruct (href p) eqn:E; [congruence |]; cbn [isEmpty].
    apply JsFacts.eqb_neq in Hhost; rewrite Hhost.
    destruct Hscheme as [-> | ->]; reflexivity.
Qed.

Lemma same_url_same_record_witness :
  toExternalHttpUrl SampleUrls.parse (lit "https://x.com")
  = Some (lit "https://x.com/") /\
  toExternalHttpUrl SampleUrls.parse (lit "https://x.com/")
  = Some (lit "https://x.com/") /\
  scanFiles SampleUrls.parse Samples.two_spellings
  = [(lit "https://x.com/",
      [mkOccurrence (lit "a.md") 1; mkOccurrence (lit "b.md") 1])].
Proof.
  assert (H : toExternalHttpUrl SampleUrls.parse (lit "https://x.com")
              = Some (lit "https://x.com/")) by (vm_compute; reflexivity).
  split; [exact H |].
  split; [| vm_compute; reflexivity].
  exact (proj2 (proj2 (same_url_same_record SampleUrls.parse))
               SampleUrls_serializes _ _ H).
Defined.

End NormalFacts.

(** ** The directory walk *)

Module WalkFacts.

(** Induction on a directory tree. *)
Lemma entry_induction (P : entry -> Prop) :
  (forall file, P (File file)) ->
  (forall file entries, Forall P entries -> P (Directory file entries)) ->
  forall e, P e.
Proof.
  intros Hfile Hdir; fix IH 1; intros [file | file entries].
  - apply Hfile.
  - apply Hdir; induction entries as [|e entries IHentries]; constructor.
    + apply IH.
    + exact IHentries.
Qed.

Section WithJoin.

Variable join : jsstring -> jsstring -> jsstring.

Lemma fold_visit_app (entries : list entry) :
  Forall (fun e => forall dir fileList,
              visit join dir e fileList = fileList ++ visit join dir e [])
         entries ->
  forall dir fileList,
    findMarkdownFiles join dir entries fileList
    = fileList ++ findMarkdownFiles join dir entries [].
Proof.
  unfold findMarkdownFiles.
  induction 1 as [|e entries He _ IH]; intros dir fileList; simpl.
  - symmetry; apply app_nil_r.
  - rewrite IH, (IH dir (visit join dir e [])), He, app_assoc; reflexivity.
Qed.

Lemma visit_app e : forall dir fileList,
  visit join dir e fileList = fileList ++ visit join dir e [].
Proof.
  induction e as [file | file entries IH] using entry_induction;
    intros dir fileList.
  - simpl; destruct (isMarkdownName file);
      [reflexivity | symmetry; apply app_nil_r].
  - apply (fold_visit_app IH).
Qed.

(** X1.  [findMarkdownFiles] only appends to the list it is given: the
    result is that list followed by what the walk finds, and what the
    walk finds does not depend on the list. *)
Theorem findMarkdownFiles_appends dir files fileList :
  findMarkdownFiles join dir files fileList
  = fileList ++ findMarkdownFiles join dir files [].
Proof.
  apply fold_visit_app, Forall_forall; intros e _; apply visit_app.
Qed.

Lemma findMarkdownFiles_cons dir e files :
  findMarkdownFiles join dir (e :: files) []
  = visit join dir e [] ++ findMarkdownFiles join dir files [].
Proof.
  unfold findMarkdownFiles at 1; simpl.
  apply (findMarkdownFiles_appends dir files (visit join dir e [])).
Qed.

Lemma under_incl dir files files' p :
  (forall e, In e files -> In e files') ->
  markdownUnder join dir files p -> markdownUnder join dir files' p.
Proof.
  intros Hincl H; destruct H as [dir files file Hin Hmd | dir files file sub p Hin H].
  - apply under_file; auto.
  - eapply under_directory; eauto.
Qed.

Lemma under_split dir files p :
  markdownUnder join dir files p ->
  exists e, In e files /\ markdownUnder join dir [e] p.
Proof.
  intros H; destruct H as [dir files file Hin Hmd | dir files file sub p Hin H].
  - exists (File file); split; [exact Hin |].
    apply under_file; [left; reflexivity | exact Hmd].
  - exists (Directory file sub); split; [exact Hin |].
    eapply under_directory; [left; reflexivity | exact H].
Qed.

Lemma under_single_file dir file p :
  markdownUnder join dir [File file] p
  <-> isMarkdownName file = true /\ p = join dir file.
Proof.
  split.
  - intros H; remember [File file] as l eqn:El.
    destruct H as [dir files f Hin Hmd | dir files f sub p Hin H]; subst.
    + destruct Hin as [[= <-] | []]; auto.
    + destruct Hin as [[=] | []].
  - intros [Hmd ->]; apply under_file; [left; reflexivity | exact Hmd].
Qed.

Lemma under_single_directory dir file entries p :
  markdownUnder join dir [Directory file entries] p
  <-> markdownUnder join (join dir file) entries p.
Proof.
  split.
  - intros H; remember [Directory file entries] as l eqn:El.
    destruct H as [dir files f Hin Hmd | dir files f sub p Hin H]; subst.
    + destruct Hin as [[=] | []].
    + destruct Hin as [[= <- <-] | []]; exact H.
  - intros H; eapply under_directory; [left; reflexivity | exact H].
Qed.

Lemma listed_iff_entries (files : list entry) :
  Forall (fun e => forall dir p,
              In p (visit join dir e []) <-> markdownUnder join dir [e] p)
         files ->
  forall dir p,
    In p (findMarkdownFiles join dir files [])
    <-> markdownUnder join dir files p.
Proof.
  induction 1 as [|e files He _ IH]; intros dir p.
  - split; [contradiction |].
    intros H; apply under_split in H as (e & [] & _).
  - rewrite findMarkdownFiles_cons, in_app_iff, He, IH.
    split.
    + intros [H | H]; eapply under_incl; try exact H; simpl; tauto.
    + intros H; apply under_split in H as (e' & [<- | Hin] & H);
        [left; exact H | right].
      eapply under_incl; [| exact H].
      intros x [<- | []]; exact Hin.
Qed.

Lemma visit_listed e : forall dir p,
  In p (visit join dir e []) <-> markdownUnder join dir [e] p.
Proof.
  induction e as [file | file entries IH] using entry_induction;
    intros dir p.
  - rewrite under_single_file; simpl.
    destruct (isMarkdownName file); simpl; split.
    + intros [<- | []]; auto.
    + intros [_ ->]; auto.
    + contradiction.
    + intros [[=] _].
  - rewrite under_single_directory.
    apply (listed_iff_entries IH).
Qed.

(** X2.  The paths [findMarkdownFiles] lists are those of the entries
    that are not directories and whose name ends in .md or .mdx, at any
    depth; a directory is walked whatever its name and is never listed
    itself. *)
Theorem findMarkdownFiles_lists dir files p :
  In p (findMarkdownFiles join dir files [])
  <-> markdownUnder join dir files p.
Proof.
  apply listed_iff_entries, Forall_forall; intros e _; apply visit_listed.
Qed.

End WithJoin.

End WalkFacts.

(** ** Prefixes, suffixes and white space *)

Module TextFacts.

Lemma dropWhile_stops p s : stopsAt (fun c => negb (p c)) (dropWhile p s).
Proof.
  induction s as [|c s IH]; simpl; [exact I |].
  destruct (p c) eqn:E; [exact IH | simpl; rewrite E; reflexivity].
Qed.

Lemma dropWhile_id p s : stopsAt (fun c => negb (p c)) s -> dropWhile p s = s.
Proof.
  destruct s as [|c s]; simpl; [reflexivity |].
  intros H; apply negb_true_iff in H; rewrite H; reflexivity.
Qed.

Lemma dropWhile_lead p lead s :
  Forall (fun c => p c = true) lead ->
  dropWhile p (lead ++ s) = dropWhile p s.
Proof.
  induction 1 as [|c lead Hc _ IH]; simpl; [reflexivity |].
  rewrite Hc; exact IH.
Qed.

Lemma dropWhile_suffix p s : exists w, s = w ++ dropWhile p s.
Proof.
  induction s as [|c s [w IH]]; simpl; [exists []; reflexivity |].
  destruct (p c); [exists (c :: w); simpl; congruence | exists []; reflexivity].
Qed.

(** Dropping from a string that holds a code unit to keep. *)
Lemma dropWhile_anchor p x c y :
  p c = false ->
  exists x1 x2, x = x1 ++ x2 /\ dropWhile p (x ++ c :: y) = x2 ++ c :: y.
Proof.
  intros Hc; induction x as [|d x (x1 & x2 & -> & IH)]; simpl.
  - exists [], []; rewrite Hc; auto.
  - destruct (p d).
    + exists (d :: x1), x2; auto.
    + exists [], (d :: x1 ++ x2); auto.
Qed.

Lemma span_app p a b :
  Forall (fun c => p c = true) a -> stopsAt (fun c => negb (p c)) b ->
  span p (a ++ b) = (a, b).
Proof.
  induction 1 as [|c a Hc _ IH]; intros Hb; simpl.
  - destruct b as [|d b]; simpl in *; [reflexivity |].
    apply negb_true_iff in Hb; rewrite Hb; reflexivity.
  - rewrite Hc, (IH Hb); reflexivity.
Qed.

Lemma span_spec p s :
  s = fst (span p s) ++ snd (span p s) /\
  Forall (fun c => p c = true) (fst (span p s)) /\
  stopsAt (fun c => negb (p c)) (snd (span p s)).
Proof.
  induction s as [|c s (IH1 & IH2 & IH3)]; simpl; [auto |].
  destruct (p c) eqn:E.
  - destruct (span p s) as [a b]; simpl in *.
    repeat split; [congruence | constructor; assumption | assumption].
  - simpl; rewrite E; auto.
Qed.

Lemma stopsAt_rev_prefix p (a b : jsstring) :
  stopsAt p (a ++ b) -> stopsAt p a.
Proof. destruct a; simpl; auto. Qed.

(** What [trim] leaves has no white space at either end. *)
Lemma trim_ends s :
  stopsAt (fun c => negb (isWhiteSpace c)) (trim s) /\
  stopsAt (fun c => negb (isWhiteSpace c)) (rev (trim s)).
Proof.
  unfold trim.
  set (a := dropWhile isWhiteSpace s).
  destruct (dropWhile_suffix isWhiteSpace (rev a)) as [w Hw].
  set (b := dropWhile isWhiteSpace (rev a)) in *.
  split.
  - apply stopsAt_rev_prefix with (b := rev w).
    rewrite <- rev_app_distr, <- Hw, rev_involutive.
    apply dropWhile_stops.
  - rewrite rev_involutive; apply dropWhile_stops.
Qed.

Lemma trim_id s :
  stopsAt (fun c => negb (isWhiteSpace c)) s ->
  stopsAt (fun c => negb (isWhiteSpace c)) (rev s) ->
  trim s = s.
Proof.
  intros H1 H2; unfold trim.
  rewrite (dropWhile_id _ _ H1), (dropWhile_id _ _ H2).
  apply rev_involutive.
Qed.

Lemma trim_idempotent s : trim (trim s) = trim s.
Proof. apply trim_id; apply trim_ends. Qed.

Lemma trim_solid s : solid s -> trim s = s.
Proof.
  intros H; apply trim_id.
  - destruct H as [|c s Hc _]; simpl; [exact I | rewrite Hc; reflexivity].
  - assert (Hr : solid (rev s))
      by (apply Forall_forall; intros c Hc; apply in_rev in Hc;
          unfold solid in H; rewrite Forall_forall in H; auto).
    destruct Hr as [|c r Hc _]; simpl; [exact I | rewrite Hc; reflexivity].
Qed.

(** Trimming a string that starts, after white space, with a code unit
    to keep and holds another one: everything up to the latter is
    kept. *)
Lemma trim_anchor lead a c rest :
  blankString lead ->
  stopsAt (fun c => negb (isWhiteSpace c)) (a ++ [c]) ->
  isWhiteSpace c = false ->
  exists r1 r2, rest = r1 ++ r2 /\ trim (lead ++ a ++ c :: rest) = a ++ c :: r1.
Proof.
  intros Hlead Hhead Hc; unfold trim.
  rewrite (dropWhile_lead _ _ Hlead).
  assert (Hhead' : stopsAt (fun c => negb (isWhiteSpace c)) (a ++ c :: rest))
    by (destruct a; exact Hhead).
  rewrite (dropWhile_id _ _ Hhead').
  replace (rev (a ++ c :: rest)) with (rev rest ++ c :: rev a)
    by (rewrite rev_app_distr; simpl; rewrite <- app_assoc; reflexivity).
  destruct (dropWhile_anchor isWhiteSpace (rev rest) c (rev a) Hc)
    as (x1 & x2 & Hx & ->).
  exists (rev x2), (rev x1); split.
  - rewrite <- rev_app_distr, <- Hx, rev_involutive; reflexivity.
  - rewrite rev_app_distr; simpl; rewrite rev_involutive, <- app_assoc.
    reflexivity.
Qed.

End TextFacts.

(** ** Link targets *)

Module TargetFacts.

Lemma trim_blank s : blankString s -> trim s = [].
Proof.
  intros H; unfold trim.
  rewrite <- (app_nil_r s), (TextFacts.dropWhile_lead _ _ H); reflexivity.
Qed.

Lemma startsWith_one (u r : jsstring) c :
  u <> [] -> startsWith (u ++ r) [c] = startsWith u [c].
Proof. destruct u; [congruence | reflexivity]. Qed.

Lemma indexOf_app u c r :
  ~ In c u -> indexOf (u ++ c :: r) c = Some (length u).
Proof.
  induction u as [|x u IH]; intros H; simpl.
  - rewrite N.eqb_refl; reflexivity.
  - destruct (N.eqb_spec x c) as [-> | _]; [exfalso; apply H; left; reflexivity |].
    rewrite IH by (intros Hin; apply H; right; exact Hin); reflexivity.
Qed.

(** X3.  Of a markdown target made of a URL without white space that
    does not start with an angle bracket, with white space before it
    and, after it, nothing or white space and a title,
    [extractMarkdownUrl] returns the URL. *)
Theorem extractMarkdownUrl_drops_title lead u tail :
  blankString lead -> u <> [] -> solid u ->
  startsWith u (lit "<") = false ->
  stopsAt isWhiteSpace tail ->
  extractMarkdownUrl (lead ++ u ++ tail) = u.
Proof.
  intros Hlead Hu Hsolid Hangle Htail.
  destruct (exists_last Hu) as (a & c & ->).
  assert (Hc : isWhiteSpace c = false).
  { unfold solid in Hsolid; rewrite Forall_forall in Hsolid.
    apply Hsolid, in_or_app; right; left; reflexivity. }
  assert (Hhead : stopsAt (fun c => negb (isWhiteSpace c)) (a ++ [c])).
  { destruct Hsolid as [|d r Hd _]; simpl; [exact I | rewrite Hd; reflexivity]. }
  destruct (@TextFacts.trim_anchor lead a c tail Hlead Hhead Hc)
    as (r1 & r2 & Htl & Htrim).
  unfold extractMarkdownUrl.
  rewrite <- app_assoc; cbn [app]; rewrite Htrim.
  change (a ++ c :: r1) with (a ++ [c] ++ r1); rewrite app_assoc.
  assert (Hne : isEmpty ((a ++ [c]) ++ r1) = false) by (destruct a; reflexivity).
  change (lit "<") with [ch "<"] in Hangle |- *.
  rewrite Hne, (startsWith_one r1 (ch "<") Hu), Hangle.
  rewrite TextFacts.span_app; [reflexivity | |].
  - eapply Forall_impl; [| exact Hsolid]; intros d Hd; simpl.
    rewrite Hd; reflexivity.
  - subst tail; destruct r1 as [|d r1]; [exact I |]; simpl in *.
    rewrite Htail; reflexivity.
Qed.

Lemma extractMarkdownUrl_drops_title_witness :
  extractMarkdownUrl Samples.target_with_title = lit "https://x.com/page".
Proof.
  apply (@extractMarkdownUrl_drops_title (lit "  ") (lit "https://x.com/page")
           (lit " 'The page' ")).
  - repeat constructor.
  - discriminate.
  - repeat constructor.
  - reflexivity.
  - reflexivity.
Defined.

(** X4.  Of a markdown target that starts, after white space, with an
    angle bracket, [extractMarkdownUrl] returns what stands between
    that bracket and the first closing one, trimmed, white space inside
    included; what follows the closing bracket is dropped. *)
Theorem extractMarkdownUrl_angle_brackets lead u rest :
  blankString lead -> ~ In (ch ">") u ->
  extractMarkdownUrl (lead ++ ch "<" :: u ++ ch ">" :: rest) = trim u.
Proof.
  intros Hlead Hu.
  destruct (@TextFacts.trim_anchor lead (ch "<" :: u) (ch ">") rest Hlead)
    as (r1 & r2 & _ & Htrim); [reflexivity | reflexivity |].
  unfold extractMarkdownUrl.
  change (lead ++ ch "<" :: u ++ ch ">" :: rest)
    with (lead ++ (ch "<" :: u) ++ ch ">" :: rest).
  rewrite Htrim.
  cbn [app isEmpty].
  change (startsWith (ch "<" :: u ++ ch ">" :: r1) (lit "<")) with true.
  cbn [indexOf]. change (ch "<" =? ch ">")%N with false.
  rewrite (@indexOf_app u (ch ">") r1 Hu); cbn [option_map].
  unfold slice; cbn [skipn].
  replace (S (length u) - 1) with (length u + 0) by lia.
  rewrite firstn_app_2; cbn [firstn]; rewrite app_nil_r; reflexivity.
Qed.

Lemma extractMarkdownUrl_angle_brackets_witness :
  extractMarkdownUrl Samples.target_in_brackets = lit "https://x.com/my page".
Proof.
  assert (H : ~ In (ch ">") (lit "https://x.com/my page")).
  { intros Hin; vm_compute in Hin; intuition discriminate. }
  exact (@extractMarkdownUrl_angle_brackets (lit " ")
           (lit "https://x.com/my page") (lit " 'The page'")
           ltac:(repeat constructor) H).
Defined.

(** X5.  What [extractMarkdownUrl] returns has no white space at either
    end, and it is the empty string for a target of white space
    only. *)
Theorem extractMarkdownUrl_trimmed :
  (forall raw, trim (extractMarkdownUrl raw) = extractMarkdownUrl raw) /\
  (forall raw, blankString raw -> extractMarkdownUrl raw = []).
Proof.
  split.
  - intros raw; unfold extractMarkdownUrl.
    destruct (isEmpty (trim raw)); [reflexivity |].
    destruct (if startsWith (trim raw) (lit "<")
              then indexOf (trim raw) (ch ">") else None).
    + apply TextFacts.trim_idempotent.
    + apply TextFacts.trim_solid.
      destruct (TextFacts.span_spec (fun c => negb (isWhiteSpace c)) (trim raw))
        as (_ & H & _).
      eapply Forall_impl; [| exact H]; intros c Hc.
      apply negb_true_iff, Hc.
  - intros raw H; unfold extractMarkdownUrl.
    rewrite (trim_blank H); reflexivity.
Qed.

Lemma extractMarkdownUrl_trimmed_witness :
  blankString (lit "   ") /\ extractMarkdownUrl (lit "   ") = [].
Proof.
  assert (H : blankString (lit "   ")) by (repeat constructor).
  split; [exact H | exact (proj2 extractMarkdownUrl_trimmed _ H)].
Defined.

(** X6.  [stripQueryAndHash] returns the part of the URL before its
    first question mark or hash sign, the whole URL when it has none,
    and applying it again changes nothing. *)
Theorem stripQueryAndHash_prefix :
  (forall u tail,
      Forall (fun c => isQueryOrHash c = false) u ->
      stopsAt isQueryOrHash tail ->
      stripQueryAndHash (u ++ tail) = u) /\
  (forall url,
      exists u tail,
        url = u ++ tail /\ Forall (fun c => isQueryOrHash c = false) u /\
        stopsAt isQueryOrHash tail /\ stripQueryAndHash url = u) /\
  (forall url,
      stripQueryAndHash (stripQueryAndHash url) = stripQueryAndHash url).
Proof.
  assert (H1 : forall u tail,
             Forall (fun c => isQueryOrHash c = false) u ->
             stopsAt isQueryOrHash tail ->
             stripQueryAndHash (u ++ tail) = u).
  { intros u tail Hu Htail; unfold stripQueryAndHash.
    rewrite TextFacts.span_app; [reflexivity | |].
    - eapply Forall_impl; [| exact Hu]; intros c Hc.
      apply negb_true_iff, Hc.
    - destruct tail as [|c tail]; [exact I |].
      change (negb (negb (isQueryOrHash c)) = true).
      change (isQueryOrHash c = true) in Htail.
      rewrite Htail; reflexivity. }
  assert (H2 : forall url,
             exists u tail,
               url = u ++ tail /\ Forall (fun c => isQueryOrHash c = false) u /\
               stopsAt isQueryOrHash tail /\ stripQueryAndHash url = u).
  { intros url.
    pose (p := fun c => negb ((c =? ch "?") || (c =? ch "#"))%N).
    destruct (TextFacts.span_spec p url) as (Hsplit & Hu & Htail).
    exists (stripQueryAndHash url), (snd (span p url)).
    split; [exact Hsplit |]. split; [| split; [| reflexivity]].
    - eapply Forall_impl; [| exact Hu]; intros c Hc.
      apply negb_true_iff, Hc.
    - destruct (snd (span p url)) as [|c tail]; [exact I |].
      change (negb (negb (isQueryOrHash c)) = true) in Htail.
      rewrite negb_involutive in Htail; exact Htail. }
  split; [exact H1 |]. split; [exact H2 |].
  intros url; destruct (H2 url) as (u & tail & _ & Hu & _ & ->).
  rewrite <- (app_nil_r u) at 1; apply H1; [exact Hu | exact I].
Qed.

Lemma stripQueryAndHash_prefix_witness :
  stripQueryAndHash (lit "https://x.com/a.png" ++ lit "#top?x=1")
  = lit "https://x.com/a.png".
Proof.
  apply (proj1 stripQueryAndHash_prefix).
  - repeat constructor.
  - reflexivity.
Defined.

Section WithParser.

Variable parse : urlParser.

(** X7.  Whether a URL is classified as an image depends only on the
    part of it before its first question mark or hash sign. *)
Theorem isImageUrl_ignores_query_and_hash url :
  isImageUrl parse url = isImageUrl parse (stripQueryAndHash url).
Proof.
  unfold isImageUrl.
  rewrite (proj2 (proj2 stripQueryAndHash_prefix) url); reflexivity.
Qed.

(** X8.  [toExternalHttpUrl] ignores the white space around a target,
    and a target of white space only gives no URL whatever the parser
    would make of it. *)
Theorem toExternalHttpUrl_ignores_space :
  (forall raw, toExternalHttpUrl parse (trim raw) = toExternalHttpUrl parse raw) /\
  (forall raw, blankString raw -> toExternalHttpUrl parse raw = None).
Proof.
  split.
  - intros raw; unfold toExternalHttpUrl.
    rewrite TextFacts.trim_idempotent; reflexivity.
  - intros raw H; unfold toExternalHttpUrl.
    rewrite (trim_blank H); reflexivity.
Qed.

End WithParser.

Lemma toExternalHttpUrl_ignores_space_witness :
  blankString (lit "  ") /\
  toExternalHttpUrl (fun _ => Some (SampleUrls.https "x.com" "/" ""))
                    (lit "  ") = None.
Proof.
  assert (H : blankString (lit "  ")) by (repeat constructor).
  split; [exact H |].
  exact (proj2 (toExternalHttpUrl_ignores_space _) _ H).
Defined.

End TargetFacts.

(** ** File names without an extension *)

Module NoExtensionFacts.

Lemma rev_cons_app (a : jsstring) c b : rev (a ++ c :: b) = rev b ++ c :: rev a.
Proof. rewrite rev_app_distr; simpl; rewrite <- app_assoc; reflexivity. Qed.

Lemma plain_rev s : plain s -> plain (rev s).
Proof.
  intros H; apply Forall_forall; intros c Hc; apply in_rev in Hc.
  unfold plain in H; rewrite Forall_forall in H; auto.
Qed.

(** A last segment without a dot has no extension. *)
Lemma extname_no_dot dir base :
  base <> [] -> plain base -> extname (dir ++ ch "/" :: base) = [].
Proof.
  intros Hbase Hplain; unfold extname.
  rewrite rev_cons_app, length_app; cbn [length].
  replace (length dir + S (length base))
    with (length (rev base) + S (length dir))
    by (rewrite length_rev; lia).
  pose proof (plain_rev Hplain) as Hr.
  destruct (rev base) as [|y ys] eqn:E.
  { exfalso; apply Hbase; rewrite <- (rev_involutive base), E; reflexivity. }
  inversion Hr as [|? ? [Hslash Hdot] Hys]; subst.
  apply N.eqb_neq in Hslash, Hdot.
  cbn [length Nat.add app extnameScan extScan0].
  rewrite Hslash; cbn [endPos startDot extScan0 startPart preDotState].
  rewrite Hdot.
  rewrite ExtFacts.scan_plain by exact Hys.
  cbn [extnameScan]. change (ch "/" =? ch "/")%N with true.
  reflexivity.
Qed.

(** A last segment whose only dot is its first code unit has no
    extension. *)
Lemma extname_dot_file dir ext :
  plain ext -> extname (dir ++ ch "/" :: ch "." :: ext) = [].
Proof.
  intros Hplain; unfold extname.
  set (path := dir ++ ch "/" :: ch "." :: ext).
  assert (Hrev : rev path = rev ext ++ ch "." :: ch "/" :: rev dir).
  { unfold path; rewrite rev_cons_app; cbn [rev].
    rewrite <- app_assoc; reflexivity. }
  assert (Hlen : length path = length (rev ext) + S (S (length dir))).
  { unfold path; rewrite length_app, length_rev; cbn [length]; lia. }
  rewrite Hrev, Hlen.
  pose proof (plain_rev Hplain) as Hr.
  destruct (rev ext) as [|y ys] eqn:E.
  - cbn [length Nat.add app extnameScan extScan0].
    change (ch "." =? ch "/")%N with false.
    cbn [endPos startDot extScan0 startPart preDotState matchedSlash].
    change (ch "." =? ch ".")%N with true.
    cbn [extnameScan startDot]. change (ch "/" =? ch "/")%N with true.
    reflexivity.
  - inversion Hr as [|? ? [Hslash Hdot] Hys]; subst.
    apply N.eqb_neq in Hslash, Hdot.
    cbn [length Nat.add app extnameScan extScan0].
    rewrite Hslash; cbn [endPos startDot extScan0 startPart preDotState].
    rewrite Hdot.
    rewrite ExtFacts.scan_plain by exact Hys.
    cbn [extnameScan]. change (ch "." =? ch "/")%N with false.
    cbn [endPos startDot]. change (ch "." =? ch ".")%N with true.
    cbn [extnameScan startPart endPos matchedSlash preDotState].
    change (ch "/" =? ch "/")%N with true.
    reflexivity.
Qed.

(** X9.  A URL whose path ends in a file name without a dot, or in a
    file name whose only dot is its first code unit, is not classified
    as an image, whatever stands after that dot. *)
Theorem isImageUrl_needs_extension parse u p dir base :
  parse (stripQueryAndHash u) = Some p ->
  pathname p = dir ++ ch "/" :: base ->
  (base <> [] /\ plain base) \/ (exists ext, base = ch "." :: ext /\ plain ext) ->
  isImageUrl parse u = false.
Proof.
  intros Hparse Hpath Hbase; unfold isImageUrl; rewrite Hparse, Hpath.
  destruct Hbase as [[Hne Hplain] | (ext & -> & Hplain)].
  - rewrite extname_no_dot by assumption; reflexivity.
  - rewrite extname_dot_file by assumption; reflexivity.
Qed.

Lemma isImageUrl_needs_extension_witness :
  isImageUrl SampleUrls.parse (lit "https://x.com/.png") = false.
Proof.
  apply (@isImageUrl_needs_extension SampleUrls.parse
           (lit "https://x.com/.png") (SampleUrls.https "x.com" "/.png" "")
           [] (lit ".png")).
  - vm_compute; reflexivity.
  - vm_compute; reflexivity.
  - right; exists (lit "png"); split; [reflexivity |].
    repeat constructor; discriminate.
Defined.

End NoExtensionFacts.

(** ** Stripping, once more *)

Module DocumentFacts.

Lemma CODE_BLOCK_length s n : CODE_BLOCK_REGEX s = Some n -> 6 <= n.
Proof.
  unfold CODE_BLOCK_REGEX.
  destruct (startsWith s fence); [| discriminate].
  destruct (findFence (skipn 3 s)); [| discriminate].
  intros [= <-]; lia.
Qed.

Lemma noFence_skipn k : forall s, noFence s -> noFence (skipn k s).
Proof.
  induction k as [|k IH]; intros [|c s] H; simpl; auto.
  apply IH; apply StripFacts.noFence_cons in H; tauto.
Qed.

Lemma startsWith_short (p s : jsstring) :
  length s < length p -> startsWith s p = false.
Proof.
  revert s; induction p as [|x p IH]; intros [|c s] H; simpl in *;
    try lia; try reflexivity.
  rewrite IH by lia; apply andb_false_r.
Qed.

Lemma noFence_short s : length s <= 2 -> noFence s.
Proof.
  induction s as [|c s IH]; intros H; [reflexivity |].
  apply StripFacts.noFence_cons; split.
  - apply startsWith_short; change (length fence) with 3; lia.
  - apply IH; simpl in H; lia.
Qed.

Lemma noFence_breaks k s : noFence s -> noFence (repeat LF k ++ s).
Proof.
  intros H; induction k as [|k IH]; [exact H |].
  apply StripFacts.noFence_cons; split; [reflexivity | exact IH].
Qed.

(** A document in which no fence starts from the fourth code unit on
    has no code block. *)
Lemma stripCodeBlocks_no_closing s :
  noFence (skipn 3 s) -> stripCodeBlocks s = s.
Proof.
  induction s as [|c s IH]; intros H; [reflexivity |].
  rewrite StripFacts.stripCodeBlocks_cons.
  assert (E : CODE_BLOCK_REGEX (c :: s) = None).
  { unfold CODE_BLOCK_REGEX; unfold noFence in H; rewrite H.
    destruct (startsWith (c :: s) fence); reflexivity. }
  rewrite E, IH; [reflexivity |].
  change (skipn 3 (c :: s)) with (skipn 2 s) in H.
  change 3 with (1 + 2); rewrite <- skipn_skipn.
  apply noFence_skipn, H.
Qed.

Lemma stripCodeBlocks_other c s :
  c <> ch "`" -> stripCodeBlocks (c :: s) = c :: stripCodeBlocks s.
Proof.
  intros Hc; rewrite StripFacts.stripCodeBlocks_cons.
  unfold CODE_BLOCK_REGEX; change fence with [ch "`"; ch "`"; ch "`"].
  cbn [startsWith]. apply N.eqb_neq in Hc; rewrite Hc; reflexivity.
Qed.

Lemma startsWith_cons c s x p :
  startsWith (c :: s) (x :: p) = (c =? x)%N && startsWith s p.
Proof. reflexivity. Qed.

(** Stripping does not bring two backquotes to the front. *)
Lemma stripCodeBlocks_two s :
  startsWith s (lit "``") = false ->
  startsWith (stripCodeBlocks s) (lit "``") = false.
Proof.
  change (lit "``") with [ch "`"; ch "`"].
  destruct s as [|a s]; intros H; [reflexivity |].
  destruct (N.eqb_spec a (ch "`")) as [-> | Ha].
  - rewrite startsWith_cons, N.eqb_refl in H; cbn [andb] in H.
    assert (E : CODE_BLOCK_REGEX (ch "`" :: s) = None).
    { unfold CODE_BLOCK_REGEX; change fence with [ch "`"; ch "`"; ch "`"].
      rewrite startsWith_cons, N.eqb_refl; cbn [andb].
      destruct s as [|b s]; [reflexivity |].
      rewrite startsWith_cons in H |- *.
      destruct (b =? ch "`")%N; [| reflexivity].
      cbn [andb startsWith] in H; discriminate. }
    rewrite StripFacts.stripCodeBlocks_cons, E.
    rewrite startsWith_cons, N.eqb_refl; cbn [andb].
    destruct s as [|b s]; [reflexivity |].
    rewrite startsWith_cons in H.
    destruct (N.eqb_spec b (ch "`")) as [-> | Hb];
      [cbn [andb startsWith] in H; discriminate |].
    rewrite (stripCodeBlocks_other s Hb), startsWith_cons.
    apply N.eqb_neq in Hb; rewrite Hb; reflexivity.
  - rewrite (stripCodeBlocks_other s Ha), startsWith_cons.
    apply N.eqb_neq in Ha; rewrite Ha; reflexivity.
Qed.

(** Where the pattern does not match, it does not match once what
    follows has been stripped. *)
Lemma no_match_preserved c s :
  CODE_BLOCK_REGEX (c :: s) = None ->
  CODE_BLOCK_REGEX (c :: stripCodeBlocks s) = None.
Proof.
  intros E.
  assert (Hcons : stripCodeBlocks (c :: s) = c :: stripCodeBlocks s)
    by (rewrite StripFacts.stripCodeBlocks_cons, E; reflexivity).
  unfold CODE_BLOCK_REGEX in E.
  destruct (startsWith (c :: s) fence) eqn:Es.
  - assert (Hno : noFence (skipn 3 (c :: s)))
      by (unfold noFence; destruct (findFence (skipn 3 (c :: s)));
          [discriminate | reflexivity]).
    rewrite (stripCodeBlocks_no_closing _ Hno) in Hcons.
    injection Hcons as <-.
    unfold CODE_BLOCK_REGEX; rewrite Es; unfold noFence in Hno; rewrite Hno.
    reflexivity.
  - unfold CODE_BLOCK_REGEX.
    change fence with [ch "`"; ch "`"; ch "`"] in Es |- *.
    rewrite startsWith_cons in Es |- *.
    destruct (c =? ch "`")%N; [| reflexivity].
    cbn [andb] in Es |- *.
    change [ch "`"; ch "`"] with (lit "``") in Es |- *.
    rewrite (stripCodeBlocks_two _ Es); reflexivity.
Qed.

Lemma stripCodeBlocks_idempotent_upto n : forall d,
  length d <= n -> stripCodeBlocks (stripCodeBlocks d) = stripCodeBlocks d.
Proof.
  induction n as [|n IH]; intros [|c s] Hl; try reflexivity;
    [simpl in Hl; lia |].
  rewrite StripFacts.stripCodeBlocks_cons.
  destruct (CODE_BLOCK_REGEX (c :: s)) as [[|len]|] eqn:E.
  - apply CODE_BLOCK_length in E; lia.
  - unfold lineBreaks.
    rewrite StripFacts.stripCodeBlocks_text
      by (apply noFence_breaks, noFence_short; rewrite length_firstn; lia).
    rewrite IH; [reflexivity |].
    rewrite length_skipn; simpl in Hl; lia.
  - rewrite StripFacts.stripCodeBlocks_cons, (no_match_preserved _ _ E).
    rewrite IH; [reflexivity | simpl in Hl; lia].
Qed.

(** X10.  Stripping the code blocks of a stripped document changes
    nothing, so the links of a document are the links of its stripped
    text. *)
Theorem stripCodeBlocks_idempotent :
  (forall d, stripCodeBlocks (stripCodeBlocks d) = stripCodeBlocks d) /\
  (forall parse d,
      collectFileLinks parse (stripCodeBlocks d) = collectFileLinks parse d).
Proof.
  assert (H : forall d, stripCodeBlocks (stripCodeBlocks d) = stripCodeBlocks d)
    by (intros d; apply (stripCodeBlocks_idempotent_upto (n := length d));
        reflexivity).
  split; [exact H |].
  intros parse d; unfold collectFileLinks; rewrite H; reflexivity.
Qed.

Lemma countNewlines_le s : countNewlines s <= length s.
Proof. apply filter_length_le. Qed.

Lemma length_replaceFrom m s : forall k,
  length (Regex.replaceFrom m lineBreaks k s) <= length (skipn k s).
Proof.
  induction s as [|c s IH]; intros [|k]; try (simpl; lia).
  - simpl Regex.replaceFrom; simpl skipn.
    destruct (m (c :: s)) as [[|len]|];
      try (simpl; specialize (IH 0); simpl in IH; lia).
    rewrite length_app; unfold lineBreaks at 1; rewrite repeat_length.
    specialize (IH len).
    pose proof (countNewlines_le (c :: firstn len s)) as H.
    rewrite <- (firstn_skipn len s) at 3.
    simpl length in *; rewrite length_app; lia.
  - simpl; apply IH.
Qed.

(** X11.  A document without a closing fence is left as it is: one
    that holds no fence, and one with an opening fence after which no
    fence stands, so that nothing closes the block.  A link after such
    an opening fence is therefore in the stripped text.  And stripping
    never makes a document longer. *)
Theorem stripCodeBlocks_unclosed :
  (forall d, noFence d -> stripCodeBlocks d = d) /\
  (forall t r,
      noFence (t ++ lit "``") -> noFence r ->
      stripCodeBlocks (t ++ fence ++ r) = t ++ fence ++ r) /\
  (forall d, length (stripCodeBlocks d) <= length d).
Proof.
  split; [| split].
  - intros d H; apply stripCodeBlocks_no_closing, noFence_skipn, H.
  - intros t r Ht Hr.
    rewrite StripFacts.stripCodeBlocks_text by exact Ht.
    rewrite (stripCodeBlocks_no_closing (fence ++ r)) by exact Hr.
    reflexivity.
  - intros d; unfold stripCodeBlocks, Regex.replaceAll.
    apply (length_replaceFrom CODE_BLOCK_REGEX d 0).
Qed.

Lemma stripCodeBlocks_unclosed_witness :
  stripCodeBlocks (Samples.unclosed_before ++ fence ++ Samples.unclosed_after)
  = Samples.unclosed_before ++ fence ++ Samples.unclosed_after.
Proof.
  apply (proj1 (proj2 stripCodeBlocks_unclosed)); reflexivity.
Defined.

(** X12.  [lineNumberAt] counts lines from 1: it is 1 at index 0, it
    never decreases with the index, it is one more than the number of
    line breaks before the index, and from the end of the text on it is
    the number of lines of the text. *)
Theorem lineNumberAt_counts_lines content :
  lineNumberAt content 0 = 1 /\
  (forall i j, i <= j -> lineNumberAt content i <= lineNumberAt content j) /\
  (forall a b, content = a ++ b ->
               lineNumberAt content (length a) = S (countNewlines a)) /\
  (forall i, length content <= i ->
             lineNumberAt content i = length (splitOn LF content)).
Proof.
  split; [reflexivity |]. split; [| split].
  - intros i j; apply LineFacts.lineNumberAt_mono.
  - intros a b ->; rewrite LineFacts.lineNumberAt_count.
    replace (length a) with (length a + 0) by lia.
    rewrite firstn_app_2; simpl; rewrite app_nil_r; reflexivity.
  - intros i Hi; rewrite LineFacts.lineNumberAt_count, firstn_all2 by exact Hi.
    rewrite LineFacts.length_splitOn; reflexivity.
Qed.

Lemma lineNumberAt_counts_lines_witness :
  lineNumberAt (lit "a" ++ [LF] ++ lit "b") 2 = 2 /\
  lineNumberAt (lit "a" ++ [LF] ++ lit "b") 7 = 2.
Proof.
  pose proof (lineNumberAt_counts_lines (lit "a" ++ [LF] ++ lit "b"))
    as (_ & _ & Hat & Hend).
  split.
  - apply (Hat (lit "a" ++ [LF]) (lit "b")); reflexivity.
  - rewrite Hend by (simpl; lia); reflexivity.
Defined.

Section WithParser.

Variable parse : urlParser.

Lemma countNewlines_firstn_total d j :
  countNewlines (firstn j d) <= countNewlines d.
Proof.
  rewrite <- (firstn_skipn j d) at 2.
  rewrite LineFacts.countNewlines_app; lia.
Qed.

(** X13.  The line of every extracted link is a line of the file: at
    least 1 and at most the number of lines of the original text. *)
Theorem link_lines_in_file d l :
  In l (collectFileLinks parse d) ->
  1 <= link_line l <= length (splitOn LF d).
Proof.
  intros H; apply ExtractFacts.link_origin in H as (j & -> & _).
  rewrite LineFacts.lineNumberAt_count, LineFacts.length_splitOn.
  pose proof (countNewlines_firstn_total d j) as Hle.
  unfold countNewlines in *; lia.
Qed.

(** X14.  A text without an opening square bracket and without an
    opening angle bracket has no link: a bare URL is not extracted. *)
Theorem no_bracket_no_link d :
  ~ In (ch "[") d -> ~ In (ch "<") d -> collectFileLinks parse d = [].
Proof.
  intros Hsq Han.
  destruct (collectFileLinks parse d) as [|l ls] eqn:E; [reflexivity |].
  assert (H : In l (collectFileLinks parse d)) by (rewrite E; left; reflexivity).
  apply ExtractFacts.link_origin in H as (j & _ & [H | H] & _);
    apply nth_error_In in H; contradiction.
Qed.

End WithParser.

Lemma link_lines_in_file_witness :
  let d := render Samples.fenced ++ Samples.after_fence in
  let l := mkLink (lit "https://x.com/page") 5 in
  In l (collectFileLinks SampleUrls.parse d) /\
  1 <= link_line l <= length (splitOn LF d).
Proof.
  intros d l.
  assert (H : In l (collectFileLinks SampleUrls.parse d))
    by (vm_compute; left; reflexivity).
  split; [exact H | exact (link_lines_in_file _ _ _ H)].
Defined.

Lemma no_bracket_no_link_witness :
  collectFileLinks SampleUrls.parse (lit "see https://x.com/page (broken)") = [].
Proof.
  apply no_bracket_no_link;
    intros H; vm_compute in H; intuition discriminate.
Defined.

End DocumentFacts.

(** ** What the patterns match *)

Module PatternFacts.

Lemma notIn_Forall c (l : jsstring) :
  ~ In c l <-> Forall (fun x => negb (x =? c)%N = true) l.
Proof.
  rewrite Forall_forall; split.
  - intros H x Hx; apply negb_true_iff, N.eqb_neq; intros ->; auto.
  - intros H Hin; specialize (H c Hin).
    rewrite N.eqb_refl in H; discriminate.
Qed.

Lemma span_eq p s a b :
  span p s = (a, b) ->
  s = a ++ b /\ Forall (fun c => p c = true) a /\
  stopsAt (fun c => negb (p c)) b.
Proof.
  intros E; pose proof (TextFacts.span_spec p s) as H.
  rewrite E in H; exact H.
Qed.

(** X15.  The markdown-link pattern matches at a place exactly when no
    exclamation mark precedes it and the text there is an opening
    square bracket, a text without closing square bracket, a closing
    square bracket, an opening parenthesis, a non-empty target without
    closing parenthesis and line break, and a closing parenthesis; the
    capture is that target. *)
Theorem MARKDOWN_LINK_REGEX_shape before s n target :
  MARKDOWN_LINK_REGEX before s = Some (n, target) <->
  before <> Some (ch "!") /\
  exists text rest,
    s = ch "[" :: text ++ ch "]" :: ch "(" :: target ++ ch ")" :: rest /\
    ~ In (ch "]") text /\ target <> [] /\
    ~ In (ch ")") target /\ ~ In LF target /\
    n = length text + length target + 4.
Proof.
  unfold MARKDOWN_LINK_REGEX; split.
  - intros H.
    assert (Hb : before <> Some (ch "!")).
    { intros ->; rewrite N.eqb_refl in H; discriminate. }
    split; [exact Hb |].
    destruct (match before with Some c => (c =? ch "!")%N | None => false end);
      [discriminate |].
    destruct s as [|c s1]; [discriminate |].
    destruct (N.eqb_spec c (ch "[")) as [-> | _]; [| discriminate].
    cbn [negb] in H.
    destruct (span (fun c => negb (c =? ch "]")%N) s1) as [text s2] eqn:E1.
    apply span_eq in E1 as (-> & Htext & _).
    destruct s2 as [|c1 [|c2 s3]]; try discriminate.
    destruct (N.eqb_spec c1 (ch "]")) as [-> | _]; [| discriminate].
    destruct (N.eqb_spec c2 (ch "(")) as [-> | _]; [| discriminate].
    cbn [negb andb] in H.
    destruct (span (fun c => negb (c =? ch ")")%N && negb (c =? LF)%N) s3)
      as [tg s4] eqn:E2.
    apply span_eq in E2 as (-> & Htg & _).
    destruct tg as [|t0 tg]; [discriminate |].
    destruct s4 as [|c3 s4]; [discriminate |].
    destruct (N.eqb_spec c3 (ch ")")) as [-> | _]; [| discriminate].
    injection H as <- <-.
    exists text, s4; split; [reflexivity |].
    split; [apply notIn_Forall, Htext |].
    split; [discriminate |].
    split; [| split; [| simpl; lia]].
    + apply notIn_Forall; eapply Forall_impl; [| exact Htg].
      intros c Hc; apply andb_true_iff in Hc; tauto.
    + apply notIn_Forall; eapply Forall_impl; [| exact Htg].
      intros c Hc; apply andb_true_iff in Hc; tauto.
  - intros (Hb & text & rest & -> & Htext & Hne & Hpar & Hlf & ->).
    assert (Eb : match before with Some c => (c =? ch "!")%N | None => false end
                 = false).
    { destruct before as [b|]; [| reflexivity].
      apply N.eqb_neq; intros ->; apply Hb; reflexivity. }
    rewrite Eb, N.eqb_refl; cbn [negb].
    rewrite TextFacts.span_app;
      [| apply notIn_Forall, Htext | reflexivity].
    rewrite !N.eqb_refl; cbn [negb andb].
    rewrite TextFacts.span_app; [| | reflexivity].
    + destruct target as [|t0 tg]; [congruence |].
      rewrite N.eqb_refl; f_equal; f_equal; simpl; lia.
    + apply notIn_Forall in Hpar, Hlf.
      rewrite Forall_forall in *; intros c Hc.
      rewrite (Hpar c Hc), (Hlf c Hc); reflexivity.
Qed.

Lemma startsWith_spec p : forall s,
  startsWith s p = true -> s = p ++ skipn (length p) s.
Proof.
  induction p as [|x p IH]; intros s H; [reflexivity |].
  destruct s as [|c s]; [discriminate |].
  cbn [startsWith] in H; apply andb_true_iff in H as [Hc Hs].
  apply N.eqb_eq in Hc; subst; simpl; f_equal; apply IH, Hs.
Qed.

(** X16.  The autolink pattern matches at a place exactly when the text
    there is an opening angle bracket, [http://] or [https://], a
    non-empty run of code units without white space and closing angle
    bracket, and a closing angle bracket; the capture is what stands
    between the brackets. *)
Theorem AUTOLINK_REGEX_shape before s n target :
  AUTOLINK_REGEX before s = Some (n, target) <->
  exists scheme body rest,
    (scheme = lit "http://" \/ scheme = lit "https://") /\
    s = ch "<" :: scheme ++ body ++ ch ">" :: rest /\
    body <> [] /\ solid body /\ ~ In (ch ">") body /\
    target = scheme ++ body /\ n = length target + 2.
Proof.
  unfold AUTOLINK_REGEX; split.
  - intros H.
    destruct s as [|c s1]; [discriminate |].
    destruct (N.eqb_spec c (ch "<")) as [-> | _]; [| discriminate].
    cbn [negb] in H.
    assert (Hk : exists scheme r,
               (scheme = lit "http://" \/ scheme = lit "https://") /\
               s1 = scheme ++ r /\
               (let (body, s2) :=
                  span (fun c => negb (c =? ch ">")%N && negb (isWhiteSpace c)) r in
                match body, s2 with
                | _ :: _, c2 :: _ =>
                    if (c2 =? ch ">")%N
                    then Some (1 + length scheme + length body + 1,
                               scheme ++ body)
                    else None
                | _, _ => None
                end) = Some (n, target)).
    { destruct (startsWith s1 (lit "https://")) eqn:E8.
      - apply startsWith_spec in E8.
        assert (Hf : firstn 8 s1 = lit "https://")
          by (rewrite E8; reflexivity).
        exists (lit "https://"), (skipn 8 s1); split; [auto |].
        split; [exact E8 |].
        rewrite Hf in H; exact H.
      - destruct (startsWith s1 (lit "http://")) eqn:E7; [| discriminate].
        apply startsWith_spec in E7.
        assert (Hf : firstn 7 s1 = lit "http://")
          by (rewrite E7; reflexivity).
        exists (lit "http://"), (skipn 7 s1); split; [auto |].
        split; [exact E7 |].
        rewrite Hf in H; exact H. }
    destruct Hk as (scheme & r & Hscheme & -> & Hk).
    destruct (span (fun c => negb (c =? ch ">")%N && negb (isWhiteSpace c)) r)
      as [body s2] eqn:E.
    apply span_eq in E as (-> & Hbody & _).
    destruct body as [|b0 body]; [discriminate |].
    destruct s2 as [|c2 s2]; [discriminate |].
    destruct (N.eqb_spec c2 (ch ">")) as [-> | _]; [| discriminate].
    injection Hk as <- <-.
    exists scheme, (b0 :: body), s2.
    split; [exact Hscheme |]. split; [reflexivity |].
    split; [discriminate |].
    split; [| split; [| split; [reflexivity |
                                rewrite length_app; cbn [length]; lia]]].
    + eapply Forall_impl; [| exact Hbody].
      intros c Hc; apply andb_true_iff in Hc as [_ Hc].
      apply negb_true_iff, Hc.
    + apply notIn_Forall; eapply Forall_impl; [| exact Hbody].
      intros c Hc; apply andb_true_iff in Hc; tauto.
  - intros (scheme & body & rest & Hscheme & -> & Hne & Hsolid & Hgt & -> & ->).
    rewrite N.eqb_refl; cbn [negb].
    assert (Hspan : span (fun c => negb (c =? ch ">")%N && negb (isWhiteSpace c))
                         (body ++ ch ">" :: rest) = (body, ch ">" :: rest)).
    { apply TextFacts.span_app; [| reflexivity].
      apply notIn_Forall in Hgt.
      unfold solid in Hsolid; rewrite Forall_forall in *; intros c Hc.
      rewrite (Hgt c Hc), (Hsolid c Hc); reflexivity. }
    destruct Hscheme as [-> | ->].
    + change (startsWith (lit "http://" ++ body ++ ch ">" :: rest) (lit "https://"))
        with false.
      change (startsWith (lit "http://" ++ body ++ ch ">" :: rest) (lit "http://"))
        with true.
      cbv beta iota zeta.
      change (skipn 7 (lit "http://" ++ body ++ ch ">" :: rest))
        with (body ++ ch ">" :: rest).
      change (firstn 7 (lit "http://" ++ body ++ ch ">" :: rest))
        with (lit "http://").
      rewrite Hspan.
      destruct body as [|b0 body]; [congruence |].
      rewrite N.eqb_refl; f_equal; f_equal.
      rewrite length_app; simpl; lia.
    + change (startsWith (lit "https://" ++ body ++ ch ">" :: rest) (lit "https://"))
        with true.
      cbv beta iota zeta.
      change (skipn 8 (lit "https://" ++ body ++ ch ">" :: rest))
        with (body ++ ch ">" :: rest).
      change (firstn 8 (lit "https://" ++ body ++ ch ">" :: rest))
        with (lit "https://").
      rewrite Hspan.
      destruct body as [|b0 body]; [congruence |].
      rewrite N.eqb_refl; f_equal; f_equal.
      rewrite length_app; simpl; lia.
Qed.

End PatternFacts.

(** ** The verdicts of the checker *)

Module VerdictFacts.

Import Checker.

#[local] Abbreviation verdict := Checker.reason.

Lemma classify_ok s :
  ok (classify (mkResponse s)) = true
  <-> ((200 <= s < 400)%N \/ s = 403%N \/ s = 429%N).
Proof.
  unfold classify, has_status, ACCEPTED_STATUSES; cbn [status existsb].
  destruct (N.eqb_spec s 404) as [-> | H404];
    [split; [discriminate | intros [H | [H | H]]; [lia | discriminate ..]] |].
  destruct (N.eqb_spec s 403) as [-> | H403]; [cbn; tauto |].
  destruct (N.eqb_spec s 429) as [-> | H429]; [cbn; tauto |].
  cbn [orb].
  destruct (N.ltb_spec s 200) as [Hlt | Hge]; cbn [orb ok fail].
  - split; [discriminate | lia].
  - destruct (N.leb_spec 400 s) as [Hhi | Hlo]; cbn [ok fail pass].
    + split; [discriminate | lia].
    + split; [lia | reflexivity].
Qed.

Lemma classify_reason r :
  (ok (classify r) = true /\ verdict (classify r) = None) \/
  (ok (classify r) = false /\ exists m, verdict (classify r) = Some m).
Proof.
  unfold classify.
  destruct (status r =? 404)%N; [right; cbn; eauto |].
  destruct (has_status ACCEPTED_STATUSES (status r)); [left; cbn; auto |].
  destruct ((status r <? 200)%N || (400 <=? status r)%N);
    [right; cbn; eauto | left; cbn; auto].
Qed.

Lemma handler_fails e :
  ok (handler e) = false /\ exists m, verdict (handler e) = Some m.
Proof.
  unfold handler.
  destruct (isError e && Js.eqb (name e) (lit "AbortError")); cbn; eauto.
Qed.

(** What [checkUrl] returns comes from the classification of an answer
    or from the handler of an exception. *)
Lemma checkUrl_cases net u :
  (exists s, finalResponse net u s /\ checkUrl net u = classify (mkResponse s))
  \/ (exists e, checkUrl net u = handler e /\
                (forall s, ~ finalResponse net u s)).
Proof.
  unfold checkUrl, checkUrlWith, fetchWithTimeout.
  destruct (net u HEAD) as [h | e |] eqn:Eh; cbn [bind status].
  - destruct (needsGet h) eqn:Eg.
    + destruct (net u GET) as [s | e |] eqn:Egt; cbn [bind].
      * left; exists s; split; [eapply final_get; eauto | reflexivity].
      * right; exists e; split; [reflexivity |].
        intros s H; inversion H; congruence.
      * right; exists abortError; split; [reflexivity |].
        intros s H; inversion H; congruence.
    + left; exists h; split; [apply final_head; auto | reflexivity].
  - right; exists e; split; [reflexivity |].
    intros s H; inversion H; congruence.
  - right; exists abortError; split; [reflexivity |].
    intros s H; inversion H; congruence.
Qed.

Lemma checkUrl_reason net u :
  (ok (checkUrl net u) = true /\ verdict (checkUrl net u) = None) \/
  (ok (checkUrl net u) = false /\ exists m, verdict (checkUrl net u) = Some m).
Proof.
  destruct (checkUrl_cases net u) as [(s & _ & ->) | (e & -> & _)].
  - apply classify_reason.
  - right; apply handler_fails.
Qed.

Lemma rejected_throws net u e :
  rejectedWith net u e -> checkUrl net u = handler e.
Proof.
  intros H; unfold checkUrl, checkUrlWith, fetchWithTimeout.
  destruct H as [e H | h e Hh Hg He].
  - rewrite H; reflexivity.
  - rewrite Hh; cbn [bind status]; rewrite Hg, He; reflexivity.
Qed.

(** X17.  The result of [checkUrl] carries a reason exactly when the
    check fails: a passing result has none, a failing one has one.  So
    the report [main] pushes for a failed check carries the reason
    [checkUrl] gave, and the default reason of the worker is never
    used. *)
Theorem checkUrl_reason_iff_failed net u :
  ((ok (checkUrl net u) = true /\ verdict (checkUrl net u) = None) \/
   (ok (checkUrl net u) = false /\
    exists m, verdict (checkUrl net u) = Some m))
  /\ (forall table failed,
         ok (checkUrl net u) = false ->
         exists m, verdict (checkUrl net u) = Some m /\
                   worker net table u failed
                   = failed ++ [mkFailed u m
                                  (match JsMap.get table u with
                                   | Some o => o
                                   | None => []
                                   end)]).
Proof.
  split; [apply checkUrl_reason |].
  intros table failed Hok.
  destruct (checkUrl_reason net u) as [[H _] | [_ [m Hm]]]; [congruence |].
  exists m; split; [exact Hm |].
  unfold worker; rewrite Hok, Hm; reflexivity.
Qed.

(** X18.  [checkUrl] passes a URL exactly when a final response
    arrives whose status is in the range 200-399, or is 403 or 429. *)
Theorem checkUrl_passes_iff net u :
  ok (checkUrl net u) = true
  <-> exists s, finalResponse net u s /\
                ((200 <= s < 400)%N \/ s = 403%N \/ s = 429%N).
Proof.
  destruct (checkUrl_cases net u) as [(s & Hs & ->) | (e & -> & Hno)].
  - rewrite classify_ok; split.
    + intros H; exists s; auto.
    + intros (s' & Hs' & H').
      assert (s' = s); [| subst; exact H'].
      inversion Hs; inversion Hs'; congruence.
  - destruct (handler_fails e) as [-> _]; split; [discriminate |].
    intros (s & Hs & _); elim (Hno s Hs).
Qed.

(** X19.  When a request of the check is rejected with an exception
    before the timer fires, the check fails, and its reason is the
    message of the exception; it is the word timeout when the exception
    is an [Error] named AbortError, and the words unknown error when
    what was thrown is not an [Error]. *)
Theorem checkUrl_rejected net u e :
  rejectedWith net u e ->
  (isError e = true -> name e <> lit "AbortError" ->
   checkUrl net u = fail (message e))
  /\ (isError e = true -> name e = lit "AbortError" ->
      checkUrl net u = fail (lit "timeout"))
  /\ (isError e = false -> checkUrl net u = fail (lit "unknown error")).
Proof.
  intros H; rewrite (rejected_throws H); unfold handler.
  split; [| split].
  - intros -> Hn.
    destruct (Js.eqb (name e) (lit "AbortError")) eqn:E; [| reflexivity].
    apply JsFacts.eqb_eq in E; contradiction.
  - intros -> ->; rewrite JsFacts.eqb_refl; reflexivity.
  - intros ->; reflexivity.
Qed.

Lemma checkUrl_rejected_witness :
  rejectedWith Samples.net_refused (lit "https://x.com/") 
    (mkThrown true (lit "TypeError") (lit "fetch failed"))
  /\ checkUrl Samples.net_refused (lit "https://x.com/")
     = fail (lit "fetch failed").
Proof.
  assert (H : rejectedWith Samples.net_refused (lit "https://x.com/")
                (mkThrown true (lit "TypeError") (lit "fetch failed")))
    by (apply rejected_head; reflexivity).
  split; [exact H |].
  apply (proj1 (checkUrl_rejected H)); [reflexivity | discriminate].
Defined.

Lemma checkUrl_reason_iff_failed_witness :
  ok (checkUrl Samples.net_404 (lit "https://x.com/")) = false /\
  exists m,
    verdict (checkUrl Samples.net_404 (lit "https://x.com/")) = Some m /\
    worker Samples.net_404 [] (lit "https://x.com/") []
    = [] ++ [mkFailed (lit "https://x.com/") m [] ].
Proof.
  split; [reflexivity |].
  apply (proj2 (checkUrl_reason_iff_failed Samples.net_404
                  (lit "https://x.com/")) [] []); reflexivity.
Defined.

Lemma checkUrl_passes_iff_witness :
  (exists s, finalResponse Samples.net_404_200 (lit "https://x.com/") s /\
             ((200 <= s < 400)%N \/ s = 403%N \/ s = 429%N))
  /\ ok (checkUrl Samples.net_404_200 (lit "https://x.com/")) = true.
Proof.
  assert (H : exists s,
             finalResponse Samples.net_404_200 (lit "https://x.com/") s /\
             ((200 <= s < 400)%N \/ s = 403%N \/ s = 429%N)).
  { exists 200%N; split; [| left; lia].
    eapply final_get; reflexivity. }
  split; [exact H |].
  apply (proj2 (checkUrl_passes_iff Samples.net_404_200
                  (lit "https://x.com/"))); exact H.
Defined.

End VerdictFacts.

(** ** The bounds of the concurrency harness *)

Module HarnessFacts.

Import Pool.

Section Facts.

Variables (T St : Type).
Variable items : list T.
Variable finish : T -> St -> St.
Variable s0 : St.

Lemma length_awaited (l : list (slot T)) : length (awaited l) <= length l.
Proof.
  unfold awaited.
  induction l as [| [item | |] l IH]; cbn [flat_map app length]; lia.
Qed.

Lemma run_from_init limit n p :
  run items finish n (init items limit s0) p ->
  invariant items limit finish s0 p.
Proof.
  intros Hrun.
  exact (proj1 (PoolFacts.run_invariant Hrun
                  (PoolFacts.init_invariant items limit finish s0))).
Qed.

(** With one closure, the calls made are the calls settled and then the
    call awaited. *)
Lemma step_sequential p q :
  length (slots p) <= 1 ->
  started p = settled p ++ awaited (slots p) ->
  step items finish p q ->
  started q = settled q ++ awaited (slots q).
Proof.
  intros Hlen J Hstep.
  destruct Hstep as [p k item Hk | p k Hk].
  - cbn [started settled slots].
    destruct (slots p) as [| x [| y l]]; cbn [length] in Hlen; [| | lia].
    + destruct k; discriminate.
    + destruct k as [| k]; [| destruct k; discriminate].
      injection Hk as ->.
      cbn [awaited flat_map app setSlot] in *.
      rewrite J, app_nil_r; reflexivity.
  - unfold loopHead.
    destruct (slots p) as [| x [| y l]] eqn:E; cbn [length] in Hlen; [| | lia].
    + destruct k; discriminate.
    + destruct k as [| k]; [| destruct k; discriminate].
      injection Hk as ->.
      cbn [awaited flat_map app] in J; rewrite app_nil_r in J.
      destruct (nth_error items (index p)) as [item |];
        unfold withSlots; cbn [started settled slots index shared];
        try rewrite E; cbn [setSlot awaited flat_map app].
      * rewrite J; reflexivity.
      * rewrite J, app_nil_r; reflexivity.
Qed.

Lemma run_sequential n p q :
  run items finish n p q ->
  invariant items 1 finish s0 p ->
  started p = settled p ++ awaited (slots p) ->
  started q = settled q ++ awaited (slots q).
Proof.
  induction 1 as [p | n p q r Hstep _ IH]; intros I J; [exact J |].
  apply IH.
  - exact (proj1 (PoolFacts.step_invariant I Hstep)).
  - apply (@step_sequential p q); [| exact J | exact Hstep].
    rewrite (inv_slots I); apply Nat.le_min_l.
Qed.

Lemma firstn_prefix {A} (l a b : list A) k :
  firstn k l = a ++ b -> a = firstn (length a) l.
Proof.
  revert l k; induction a as [| x a IH]; intros l k H; [reflexivity |].
  destruct k as [| k]; [discriminate |].
  destruct l as [| y l]; [discriminate |].
  cbn [firstn app length] in *.
  injection H as -> H; f_equal; eapply IH; exact H.
Qed.

(** X20.  At every state of every run the calls of the worker that
    have not settled are at most [limit], and at most the number of
    items. *)
Theorem runWithConcurrency_at_most_limit limit n p :
  run items finish n (init items limit s0) p ->
  length (awaited (slots p)) <= limit /\
  length (awaited (slots p)) <= length items.
Proof.
  intros Hrun.
  pose proof (@run_from_init _ _ _ Hrun) as I.
  pose proof (length_awaited (slots p)) as Hle.
  rewrite (inv_slots I) in Hle; lia.
Qed.

(** X21.  With a limit of zero, or with no items, no closure is
    created: the promise resolves at once, no call of the worker is
    made, the shared state is untouched and nothing can happen
    afterwards.  With a limit of zero the items are left unprocessed. *)
Theorem runWithConcurrency_nothing_to_do limit :
  limit = 0 \/ items = [] ->
  resolved (init items limit s0) /\
  started (init items limit s0) = [] /\
  shared (init items limit s0) = s0 /\
  forall q, ~ step items finish (init items limit s0) q.
Proof.
  intros H.
  assert (E : init items limit s0 = mkPool 0 [] [] [] s0).
  { unfold init.
    replace (Nat.min limit (length items)) with 0; [reflexivity |].
    destruct H as [-> | ->]; [reflexivity | cbn [length]; lia]. }
  rewrite E; cbn [started shared].
  split; [constructor |].
  split; [reflexivity |].
  split; [reflexivity |].
  intros q Hstep.
  inversion Hstep as [p k item Hk | p k Hk]; subst;
    cbn [slots] in Hk; destruct k; discriminate.
Qed.

(** X22.  With a limit of one the calls of the worker are sequential:
    at every state of every run the calls that have settled are the
    first items, in the order of the list, at most one further call is
    pending, and it is on the next item. *)
Theorem runWithConcurrency_sequential n p :
  run items finish n (init items 1 s0) p ->
  settled p = firstn (length (settled p)) items /\
  firstn (index p) items = settled p ++ awaited (slots p) /\
  length (awaited (slots p)) <= 1 /\
  shared p
  = fold_left (fun s item => finish item s)
              (firstn (length (settled p)) items) s0.
Proof.
  intros Hrun.
  pose proof (@run_from_init _ _ _ Hrun) as I.
  assert (J : started p = settled p ++ awaited (slots p)).
  { apply (@run_sequential _ _ _ Hrun (PoolFacts.init_invariant items 1 finish s0)).
    unfold init; rewrite PoolFacts.spawned by apply Nat.le_min_r.
    cbn [started settled slots app]; rewrite PoolFacts.awaited_map.
    reflexivity. }
  rewrite (inv_started I) in J.
  assert (P : settled p = firstn (length (settled p)) items)
    by (eapply firstn_prefix; exact J).
  split; [exact P |].
  split; [exact J |].
  split.
  - pose proof (length_awaited (slots p)) as Hle.
    rewrite (inv_slots I) in Hle; lia.
  - rewrite <- P; exact (inv_shared I).
Qed.

End Facts.

Lemma runWithConcurrency_at_most_limit_witness :
  run [1; 2; 3] (@cons nat) 1 (init [1; 2; 3] 2 []) 
      (mkPool 2 [Ready; Awaiting 2] [1; 2] [1] [1])
  /\ length (awaited [@Ready nat; Awaiting 2]) <= 2.
Proof.
  assert (H : run [1; 2; 3] (@cons nat) 1 (init [1; 2; 3] 2 [])
                  (mkPool 2 [Ready; Awaiting 2] [1; 2] [1] [1])).
  { eapply run_step;
      [apply step_settle with (k := 0) (item := 1); reflexivity |].
    apply run_nil. }
  split; [exact H |].
  exact (proj1 (@runWithConcurrency_at_most_limit _ _ _ _ _ _ _ _ H)).
Defined.

Lemma runWithConcurrency_nothing_to_do_witness :
  (0 = 0 \/ [1; 2] = @nil nat) /\
  started (init [1; 2] 0 (@nil nat)) = [] /\
  resolved (init [1; 2] 0 (@nil nat)).
Proof.
  assert (H : 0 = 0 \/ [1; 2] = @nil nat) by (left; reflexivity).
  split; [exact H |].
  destruct (@runWithConcurrency_nothing_to_do nat (list nat) [1; 2]
              (@cons nat) [] 0 H) as (H1 & H2 & _).
  split; [exact H2 | exact H1].
Defined.

Lemma runWithConcurrency_sequential_witness :
  run [1; 2; 3] (@cons nat) 2 (init [1; 2; 3] 1 [])
      (mkPool 2 [Awaiting 2] [1; 2] [1] [1])
  /\ [1] = firstn 1 [1; 2; 3].
Proof.
  assert (H : run [1; 2; 3] (@cons nat) 2 (init [1; 2; 3] 1 [])
                  (mkPool 2 [Awaiting 2] [1; 2] [1] [1])).
  { eapply run_step;
      [apply step_settle with (k := 0) (item := 1); reflexivity |].
    eapply run_step; [apply step_resume with (k := 0); reflexivity |].
    apply run_nil. }
  split; [exact H |].
  exact (proj1 (@runWithConcurrency_sequential _ _ _ _ _ _ _ H)).
Defined.

End HarnessFacts.

(** ** The summary and the report of [main] *)

Module SummaryFacts.

Import Pool.

Lemma existsb_keys (m : JsMap.t (list LinkOccurrence)) u :
  existsb (Js.eqb u) (JsMap.keys m)
  = match JsMap.get m u with Some _ => true | None => false end.
Proof.
  induction m as [| [k v] m IH]; [reflexivity |].
  cbn [JsMap.keys map fst existsb JsMap.get].
  rewrite (JsFacts.eqb_sym u k).
  destruct (Js.eqb k u); [reflexivity | exact IH].
Qed.

Lemma keys_addEncounter m e :
  JsMap.keys (addEncounter m e) = noteUrl (JsMap.keys m) (fst e).
Proof.
  unfold addEncounter, noteUrl.
  rewrite JsMapFacts.keys_set, existsb_keys.
  destruct (JsMap.get m (fst e)); reflexivity.
Qed.

Lemma keys_fold e : forall m,
  JsMap.keys (fold_left addEncounter e m)
  = fold_left noteUrl (map fst e) (JsMap.keys m).
Proof.
  induction e as [| x e IH]; intros m; [reflexivity |].
  cbn [fold_left map]; rewrite IH, keys_addEncounter; reflexivity.
Qed.

Lemma list_sum_cons x l : list_sum (x :: l) = x + list_sum l.
Proof. reflexivity. Qed.

Lemma held_addEncounter m e : held (addEncounter m e) = S (held m).
Proof.
  unfold addEncounter, held.
  induction m as [| [k v] m IH].
  - cbn; reflexivity.
  - cbn [JsMap.get JsMap.set].
    destruct (Js.eqb k (fst e)).
    + cbn [map snd]; rewrite !list_sum_cons, length_app; cbn [length]; lia.
    + cbn [map snd]; rewrite !list_sum_cons, IH; lia.
Qed.

Lemma held_fold e : forall m,
  held (fold_left addEncounter e m) = length e + held m.
Proof.
  induction e as [| x e IH]; intros m; [reflexivity |].
  cbn [fold_left length]; rewrite IH, held_addEncounter; lia.
Qed.

Lemma extractedLinks_fold parse files : forall n,
  fold_left (fun n (f : jsstring * jsstring) =>
               n + length (collectFileLinks parse (snd f))) files n
  = n + length (encounters parse files).
Proof.
  unfold encounters.
  induction files as [| f files IH]; intros n; [cbn; lia |].
  cbn [fold_left flat_map]; rewrite IH, length_app, length_map; lia.
Qed.

Lemma filter_none {A} (f : A -> bool) l :
  filter f l = [] <-> forall x, In x l -> f x = false.
Proof.
  induction l as [| y l IH]; [cbn; tauto |].
  cbn [filter In]; destruct (f y) eqn:E.
  - split; [discriminate |].
    intros H; rewrite (H y (or_introl eq_refl)) in E; discriminate.
  - rewrite IH; split.
    + intros H x [-> | Hx]; auto.
    + intros H x Hx; apply H; right; exact Hx.
Qed.

(** The reports of a resolved run of [main]: those of the failing URLs
    among the settled ones, which are the unique URLs in some order. *)
Lemma resolved_report parse net localeCompare files n p :
  run (uniqueUrls parse files) (worker net (scanFiles parse files)) n
      (mainPool parse files) p ->
  resolved p ->
  Permutation (settled p) (uniqueUrls parse files) /\
  Permutation (report localeCompare p)
    (map (failureOf net (scanFiles parse files))
         (filter (failing net) (settled p))).
Proof.
  intros Hrun Hres.
  pose proof (PoolFacts.init_invariant (uniqueUrls parse files) MAX_CONCURRENCY
                (worker net (scanFiles parse files)) []) as Hinit.
  destruct (PoolFacts.run_invariant Hrun Hinit) as [I _].
  assert (Hl : 1 <= MAX_CONCURRENCY) by (unfold MAX_CONCURRENCY; lia).
  destruct (PoolFacts.resolved_all Hl I Hres) as (_ & Hperm & _).
  split; [exact Hperm |].
  unfold report, sortFailed.
  rewrite SortFacts.sortBy_perm, (inv_shared I), MainFacts.worker_fold.
  reflexivity.
Qed.

(** X23.  The unique URLs, which [main] hands to the pool in that
    order, are the URLs of the links extracted, each at the place of
    its first occurrence, in the order in which [main] met them. *)
Theorem uniqueUrls_first_encounter parse files :
  uniqueUrls parse files = firstSeen (map fst (encounters parse files)).
Proof.
  unfold uniqueUrls, firstSeen.
  rewrite ScanFacts.scanFiles_encounters; apply keys_fold.
Qed.

(** X24.  The count of extracted links [main] prints is the number of
    occurrences it met, which is the number of occurrences the map
    holds; the number of unique links is not greater. *)
Theorem extractedLinks_counts_occurrences parse files :
  extractedLinks parse files = length (encounters parse files) /\
  extractedLinks parse files = held (scanFiles parse files) /\
  length (uniqueUrls parse files) <= extractedLinks parse files.
Proof.
  assert (H1 : extractedLinks parse files = length (encounters parse files))
    by (unfold extractedLinks; rewrite extractedLinks_fold; reflexivity).
  assert (H2 : extractedLinks parse files = held (scanFiles parse files)).
  { rewrite H1, ScanFacts.scanFiles_encounters, held_fold; cbn; lia. }
  split; [exact H1 |]. split; [exact H2 |].
  rewrite H1, uniqueUrls_first_encounter.
  unfold firstSeen.
  assert (G : forall l seen,
             length (fold_left noteUrl l seen) <= length seen + length l).
  { induction l as [| u l IH]; intros seen; cbn [fold_left length]; [lia |].
    etransitivity; [apply IH |].
    unfold noteUrl; destruct (existsb (Js.eqb u) seen);
      [| rewrite length_app; cbn [length]]; lia. }
  etransitivity; [apply G |].
  rewrite length_map; cbn [length]; lia.
Qed.

(** X25.  When the pool has resolved, [main] exits with code 0 exactly
    when the check of every unique URL passed, and with code 1
    otherwise; the number of failed links it prints is the number of
    unique URLs whose check failed. *)
Theorem exitCode_zero_iff_all_pass parse net localeCompare files n p :
  run (uniqueUrls parse files) (worker net (scanFiles parse files)) n
      (mainPool parse files) p ->
  resolved p ->
  (exitCode localeCompare p = 0
   <-> forall u, In u (uniqueUrls parse files) ->
                 Checker.ok (Checker.checkUrl net u) = true) /\
  (exitCode localeCompare p = 0 \/ exitCode localeCompare p = 1) /\
  length (report localeCompare p)
  = length (filter (failing net) (uniqueUrls parse files)).
Proof.
  intros Hrun Hres.
  destruct (@resolved_report parse net localeCompare files n p Hrun Hres)
    as [Hset Hrep].
  assert (Hlen : length (report localeCompare p)
                 = length (filter (failing net) (uniqueUrls parse files))).
  { rewrite (Permutation_length Hrep), length_map.
    apply Permutation_length, MainFacts.Permutation_filter, Hset. }
  split; [| split; [| exact Hlen]].
  - assert (Hz : exitCode localeCompare p = 0
                 <-> length (report localeCompare p) = 0).
    { unfold exitCode; destruct (report localeCompare p); cbn [length];
        split; intros; [reflexivity | reflexivity | discriminate | lia]. }
    rewrite Hz, Hlen, length_zero_iff_nil, filter_none.
    unfold failing; split; intros H u Hu; specialize (H u Hu).
    + destruct (Checker.ok (Checker.checkUrl net u));
        [reflexivity | discriminate].
    + rewrite H; reflexivity.
  - unfold exitCode; destruct (report localeCompare p); auto.
Qed.

(** X26.  When the pool has resolved, every failure [main] reports is
    that of a unique URL whose check failed; it carries the reason the
    check gave and all the occurrences of that URL in the files, of
    which there is at least one; and no URL is reported twice. *)
Theorem report_entries parse net localeCompare files n p :
  run (uniqueUrls parse files) (worker net (scanFiles parse files)) n
      (mainPool parse files) p ->
  resolved p ->
  (forall r, In r (report localeCompare p) ->
     In (url r) (uniqueUrls parse files) /\
     Checker.ok (Checker.checkUrl net (url r)) = false /\
     Checker.reason (Checker.checkUrl net (url r)) = Some (reason r) /\
     occurrences r = occurrencesOf (url r) (encounters parse files) /\
     occurrences r <> []) /\
  NoDup (map url (report localeCompare p)).
Proof.
  intros Hrun Hres.
  destruct (@resolved_report parse net localeCompare files n p Hrun Hres)
    as [Hset Hrep].
  destruct (ScanFacts.recorded_scanFiles parse files) as [Hnd Hget].
  split.
  - intros r Hr.
    apply (Permutation_in _ Hrep), in_map_iff in Hr.
    destruct Hr as (u & <- & Hu).
    apply filter_In in Hu as [Hu Hfail].
    apply (Permutation_in _ Hset) in Hu.
    unfold failureOf; cbn [url reason occurrences].
    assert (Hok : Checker.ok (Checker.checkUrl net u) = false).
    { unfold failing in Hfail.
      destruct (Checker.ok (Checker.checkUrl net u));
        [discriminate | reflexivity]. }
    split; [exact Hu |]. split; [exact Hok |].
    split.
    + destruct (VerdictFacts.checkUrl_reason net u) as [[H _] | [_ [m ->]]];
        [congruence | reflexivity].
    + rewrite Hget.
      destruct (occurrencesOf u (encounters parse files)) as [| o l] eqn:E.
      * exfalso.
        assert (Hnone : JsMap.get (scanFiles parse files) u = None)
          by (rewrite Hget, E; reflexivity).
        apply JsMapFacts.get_None_keys in Hnone; apply Hnone; exact Hu.
      * cbn [nonEmpty]; split; [reflexivity | discriminate].
  - apply (Permutation_NoDup (l := filter (failing net) (settled p))).
    + rewrite (Permutation_map url Hrep), map_map.
      unfold failureOf; cbn [url]; rewrite map_id; reflexivity.
    + apply NoDup_filter.
      apply (Permutation_NoDup (l := uniqueUrls parse files));
        [symmetry; exact Hset | exact Hnd].
Qed.

Lemma exitCode_zero_iff_all_pass_witness :
  exists p,
    run (uniqueUrls SampleUrls.parse Samples.two_pages)
        (worker Samples.net_404
           (scanFiles SampleUrls.parse Samples.two_pages)) 4
        (mainPool SampleUrls.parse Samples.two_pages) p /\
    resolved p /\
    length (report compareCodeUnits p)
    = length (filter (failing Samples.net_404)
                (uniqueUrls SampleUrls.parse Samples.two_pages)).
Proof.
  pose (occ := scanFiles SampleUrls.parse Samples.two_pages).
  pose (final := mkPool 2 [Returned; Returned]
                   [lit "https://x.com/a"; lit "https://x.com/B"]
                   [lit "https://x.com/B"; lit "https://x.com/a"]
                   (map (failureOf Samples.net_404 occ)
                        [lit "https://x.com/B"; lit "https://x.com/a"])).
  exists final.
  assert (Hr : run (uniqueUrls SampleUrls.parse Samples.two_pages)
                   (worker Samples.net_404 occ) 4
                   (mainPool SampleUrls.parse Samples.two_pages) final).
  { eapply run_step;
      [apply step_settle with (k := 1) (item := lit "https://x.com/B");
       reflexivity |].
    eapply run_step;
      [apply step_resume with (k := 1); reflexivity |].
    eapply run_step;
      [apply step_settle with (k := 0) (item := lit "https://x.com/a");
       reflexivity |].
    eapply run_step; [apply step_resume with (k := 0); reflexivity |].
    apply run_nil. }
  assert (Hres : resolved final) by (repeat constructor).
  split; [exact Hr |]. split; [exact Hres |].
  exact (proj2 (proj2 (@exitCode_zero_iff_all_pass SampleUrls.parse
                         Samples.net_404 compareCodeUnits Samples.two_pages
                         4 final Hr Hres))).
Defined.

Lemma report_entries_witness :
  exists p,
    run (uniqueUrls SampleUrls.parse Samples.two_files)
        (worker Samples.net_404
           (scanFiles SampleUrls.parse Samples.two_files)) 2
        (mainPool SampleUrls.parse Samples.two_files) p /\
    resolved p /\
    NoDup (map url (report compareCodeUnits p)).
Proof.
  pose (occ := scanFiles SampleUrls.parse Samples.two_files).
  pose (final := mkPool 1 [Returned]
                   [lit "https://x.com/page"]
                   [lit "https://x.com/page"]
                   (map (failureOf Samples.net_404 occ)
                        [lit "https://x.com/page"])).
  exists final.
  assert (Hr : run (uniqueUrls SampleUrls.parse Samples.two_files)
                   (worker Samples.net_404 occ) 2
                   (mainPool SampleUrls.parse Samples.two_files) final).
  { eapply run_step;
      [apply step_settle with (k := 0) (item := lit "https://x.com/page");
       reflexivity |].
    eapply run_step; [apply step_resume with (k := 0); reflexivity |].
    apply run_nil. }
  assert (Hres : resolved final) by (repeat constructor).
  split; [exact Hr |]. split; [exact Hres |].
  exact (proj2 (@report_entries SampleUrls.parse Samples.net_404
                  compareCodeUnits Samples.two_files 2 final Hr Hres)).
Defined.

End SummaryFacts.

(** ** The place of a link in the original text *)

Module SourceFacts.

Section Replace.

Variable m : jsstring -> option nat.

Hypothesis m_ends : forall s len,
  m s = Some (S len) -> nth_error s len = Some (ch "`").

(** [StripFacts.replaceFrom_origin], with what precedes the code unit:
    [pin] and [pout] are the code units before the text and before the
    result. *)
Lemma replaceFrom_source s : forall k i c0 pin pout,
  nth_error (Regex.replaceFrom m lineBreaks k s) i = Some c0 -> c0 <> LF ->
  (k = 0 -> forall b, pin = Some b -> b <> ch "`" -> pout = Some b) ->
  (forall k', k = S k' -> nth_error s k' = Some (ch "`")) ->
  exists j,
    nth_error s j = Some c0 /\
    countNewlines (firstn i (Regex.replaceFrom m lineBreaks k s))
      + countNewlines (firstn k s) = countNewlines (firstn j s) /\
    Regex.replaceFrom m lineBreaks 0 (skipn j s)
      = skipn i (Regex.replaceFrom m lineBreaks k s) /\
    forall b,
      match j with O => pin | S j' => nth_error s j' end = Some b ->
      b <> ch "`" ->
      match i with
      | O => pout
      | S i' => nth_error (Regex.replaceFrom m lineBreaks k s) i'
      end = Some b.
Proof.
  induction s as [|c s IH]; intros k i c0 pin pout Hnth Hc0 Hzero Hskip.
  { destruct k, i; discriminate. }
  assert (Hcons : forall l, countNewlines (c :: l)
                            = countNewlines [c] + countNewlines l).
  { intros l; change (c :: l) with ([c] ++ l);
      apply LineFacts.countNewlines_app. }
  destruct k as [|k].
  - simpl Regex.replaceFrom in *.
    destruct (m (c :: s)) as [[|len]|] eqn:E.
    1, 3: destruct i as [|i]; simpl in Hnth;
      [ injection Hnth as <-; exists 0; simpl; rewrite E;
        repeat split; auto
      | destruct (IH 0 i c0 (Some c) (Some c) Hnth Hc0
                     (fun _ b H _ => H) (fun k' H => ltac:(discriminate)))
          as (j & Hj & Hcount & Hrest & Hprev);
        exists (S j); simpl firstn in *; simpl skipn;
        rewrite (Hcons (firstn i _)), (Hcons (firstn j _));
        split; [exact Hj |];
        split; [simpl in Hcount |- *; lia |];
        split; [exact Hrest |];
        intros b Hb Htick; cbn [nth_error];
        destruct j, i; cbn [nth_error] in *; auto ].
    set (n := countNewlines (c :: firstn len s)) in *.
    change (lineBreaks (c :: firstn len s)) with (repeat LF n) in *.
    assert (Hn : n = countNewlines [c] + countNewlines (firstn len s))
      by apply Hcons.
    destruct (Nat.lt_ge_cases i n) as [Hlt | Hge].
    + rewrite nth_error_app1 in Hnth by (rewrite repeat_length; exact Hlt).
      apply nth_error_In, repeat_spec in Hnth; congruence.
    + rewrite nth_error_app2 in Hnth by (rewrite repeat_length; exact Hge).
      rewrite repeat_length in Hnth.
      pose proof (m_ends E) as Hend.
      destruct (IH len (i - n) c0 (Some c)
                   (match n with O => pout | S _ => Some LF end) Hnth Hc0)
        as (j & Hj & Hcount & Hrest & Hprev).
      { intros -> b [= <-] Htick; cbn [nth_error] in Hend; congruence. }
      { intros k' ->; exact Hend. }
      exists (S j); split; [exact Hj |]. split; [| split].
      * rewrite firstn_app, repeat_length, LineFacts.countNewlines_app.
        rewrite firstn_all2 by (rewrite repeat_length; exact Hge).
        rewrite LineFacts.countNewlines_repeat.
        simpl firstn; rewrite (Hcons (firstn j s)).
        change (countNewlines []) with 0; lia.
      * simpl skipn at 1; rewrite Hrest.
        rewrite skipn_app, repeat_length.
        rewrite (@skipn_all2 _ i (repeat LF n))
          by (rewrite repeat_length; exact Hge).
        reflexivity.
      * intros b Hb Htick.
        assert (Hb' : match j with O => Some c | S j' => nth_error s j' end
                      = Some b) by (destruct j; exact Hb).
        specialize (Hprev b Hb' Htick).
        destruct i as [|i].
        -- assert (n = 0) by lia; subst n.
           replace (countNewlines (c :: firstn len s)) with 0 in * by lia.
           exact Hprev.
        -- destruct (Nat.eq_dec (S i) n) as [Heq | Hne].
           ++ rewrite Heq, Nat.sub_diag in Hprev.
              rewrite <- Heq in Hprev.
              rewrite nth_error_app1 by (rewrite repeat_length; lia).
              cbv beta iota in Hprev; rewrite <- Hprev.
              apply nth_error_repeat; lia.
           ++ rewrite nth_error_app2 by (rewrite repeat_length; lia).
              rewrite repeat_length.
              replace (S i - n) with (S (i - n)) in Hprev by lia.
              exact Hprev.
  - simpl Regex.replaceFrom in *.
    destruct (IH k i c0 (Some c) pout Hnth Hc0)
      as (j & Hj & Hcount & Hrest & Hprev).
    { intros -> b [= <-] Htick.
      specialize (Hskip 0 eq_refl); cbn [nth_error] in Hskip; congruence. }
    { intros k' ->; exact (Hskip (S k') eq_refl). }
    exists (S j); simpl firstn; simpl skipn.
    rewrite (Hcons (firstn k _)), (Hcons (firstn j _)).
    split; [exact Hj |].
    split; [simpl in Hcount |- *; lia |].
    split; [exact Hrest |].
    intros b Hb Htick; apply Hprev; [| exact Htick].
    destruct j; exact Hb.
Qed.

End Replace.

Lemma findFence_Some s : forall k,
  findFence s = Some k -> startsWith (skipn k s) fence = true.
Proof.
  induction s as [|c s IH]; intros k H; [discriminate |].
  cbn [findFence] in H.
  destruct (startsWith (c :: s) fence) eqn:E.
  - injection H as <-; exact E.
  - destruct (findFence s) as [k'|]; [| discriminate].
    injection H as <-; cbn [skipn]; apply IH; reflexivity.
Qed.

(** A code block ends with a backtick. *)
Lemma CODE_BLOCK_ends s len :
  CODE_BLOCK_REGEX s = Some (S len) -> nth_error s len = Some (ch "`").
Proof.
  unfold CODE_BLOCK_REGEX.
  destruct (startsWith s fence) eqn:E; [| discriminate].
  destruct (findFence (skipn 3 s)) as [k|] eqn:F; [| discriminate].
  cbn [option_map]; intros [= Hlen].
  apply findFence_Some, PatternFacts.startsWith_spec in F.
  rewrite skipn_skipn in F.
  replace len with ((k + 3) + 2) by lia.
  rewrite <- nth_error_skipn, F; reflexivity.
Qed.

Section Source.

Variable parse : urlParser.

(** A link pushed by one of the loops is written at a place of the
    original text, on the line computed for it. *)
Lemma loop_source d (M : Regex.matcher jsstring) body
    (targetOf : jsstring -> jsstring) l c0 :
  (forall before s r, M before s = Some r -> exists tl, s = c0 :: tl) ->
  c0 <> LF ->
  (forall x l, In l (body x) ->
     link_line l = lineNumberAt (stripCodeBlocks d) (fst x) /\
     toExternalHttpUrl parse (targetOf (snd x)) = Some (link_url l)) ->
  In l (flat_map body (Regex.execAll M (stripCodeBlocks d))) ->
  exists j before len g,
    link_line l = S (countNewlines (firstn j d)) /\
    nth_error d j = Some c0 /\
    M before (stripCodeBlocks (skipn j d)) = Some (S len, g) /\
    toExternalHttpUrl parse (targetOf g) = Some (link_url l) /\
    (forall b,
        match j with O => None | S j' => nth_error d j' end = Some b ->
        b <> ch "`" -> before = Some b).
Proof.
  intros Hhead Hc0 Hbody Hin.
  apply in_flat_map in Hin as ([i g] & Hx & Hl).
  apply LineFacts.execFrom_In in Hx as (k & len & Hi & _ & Hm).
  simpl in Hi; subst k.
  set (before := match i with O => None | S k' => nth_error _ k' end) in Hm.
  destruct (Hhead _ _ _ Hm) as [tl Htl].
  apply ExtractFacts.skipn_cons_nth_error in Htl.
  destruct (@replaceFrom_source CODE_BLOCK_REGEX CODE_BLOCK_ends d 0 i c0
              None None Htl Hc0)
    as (j & Hj & Hcount & Hrest & Hprev).
  { intros _ b Hb; discriminate. }
  { intros k' Hk; discriminate. }
  destruct (Hbody _ _ Hl) as [Hline Hurl]; cbn [fst snd] in *.
  exists j, before, len, g; repeat split.
  - rewrite Hline, LineFacts.lineNumberAt_count; f_equal.
    unfold stripCodeBlocks, Regex.replaceAll.
    rewrite <- Hcount; change (countNewlines (firstn 0 d)) with 0; lia.
  - exact Hj.
  - unfold stripCodeBlocks, Regex.replaceAll in *; rewrite Hrest; exact Hm.
  - exact Hurl.
  - exact Hprev.
Qed.

Lemma link_source d l :
  In l (collectFileLinks parse d) ->
  exists j before len g,
    link_line l = S (countNewlines (firstn j d)) /\
    (forall b,
        match j with O => None | S j' => nth_error d j' end = Some b ->
        b <> ch "`" -> before = Some b) /\
    ((nth_error d j = Some (ch "[") /\
      MARKDOWN_LINK_REGEX before (stripCodeBlocks (skipn j d))
      = Some (S len, g) /\
      toExternalHttpUrl parse (extractMarkdownUrl g) = Some (link_url l))
     \/ (nth_error d j = Some (ch "<") /\
         AUTOLINK_REGEX before (stripCodeBlocks (skipn j d))
         = Some (S len, g) /\
         toExternalHttpUrl parse g = Some (link_url l))
     \/ (nth_error d j = Some (ch "<") /\
         HTML_ANCHOR_REGEX before (stripCodeBlocks (skipn j d))
         = Some (S len, g) /\
         toExternalHttpUrl parse g = Some (link_url l))).
Proof.
  unfold collectFileLinks; rewrite !in_app_iff; intros [H | [H | H]].
  - apply loop_source with (c0 := ch "[") (targetOf := extractMarkdownUrl)
      in H as (j & before & len & g & Hline & Hnth & Hm & Hurl & Hprev).
    + exists j, before, len, g.
      split; [exact Hline | split; [exact Hprev | left; auto]].
    + apply ExtractFacts.MARKDOWN_LINK_head.
    + discriminate.
    + intros x l'; cbn [fst snd].
      destruct (isEmpty (extractMarkdownUrl (snd x))); [contradiction |].
      intros Hp; split;
        [exact (LineFacts.pushLink_line _ _ _ _ _ Hp)
        | exact (proj1 (FilterFacts.pushLink_In _ _ _ _ _ Hp))].
  - apply loop_source with (c0 := ch "<") (targetOf := fun g => g)
      in H as (j & before & len & g & Hline & Hnth & Hm & Hurl & Hprev).
    + exists j, before, len, g.
      split; [exact Hline | split; [exact Hprev | right; left; auto]].
    + apply ExtractFacts.AUTOLINK_head.
    + discriminate.
    + intros x l' Hp; split;
        [exact (LineFacts.pushLink_line _ _ _ _ _ Hp)
        | exact (proj1 (FilterFacts.pushLink_In _ _ _ _ _ Hp))].
  - apply loop_source with (c0 := ch "<") (targetOf := fun g => g)
      in H as (j & before & len & g & Hline & Hnth & Hm & Hurl & Hprev).
    + exists j, before, len, g.
      split; [exact Hline | split; [exact Hprev | right; right; auto]].
    + apply ExtractFacts.HTML_ANCHOR_head.
    + discriminate.
    + intros x l' Hp; split;
        [exact (LineFacts.pushLink_line _ _ _ _ _ Hp)
        | exact (proj1 (FilterFacts.pushLink_In _ _ _ _ _ Hp))].
Qed.

End Source.

End SourceFacts.

(** ** Code blocks and lines *)

Module BlockFacts.



End BlockFacts.

(** ** Images *)

Module ImageFacts.

Lemma nth_error_middle {A} (pre mid post : list A) j :
  length pre <= j < length pre + length mid ->
  nth_error (pre ++ mid ++ post) j = nth_error mid (j - length pre).
Proof.
  intros H.
  rewrite nth_error_app2 by lia.
  apply nth_error_app1; lia.
Qed.

(** Past its first two code units a plain image reference holds no
    opening bracket. *)
Lemma imageReference_inside alt dest k c :
  noOpening alt -> noOpening dest ->
  nth_error (imageReference alt dest) (S (S k)) = Some c ->
  c <> ch "[" /\ c <> ch "<".
Proof.
  intros Halt Hdest Hnth.
  change (imageReference alt dest)
    with (ch "!" :: ch "[" :: alt ++ ch "]" :: ch "(" :: dest ++ [ch ")"])
    in Hnth.
  cbn [nth_error] in Hnth; apply nth_error_In in Hnth.
  apply in_app_or in Hnth as [Hin | [<- | [<- | Hin]]].
  - exact (proj1 (Forall_forall _ _) Halt c Hin).
  - split; discriminate.
  - split; discriminate.
  - apply in_app_or in Hin as [Hin | [<- | []]].
    + exact (proj1 (Forall_forall _ _) Hdest c Hin).
    + split; discriminate.
Qed.

(** No link starts inside a plain image reference. *)
Lemma not_in_image d pre alt dest post j before len g :
  d = pre ++ imageReference alt dest ++ post ->
  noOpening alt -> noOpening dest ->
  (forall b,
      match j with O => None | S j' => nth_error d j' end = Some b ->
      b <> ch "`" -> before = Some b) ->
  (nth_error d j = Some (ch "[") /\
   MARKDOWN_LINK_REGEX before (stripCodeBlocks (skipn j d)) = Some (S len, g))
  \/ nth_error d j = Some (ch "<") ->
  ~ (length pre <= j < length pre + length (imageReference alt dest)).
Proof.
  intros -> Halt Hdest Hprev Hat Hrange.
  assert (Hnth : nth_error (pre ++ imageReference alt dest ++ post) j
                 = nth_error (imageReference alt dest) (j - length pre))
    by (apply nth_error_middle; exact Hrange).
  rewrite Hnth in Hat.
  destruct (j - length pre) as [| [| k]] eqn:Ek.
  - destruct Hat as [[Hat _] | Hat]; discriminate.
  - destruct Hat as [[_ Hm] | Hat]; [| discriminate].
    assert (Hj : j = S (length pre)) by lia.
    rewrite Hj in Hprev.
    assert (Hbang : nth_error (pre ++ imageReference alt dest ++ post)
                      (length pre) = Some (ch "!")).
    { rewrite nth_error_app2, Nat.sub_diag by lia; reflexivity. }
    rewrite (Hprev _ Hbang ltac:(discriminate)) in Hm.
    discriminate.
  - destruct Hat as [[Hat _] | Hat];
      destruct (imageReference_inside k Halt Hdest Hat) as [H1 H2];
      [apply H1 | apply H2]; reflexivity.
Qed.

Lemma noOpening_nth s j c :
  noOpening s -> nth_error s j = Some c -> c <> ch "[" /\ c <> ch "<".
Proof.
  intros Hs Hnth; apply nth_error_In in Hnth.
  exact (proj1 (Forall_forall _ _) Hs c Hnth).
Qed.

(** C4, as the program has it.  No link extracted starts inside a
    markdown image reference whose alternative text and destination
    hold no opening square bracket and no opening angle bracket: every
    link extracted is written at a place of the original text, on the
    line computed for it, and that place is in no such reference; so a
    document made of such a reference and of text without those
    brackets yields no link.  The markdown-link pattern never matches
    at a bracket that an exclamation mark precedes.  A URL whose path,
    once the query string and the fragment are stripped, ends in a file
    name made of a non-empty base, a dot and a recognized image
    extension, in any case, is classified as an image (the path is that
    of the parsed URL, or the stripped text itself when it does not
    parse); and no link extracted, whatever its syntax, has a URL
    classified as an image. *)
Theorem images_skipped parse :
  (forall d l,
      In l (collectFileLinks parse d) ->
      exists j before,
        writtenAt parse before (stripCodeBlocks (skipn j d)) (link_url l) /\
        link_line l = S (countNewlines (firstn j d)) /\
        forall pre alt dest post,
          d = pre ++ imageReference alt dest ++ post ->
          noOpening alt -> noOpening dest ->
          ~ (length pre <= j < length pre + length (imageReference alt dest)))
  /\
  (forall pre alt dest post,
      noOpening pre -> noOpening alt -> noOpening dest -> noOpening post ->
      collectFileLinks parse (pre ++ imageReference alt dest ++ post) = []) /\
  (forall s, MARKDOWN_LINK_REGEX (Some (ch "!")) s = None) /\
  (forall content i target,
      In (S i, target) (Regex.execAll MARKDOWN_LINK_REGEX content) ->
      nth_error content i <> Some (ch "!")) /\
  (forall u p dir base ext,
      parse (stripQueryAndHash u) = Some p ->
      pathname p = dir ++ ch "/" :: base ++ ch "." :: ext ->
      base <> [] -> noSlash base ->
      In (toLowerCase ext) imageExtensions ->
      isImageUrl parse u = true) /\
  (forall u dir base ext,
      parse (stripQueryAndHash u) = None ->
      stripQueryAndHash u = dir ++ ch "/" :: base ++ ch "." :: ext ->
      base <> [] -> noSlash base ->
      In (toLowerCase ext) imageExtensions ->
      isImageUrl parse u = true) /\
  (forall d l,
      In l (collectFileLinks parse d) ->
      isImageUrl parse (link_url l) = false).
Proof.
  assert (Hsource : forall d l,
    In l (collectFileLinks parse d) ->
    exists j before,
      writtenAt parse before (stripCodeBlocks (skipn j d)) (link_url l) /\
      link_line l = S (countNewlines (firstn j d)) /\
      (nth_error d j = Some (ch "[") \/ nth_error d j = Some (ch "<")) /\
      forall pre alt dest post,
        d = pre ++ imageReference alt dest ++ post ->
        noOpening alt -> noOpening dest ->
        ~ (length pre <= j < length pre + length (imageReference alt dest))).
  { intros d l Hin.
    destruct (SourceFacts.link_source parse d l Hin)
      as (j & before & len & g & Hline & Hprev & H).
    exists j, before.
    split; [| split; [exact Hline | split]].
    - exists len, g; tauto.
    - tauto.
    - intros pre alt dest post Hd Halt Hdest.
      apply (@not_in_image d pre alt dest post j before len g Hd Halt Hdest
               Hprev).
      tauto. }
  split; [| split; [| split; [reflexivity |]]].
  - intros d l Hin.
    destruct (Hsource d l Hin) as (j & before & Hw & Hline & _ & Himg).
    exists j, before; auto.
  - intros pre alt dest post Hpre Halt Hdest Hpost.
    destruct (collectFileLinks parse (pre ++ imageReference alt dest ++ post))
      as [| l ls] eqn:E; [reflexivity | exfalso].
    destruct (Hsource (pre ++ imageReference alt dest ++ post) l)
      as (j & before & _ & _ & Hat & Himg); [rewrite E; left; reflexivity |].
    specialize (Himg pre alt dest post eq_refl Halt Hdest).
    assert (Hc : exists c, nth_error (pre ++ imageReference alt dest ++ post) j
                           = Some c /\ (c = ch "[" \/ c = ch "<"))
      by (destruct Hat as [Hat | Hat]; eauto).
    destruct Hc as (c & Hnth & Hc).
    destruct (Nat.lt_ge_cases j (length pre)) as [Hlt | Hge].
    + rewrite nth_error_app1 in Hnth by exact Hlt.
      destruct (@noOpening_nth _ _ _ Hpre Hnth) as [H1 H2]; destruct Hc; auto.
    + destruct (Nat.lt_ge_cases j
                  (length pre + length (imageReference alt dest)))
        as [Hin | Hout]; [apply Himg; lia |].
      rewrite nth_error_app2 in Hnth by exact Hge.
      rewrite nth_error_app2 in Hnth by lia.
      destruct (@noOpening_nth _ _ _ Hpost Hnth) as [H1 H2]; destruct Hc; auto.
  - split; [| split; [| split]].
    + intros content i target Hin Hbang.
      apply LineFacts.execFrom_In in Hin as (k & len & Hk & _ & Hm).
      simpl in Hk; subst k; rewrite Hbang in Hm; discriminate.
    + intros u p dir base ext Hparse Hpath Hbase Hns Hext.
      destruct (FilterFacts.imageExtension_recognized ext Hext)
        as (Hne & Hplain & Hhas).
      unfold isImageUrl; rewrite Hparse, Hpath.
      rewrite ExtFacts.extname_base_ext by assumption.
      exact Hhas.
    + intros u dir base ext Hparse Hpath Hbase Hns Hext.
      destruct (FilterFacts.imageExtension_recognized ext Hext)
        as (Hne & Hplain & Hhas).
      unfold isImageUrl; rewrite Hparse, Hpath.
      rewrite ExtFacts.extname_base_ext by assumption.
      exact Hhas.
    + intros d l Hin.
      apply FilterFacts.collectFileLinks_In in Hin as (i & target & Hin).
      apply FilterFacts.pushLink_In in Hin; tauto.
Qed.

Lemma images_skipped_witness :
  isImageUrl SampleUrls.parse (lit "https://x.com/a.png?x=1") = true /\
  collectFileLinks SampleUrls.parse Samples.image_three_ways = [] /\
  (noOpening Samples.image_before /\ noOpening Samples.image_alt /\
   noOpening Samples.image_dest /\ noOpening Samples.image_after) /\
  collectFileLinks SampleUrls.parse
    (Samples.image_before
     ++ imageReference Samples.image_alt Samples.image_dest
     ++ Samples.image_after) = [].
Proof.
  split; [| split; [vm_compute; reflexivity |]].
  - apply (proj1 (proj2 (proj2 (proj2 (proj2
             (images_skipped SampleUrls.parse))))))
      with (p := SampleUrls.https "x.com" "/a.png" "")
           (dir := []) (base := lit "a") (ext := lit "png").
    + vm_compute; reflexivity.
    + vm_compute; reflexivity.
    + discriminate.
    + repeat constructor; discriminate.
    + vm_compute; tauto.
  - assert (H1 : noOpening Samples.image_before)
      by (repeat (constructor; [split; discriminate |]); constructor).
    assert (H2 : noOpening Samples.image_alt)
      by (repeat (constructor; [split; discriminate |]); constructor).
    assert (H3 : noOpening Samples.image_dest)
      by (repeat (constructor; [split; discriminate |]); constructor).
    assert (H4 : noOpening Samples.image_after)
      by (repeat (constructor; [split; discriminate |]); constructor).
    split; [auto |].
    exact (proj1 (proj2 (images_skipped SampleUrls.parse))
             Samples.image_before Samples.image_alt Samples.image_dest
             Samples.image_after H1 H2 H3 H4).
Defined.

(** An image reference whose destination is written between angle
    brackets is extracted by the autolink pattern, an image used as the
    text of a link is extracted by the markdown-link pattern at the
    bracket of the link, and a URL whose path ends in [.png] is
    extracted when that is the whole file name. *)
Lemma image_reference_and_dot_file_extracted :
  (MARKDOWN_IMAGE_REGEX None Samples.image_in_brackets
   = Some (length Samples.image_in_brackets, lit "<https://x.com/page>")
   /\ collectFileLinks SampleUrls.parse Samples.image_in_brackets
      = [mkLink (lit "https://x.com/page") 1])
  /\ (MARKDOWN_IMAGE_REGEX None (skipn 1 Samples.linked_image)
      = Some (26, lit "https://x.com/page")
      /\ collectFileLinks SampleUrls.parse Samples.linked_image
         = [mkLink (lit "https://x.com/page") 1])
  /\ (option_map pathname (SampleUrls.parse (lit "https://x.com/.png"))
      = Some (lit "/" ++ lit ".png")
      /\ collectFileLinks SampleUrls.parse Samples.dot_file
         = [mkLink (lit "https://x.com/.png") 1]).
Proof. vm_compute; repeat split; reflexivity. Qed.

End ImageFacts.

(** ** The order of the report *)

Module OrderFacts.

Import Pool.

Section Stable.

Variable A : Type.
Variable compare : A -> A -> Z.
Variable keep : A -> bool.

Hypothesis keep_tied :
  forall a b, keep a = true -> keep b = true -> (compare a b <= 0)%Z.

(** The sort does not move past one another the elements that the
    comparator does not tell apart. *)
Lemma insertBy_filter x l :
  filter keep (insertBy compare x l) = filter keep (x :: l).
Proof.
  induction l as [|y l IH]; [reflexivity |].
  cbn [insertBy].
  destruct (compare x y <=? 0)%Z eqn:E; [reflexivity |].
  apply Z.leb_gt in E.
  cbn [filter] in *; rewrite IH.
  destruct (keep x) eqn:Kx, (keep y) eqn:Ky; try reflexivity.
  pose proof (keep_tied Kx Ky); lia.
Qed.

Lemma sortBy_filter l : filter keep (sortBy compare l) = filter keep l.
Proof.
  induction l as [|x l IH]; [reflexivity |].
  change (sortBy compare (x :: l)) with (insertBy compare x (sortBy compare l)).
  rewrite insertBy_filter; cbn [filter]; rewrite IH; reflexivity.
Qed.

End Stable.

Lemma compareCodeUnits_eq a : forall b, compareCodeUnits a b = 0%Z -> a = b.
Proof.
  induction a as [|x a IH]; intros [|y b] H; cbn [compareCodeUnits] in H;
    try reflexivity; try discriminate.
  destruct (N.compare x y) eqn:E; try discriminate.
  apply N.compare_eq in E; subst; f_equal; apply IH, H.
Qed.

Lemma compareCodeUnits_refl a : compareCodeUnits a a = 0%Z.
Proof.
  induction a as [|x a IH]; [reflexivity |].
  cbn [compareCodeUnits]; rewrite N.compare_refl; exact IH.
Qed.

(** The recorded comparison is that of a consistent comparator. *)
Lemma SampleCollation_consistent : consistent SampleCollation.localeCompare.
Proof.
  destruct SortFacts.compareCodeUnits_consistent as [_ Htrans].
  assert (Hcase : forall a b,
    (compareCodeUnits (toLowerCase a) (toLowerCase b) = 0%Z /\
     SampleCollation.localeCompare a b = compareCodeUnits b a) \/
    (compareCodeUnits (toLowerCase a) (toLowerCase b) <> 0%Z /\
     SampleCollation.localeCompare a b
     = compareCodeUnits (toLowerCase a) (toLowerCase b))).
  { intros a b; unfold SampleCollation.localeCompare.
    destruct (compareCodeUnits (toLowerCase a) (toLowerCase b));
      [left | right | right]; split; try reflexivity; discriminate. }
  split.
  - intros a b.
    pose proof (SortFacts.compareCodeUnits_antisym (toLowerCase a)
                  (toLowerCase b)) as Hp.
    pose proof (SortFacts.compareCodeUnits_antisym a b) as Hq.
    destruct (Hcase a b) as [[Ha ->] | [Ha ->]],
             (Hcase b a) as [[Hb ->] | [Hb ->]]; lia.
  - intros a b c Hab Hbc.
    pose proof (SortFacts.compareCodeUnits_antisym (toLowerCase a)
                  (toLowerCase b)) as Hpab.
    assert (Pab : (compareCodeUnits (toLowerCase a) (toLowerCase b) <= 0)%Z)
      by (destruct (Hcase a b) as [[H _] | [_ H]]; lia).
    assert (Pbc : (compareCodeUnits (toLowerCase b) (toLowerCase c) <= 0)%Z)
      by (destruct (Hcase b c) as [[H _] | [_ H]]; lia).
    pose proof (Htrans _ _ _ Pab Pbc) as Pac.
    destruct (Hcase a c) as [[Hac ->] | [_ ->]]; [| exact Pac].
    apply compareCodeUnits_eq in Hac.
    rewrite <- Hac in Pbc.
    assert (Zab : compareCodeUnits (toLowerCase a) (toLowerCase b) = 0%Z)
      by lia.
    assert (Zbc : compareCodeUnits (toLowerCase b) (toLowerCase c) = 0%Z).
    { apply compareCodeUnits_eq in Zab.
      rewrite <- Hac, Zab; apply compareCodeUnits_refl. }
    destruct (Hcase a b) as [[_ Eab] | [N _]]; [| contradiction].
    destruct (Hcase b c) as [[_ Ebc] | [N _]]; [| contradiction].
    rewrite Eab in Hab; rewrite Ebc in Hbc.
    exact (Htrans _ _ _ Hbc Hab).
Qed.

(** C8, as the program has it.  When the pool has resolved, whatever
    the order in which the checks settled, the failures [main] reports
    are the reports of the URLs whose check failed, in ascending order
    of URL for the comparator of the sort, which is [localeCompare];
    reports whose URLs that comparator does not tell apart are in the
    order in which they were pushed. *)
Theorem failures_sorted_by_url parse net localeCompare files :
  consistent localeCompare ->
  forall n p,
    run (uniqueUrls parse files) (worker net (scanFiles parse files)) n
        (mainPool parse files) p ->
    resolved p ->
    ascending localeCompare (report localeCompare p) /\
    Permutation (report localeCompare p)
      (map (failureOf net (scanFiles parse files))
           (filter (failing net) (uniqueUrls parse files))) /\
    (forall u,
        filter (fun r => tied localeCompare u (url r))
               (report localeCompare p)
        = filter (fun r => tied localeCompare u (url r)) (shared p)).
Proof.
  intros [Htotal Htrans] n p Hrun Hres.
  destruct (@SummaryFacts.resolved_report parse net localeCompare files n p
              Hrun Hres) as [Hset Hrep].
  split; [| split].
  - unfold report, sortFailed.
    apply (@SortFacts.sortBy_sorted _
             (fun a b => localeCompare (url a) (url b)));
      intros; eauto.
  - rewrite Hrep.
    apply Permutation_map, MainFacts.Permutation_filter, Hset.
  - intros u; unfold report, sortFailed.
    apply sortBy_filter.
    intros a b Ha Hb; unfold tied in Ha, Hb.
    apply andb_true_iff in Ha as [_ Ha], Hb as [Hb _].
    apply Z.leb_le in Ha, Hb.
    exact (Htrans _ _ _ Ha Hb).
Qed.

Lemma failures_sorted_by_url_witness :
  exists p,
    consistent SampleCollation.localeCompare /\
    run (uniqueUrls SampleUrls.parse Samples.two_pages)
        (worker Samples.net_404 (scanFiles SampleUrls.parse Samples.two_pages))
        4 (mainPool SampleUrls.parse Samples.two_pages) p /\
    resolved p /\
    map url (shared p) = [lit "https://x.com/B"; lit "https://x.com/a"] /\
    map url (report SampleCollation.localeCompare p)
      = [lit "https://x.com/a"; lit "https://x.com/B"] /\
    ascending SampleCollation.localeCompare
      (report SampleCollation.localeCompare p).
Proof.
  pose (occ := scanFiles SampleUrls.parse Samples.two_pages).
  pose (final := mkPool 2 [Returned; Returned]
                   [lit "https://x.com/a"; lit "https://x.com/B"]
                   [lit "https://x.com/B"; lit "https://x.com/a"]
                   (map (failureOf Samples.net_404 occ)
                        [lit "https://x.com/B"; lit "https://x.com/a"])).
  exists final.
  assert (Hr : run (uniqueUrls SampleUrls.parse Samples.two_pages)
                   (worker Samples.net_404 occ) 4
                   (mainPool SampleUrls.parse Samples.two_pages) final).
  { eapply run_step;
      [apply step_settle with (k := 1) (item := lit "https://x.com/B");
       reflexivity |].
    eapply run_step;
      [apply step_settle with (k := 0) (item := lit "https://x.com/a");
       reflexivity |].
    eapply run_step; [apply step_resume with (k := 0); reflexivity |].
    eapply run_step; [apply step_resume with (k := 1); reflexivity |].
    apply run_nil. }
  assert (Hres : resolved final) by (repeat constructor).
  split; [exact SampleCollation_consistent |].
  split; [exact Hr |]. split; [exact Hres |].
  split; [reflexivity |]. split; [reflexivity |].
  exact (proj1 (@failures_sorted_by_url SampleUrls.parse Samples.net_404
                  SampleCollation.localeCompare Samples.two_pages
                  SampleCollation_consistent 4 final Hr Hres)).
Defined.

(** With the comparisons recorded for these URLs, the failures of
    [two_pages] are reported with the URL that ends in a lower case
    letter first, which is not the order of the code units. *)
Lemma failures_not_in_code_unit_order :
  exists p,
    run (uniqueUrls SampleUrls.parse Samples.two_pages)
        (worker Samples.net_404 (scanFiles SampleUrls.parse Samples.two_pages))
        4 (mainPool SampleUrls.parse Samples.two_pages) p /\
    resolved p /\
    map url (report SampleCollation.localeCompare p)
      = [lit "https://x.com/a"; lit "https://x.com/B"] /\
    compareCodeUnits (lit "https://x.com/a") (lit "https://x.com/B") = 1%Z /\
    ~ ascending compareCodeUnits (report SampleCollation.localeCompare p).
Proof.
  pose (occ := scanFiles SampleUrls.parse Samples.two_pages).
  pose (final := mkPool 2 [Returned; Returned]
                   [lit "https://x.com/a"; lit "https://x.com/B"]
                   [lit "https://x.com/a"; lit "https://x.com/B"]
                   (map (failureOf Samples.net_404 occ)
                        [lit "https://x.com/a"; lit "https://x.com/B"])).
  exists final.
  split.
  { eapply run_step;
      [apply step_settle with (k := 0) (item := lit "https://x.com/a");
       reflexivity |].
    eapply run_step;
      [apply step_settle with (k := 1) (item := lit "https://x.com/B");
       reflexivity |].
    eapply run_step; [apply step_resume with (k := 0); reflexivity |].
    eapply run_step; [apply step_resume with (k := 1); reflexivity |].
    apply run_nil. }
  split; [repeat constructor |].
  split; [reflexivity |].
  split; [reflexivity |].
  intros H.
  assert (E : report SampleCollation.localeCompare final
              = map (failureOf Samples.net_404 occ)
                    [lit "https://x.com/a"; lit "https://x.com/B"])
    by reflexivity.
  rewrite E in H; cbn [map] in H.
  inversion H as [| r rs _ Hall]; subst.
  inversion Hall as [| r rs Hle _]; subst.
  cbn [url failureOf] in Hle.
  change (compareCodeUnits (lit "https://x.com/a") (lit "https://x.com/B"))
    with 1%Z in Hle.
  lia.
Qed.

End OrderFacts.
